(** * Rush Hour solver: heuristics, successor generation and search

    A shallow embedding of [solve.py].  Python integers are [Z]; a grid is a
    list of rows of one-character markers; an exception raised by the Python
    code is a value of [result].  The classes [Car], [Board] and [State] come
    from [board.py]; only the attributes [solve.py] reads are modelled. *)

From Stdlib Require Import ZArith List Ascii String Lia Bool Permutation Sorted.
Set Warnings "-register-all".
Import ListNotations.
Local Open Scope char_scope.
Local Open Scope Z_scope.

Module Solve.

(** ** Exceptions *)

Inductive exn : Type := IndexError | ValueError | AttributeError.

Inductive result (A : Type) : Type :=
| Ok (a : A)
| Raise (e : exn).
Arguments Ok {A} a.
Arguments Raise {A} e.

Definition bind {A B : Type} (r : result A) (k : A -> result B) : result B :=
  match r with
  | Ok a => k a
  | Raise e => Raise e
  end.

Notation "x <- e ;; k" := (bind e (fun x => k))
  (at level 61, e at next level, right associativity).

(** ** Python sequences *)

(** [l[i]]: a negative index counts from the end, an index out of range
    raises [IndexError]. *)
Definition py_index {A : Type} (l : list A) (i : Z) : result A :=
  let n := Z.of_nat (List.length l) in
  let j := if i <? 0 then i + n else i in
  if j <? 0 then Raise IndexError
  else match nth_error l (Z.to_nat j) with
       | Some x => Ok x
       | None => Raise IndexError
       end.

(** [range(lo, hi)] *)
Definition range (lo hi : Z) : list Z :=
  map (fun k => lo + Z.of_nat k) (seq 0 (Z.to_nat (hi - lo))).

(** [range(hi, -1, -1)] *)
Definition range_down (hi : Z) : list Z := rev (range 0 (hi + 1)).

Fixpoint index_of (x : ascii) (l : list ascii) : option nat :=
  match l with
  | [] => None
  | c :: l' => if Ascii.eqb c x then Some O else option_map S (index_of x l')
  end.

(** [l.index(x)]: the position of the first occurrence, [ValueError] when
    there is none. *)
Definition py_list_index (x : ascii) (l : list ascii) : result Z :=
  match index_of x l with
  | Some i => Ok (Z.of_nat i)
  | None => Raise ValueError
  end.

(** [l[i] = x] on a copy of [l], for [i] in [range(len(l))]. *)
Fixpoint list_set {A : Type} (l : list A) (i : nat) (x : A) : list A :=
  match l, i with
  | [], _ => []
  | _ :: l', O => x :: l'
  | a :: l', S i' => a :: list_set l' i' x
  end.

(** ** Data model *)

Inductive Orientation : Type := Horizontal | Vertical.

Module Car.
Record t : Type := mk {
  orientation : Orientation;
  fix_coord : Z;
  var_coord : Z;
  length : Z
}.

(** Modelled from the spec: [Car.set_coord] is defined in [board.py]; a
    move sets the vehicle's [var_coord] and nothing else. *)
Definition set_coord (c : t) (coord : Z) : t :=
  mk (orientation c) (fix_coord c) coord (length c).
End Car.
Abbreviation Car := Car.t.

Definition Grid : Type := list (list ascii).

Module Board.
Record t : Type := mk {
  name : string;
  size : Z;
  cars : list Car;
  grid : Grid
}.
End Board.
Abbreviation Board := Board.t.

(** A heuristic consumes a board and produces a number, or raises. *)
Definition Heuristic : Type := Board -> result Z.

Module State.
Inductive t : Type := mk {
  board : Board;
  hfn : Heuristic;
  f : Z;
  depth : Z;
  parent : option t;
  id : Z
}.

(** [state.f = v] *)
Definition set_f (s : t) (v : Z) : t :=
  mk (board s) (hfn s) v (depth s) (parent s) (id s).
End State.
Abbreviation State := State.t.

(** [board.grid[r][c]] *)
Definition cell (board : Board) (r c : Z) : result ascii :=
  row <- py_index (Board.grid board) r ;;
  py_index row c.

Definition neq (a b : ascii) : bool := negb (Ascii.eqb a b).

(** ** Goal test *)

(** [board.grid[2][4] == "<" and board.grid[2][5] == ">"] *)
Definition exit_cells (board : Board) : result bool :=
  c4 <- cell board 2 4 ;;
  if Ascii.eqb c4 "<" then
    c5 <- cell board 2 5 ;;
    Ok (Ascii.eqb c5 ">")
  else Ok false.

Definition is_goal (state : State) : result bool :=
  exit_cells (State.board state).

(** ** Heuristics *)

(** The counting loop of [blocking_heuristic]. *)
Fixpoint blocking_loop (exitRow : list ascii) (idx : list Z) (count : Z)
  : result Z :=
  match idx with
  | [] => Ok count
  | i :: idx' =>
      c <- py_index exitRow i ;;
      blocking_loop exitRow idx' (if neq c "." then count + 1 else count)
  end.

Definition blocking_heuristic (board : Board) : result Z :=
  g <- exit_cells board ;;
  if g then Ok 0
  else
    exitRow <- py_index (Board.grid board) 2 ;;
    j <- py_list_index ">" exitRow ;;
    blocking_loop exitRow (range (j + 1) (Board.size board)) 1.

(** [g == "v" or g == ">" or g == "<" or g == "-"] *)
Definition top_glyph (g : ascii) : bool :=
  Ascii.eqb g "v" || Ascii.eqb g ">" || Ascii.eqb g "<" || Ascii.eqb g "-".

(** [g == "^" or g == ">" or g == "<" or g == "-"] *)
Definition bot_glyph (g : ascii) : bool :=
  Ascii.eqb g "^" || Ascii.eqb g ">" || Ascii.eqb g "<" || Ascii.eqb g "-".

Definition incr_if (b : bool) (n : Z) : Z := if b then n + 1 else n.

(** The guard of the upward count:
    [g[2][i] != "|" and (g[2][i] != "v" or g[1][i] != "|")
                    and (g[2][i] != "^" or g[3][i] != "|")]. *)
Definition can_clear_up (board : Board) (i : Z) : result bool :=
  c <- cell board 2 i ;;
  if neq c "|" then
    a <- (c' <- cell board 2 i ;;
          if neq c' "v" then Ok true
          else (u <- cell board 1 i ;; Ok (neq u "|"))) ;;
    if a then
      c'' <- cell board 2 i ;;
      if neq c'' "^" then Ok true
      else (d <- cell board 3 i ;; Ok (neq d "|"))
    else Ok false
  else Ok false.

(** One iteration of the loop of [advanced_heuristic] at column [i]:
    [Some v] when the iteration reaches [break] with [num_cars_blocking = v],
    [None] when the cell is free and the loop goes on. *)
Definition advanced_body (board : Board) (i : Z) (num_cars_blocking : Z)
  : result (option Z) :=
  let num_cars_blocking_up := Z.of_nat (List.length (Board.cars board)) + 1 in
  c <- cell board 2 i ;;
  if neq c "." then
    up <- can_clear_up board i ;;
    num_cars_blocking_up <-
      (if up then
         r1 <- cell board 1 i ;;
         r0 <- cell board 0 i ;;
         Ok (incr_if (top_glyph r0) (incr_if (top_glyph r1) 0))
       else Ok num_cars_blocking_up) ;;
    r3 <- cell board 3 i ;;
    r4 <- cell board 4 i ;;
    r5 <- cell board 5 i ;;
    let num_cars_blocking_down :=
      incr_if (bot_glyph r5) (incr_if (bot_glyph r4) (incr_if (bot_glyph r3) 0)) in
    Ok (Some (num_cars_blocking
              + Z.min num_cars_blocking_up num_cars_blocking_down))
  else Ok None.

Fixpoint advanced_loop (board : Board) (idx : list Z) (num_cars_blocking : Z)
  : result Z :=
  match idx with
  | [] => Ok num_cars_blocking
  | i :: idx' =>
      r <- advanced_body board i num_cars_blocking ;;
      match r with
      | Some v => Ok v
      | None => advanced_loop board idx' num_cars_blocking
      end
  end.

Definition advanced_heuristic (board : Board) : result Z :=
  num_cars_blocking <- blocking_heuristic board ;;
  exitRow <- py_index (Board.grid board) 2 ;;
  j <- py_list_index ">" exitRow ;;
  advanced_loop board (range (j + 1) (Board.size board)) num_cars_blocking.

(** Modelled from the spec: [zero_heuristic] is defined in [board.py]; the
    heuristic of uninformed search is 0 on every board. *)
Definition zero_heuristic : Heuristic := fun _ => Ok 0.

(** What one iteration of a search loop does: go round again with a new
    frontier and explored list, or leave the function. *)
Inductive outcome (F R : Type) : Type :=
| Next (frontier : F) (explored : list State)
| Done (r : result R).
Arguments Next {F R} frontier explored.
Arguments Done {F R} r.

(** ** Successor generation and search

    [Board.__init__] rebuilds the grid from the vehicle list and
    [State.__init__] derives the node identity from the board; both live in
    [board.py] and are parameters here. *)

Section Search.

Variable construct_grid : Z -> list Car -> Grid.
Variable board_id : Board -> Z.

(** [Board(name, size, cars)] *)
Definition new_Board (name : string) (size : Z) (cars : list Car) : Board :=
  Board.mk name size cars (construct_grid size cars).

(** [State(board, hfn, f, depth, parent)] *)
Definition new_State (board : Board) (hfn : Heuristic) (f depth : Z)
    (parent : option State) : State :=
  State.mk board hfn f depth parent (board_id board).

Definition addNeighbour (state : State) (cars : list Car)
    (neighbours : list State) : result (list State) :=
  let board := State.board state in
  let newBoard := new_Board (Board.name board) (Board.size board) cars in
  let newState :=
    new_State newBoard (State.hfn state) 0 (State.depth state + 1) (Some state) in
  h <- State.hfn newState newBoard ;;
  Ok (neighbours ++ [State.set_f newState (h + State.depth newState)]).

(** One slide loop of [addVerticalNeighbours] / [addHorizontalNeighbours]:
    [look c] reads the grid cell the loop tests at coordinate [c],
    [coord c] is the argument of [set_coord]; a non-free cell is the
    [break]. *)
Fixpoint slide_loop (state : State) (i : nat) (car : Car)
    (look : Z -> result ascii) (coord : Z -> Z)
    (cells : list Z) (neighbours : list State) : result (list State) :=
  match cells with
  | [] => Ok neighbours
  | c :: cells' =>
      g <- look c ;;
      if Ascii.eqb g "." then
        let carsCopy :=
          list_set (Board.cars (State.board state)) i
                   (Car.set_coord car (coord c)) in
        neighbours' <- addNeighbour state carsCopy neighbours ;;
        slide_loop state i car look coord cells' neighbours'
      else Ok neighbours
  end.

Definition addVerticalNeighbours (state : State) (i : nat)
    (neighbours : list State) : result (list State) :=
  let board := State.board state in
  match nth_error (Board.cars board) i with
  | None => Raise IndexError
  | Some car =>
      let varCoord := Car.var_coord car in
      (* moving up *)
      neighbours <-
        slide_loop state i car
          (fun yCoord => cell board yCoord (Car.fix_coord car))
          (fun yCoord => yCoord)
          (range_down (varCoord - 1)) neighbours ;;
      (* moving down *)
      let varCoord := Car.var_coord car + Car.length car in
      slide_loop state i car
        (fun yCoord => cell board yCoord (Car.fix_coord car))
        (fun yCoord => yCoord - Car.length car + 1)
        (range varCoord (Board.size board)) neighbours
  end.

Definition addHorizontalNeighbours (state : State) (i : nat)
    (neighbours : list State) : result (list State) :=
  let board := State.board state in
  match nth_error (Board.cars board) i with
  | None => Raise IndexError
  | Some car =>
      let varCoord := Car.var_coord car in
      (* moving left *)
      neighbours <-
        slide_loop state i car
          (fun xCoord => cell board (Car.fix_coord car) xCoord)
          (fun xCoord => xCoord)
          (range_down (varCoord - 1)) neighbours ;;
      (* moving right *)
      let varCoord := Car.var_coord car + Car.length car in
      slide_loop state i car
        (fun xCoord => cell board (Car.fix_coord car) xCoord)
        (fun xCoord => xCoord - Car.length car + 1)
        (range varCoord (Board.size board)) neighbours
  end.

Fixpoint successors_loop (state : State) (idx : list nat)
    (neighbours : list State) : result (list State) :=
  match idx with
  | [] => Ok neighbours
  | i :: idx' =>
      match nth_error (Board.cars (State.board state)) i with
      | None => Raise IndexError
      | Some car =>
          neighbours' <-
            match Car.orientation car with
            | Horizontal => addHorizontalNeighbours state i neighbours
            | Vertical => addVerticalNeighbours state i neighbours
            end ;;
          successors_loop state idx' neighbours'
      end
  end.

Definition get_successors (state : State) : result (list State) :=
  let cars := Board.cars (State.board state) in
  successors_loop state (seq 0 (List.length cars)) [].

(** The states from [state] back to the root, following [parent]. *)
Fixpoint ancestors (state : State) : list State :=
  state :: match State.parent state with
           | None => []
           | Some p => ancestors p
           end.

Definition get_path (state : State) : list State := rev (ancestors state).

(** *** Frontier of informed search

    [heapq] is modelled by its contract: [heappush] adds an entry and
    [heappop] removes and returns a least entry.  Entries are pairs
    [((f, id, parent id), state)] compared on the key; the comparison of
    two states under equal keys belongs to [board.py], and the model
    returns the entry pushed first among those of least key. *)

Definition Key : Type := (Z * Z * Z)%type.
Definition Entry : Type := (Key * State)%type.

Definition key_lt (a b : Key) : bool :=
  let '(f1, i1, p1) := a in
  let '(f2, i2, p2) := b in
  (f1 <? f2) || ((f1 =? f2) && ((i1 <? i2) || ((i1 =? i2) && (p1 <? p2)))).

Definition heappush (frontier : list Entry) (e : Entry) : list Entry :=
  frontier ++ [e].

Fixpoint heappop (frontier : list Entry) : option (Entry * list Entry) :=
  match frontier with
  | [] => None
  | e :: rest =>
      match heappop rest with
      | None => Some (e, [])
      | Some (m, rest') =>
          if key_lt (fst m) (fst e) then Some (m, e :: rest')
          else Some (e, rest)
      end
  end.

(** [neighbour.parent.id] *)
Definition parent_id (s : State) : result Z :=
  match State.parent s with
  | Some p => Ok (State.id p)
  | None => Raise AttributeError
  end.

(** [for neighbour in neighbours: hq.heappush(frontier, (..., neighbour))] *)
Fixpoint push_all (frontier : list Entry) (neighbours : list State)
  : result (list Entry) :=
  match neighbours with
  | [] => Ok frontier
  | neighbour :: rest =>
      pid <- parent_id neighbour ;;
      push_all
        (heappush frontier
           ((State.f neighbour, State.id neighbour, pid), neighbour))
        rest
  end.

(** [any(s.id == state.id for s in explored)] *)
Definition is_explored (explored : list State) (state : State) : bool :=
  existsb (fun s => State.id s =? State.id state) explored.

Definition Solution : Type := (list State * Z)%type.

(** One test of the [while] condition of [a_star] and one run of its
    body. *)
Definition a_star_iter (frontier : list Entry) (explored : list State)
  : outcome (list Entry) Solution :=
  match heappop frontier with
  | None => Done (Ok ([], -1))
  | Some ((_, state), frontier) =>
      if negb (is_explored explored state) then
        let explored := explored ++ [state] in
        match is_goal state with
        | Raise e => Done (Raise e)
        | Ok true =>
            let path := get_path state in
            Done (Ok (path, Z.of_nat (List.length path) - 1))
        | Ok false =>
            match get_successors state with
            | Raise e => Done (Raise e)
            | Ok neighbours =>
                match push_all frontier neighbours with
                | Raise e => Done (Raise e)
                | Ok frontier => Next frontier explored
                end
            end
        end
      else Next frontier explored
  end.

(** The [while] loop of [a_star], cut off after [fuel] iterations. *)
Fixpoint a_star_loop (fuel : nat) (frontier : list Entry)
    (explored : list State) : option (result Solution) :=
  match fuel with
  | O => None
  | S fuel' =>
      match a_star_iter frontier explored with
      | Done r => Some r
      | Next frontier' explored' => a_star_loop fuel' frontier' explored'
      end
  end.

Definition a_star_init (init_board : Board) (hfn : Heuristic)
  : result (list Entry) :=
  let depth := 0 in
  h <- hfn init_board ;;
  let init_state := new_State init_board hfn h depth None in
  Ok (heappush [] ((State.f init_state, State.id init_state, 0), init_state)).

Definition a_star (fuel : nat) (init_board : Board) (hfn : Heuristic)
  : option (result Solution) :=
  match a_star_init init_board hfn with
  | Raise e => Some (Raise e)
  | Ok frontier => a_star_loop fuel frontier []
  end.

(** *** Depth-first search *)

(** [frontier.pop()] *)
Definition list_pop {A : Type} (l : list A) : option (A * list A) :=
  match rev l with
  | [] => None
  | x :: r => Some (x, rev r)
  end.

Fixpoint insert_desc (x : State) (l : list State) : list State :=
  match l with
  | [] => [x]
  | y :: l' =>
      if State.id x <? State.id y then y :: insert_desc x l' else x :: l
  end.

(** [neighbours.sort(key=lambda n: n.id, reverse=True)]: a stable sort,
    largest identity first. *)
Definition sort_desc (neighbours : list State) : list State :=
  fold_right insert_desc [] neighbours.

Definition dfs_iter (frontier : list State) (explored : list State)
  : outcome (list State) Solution :=
  match list_pop frontier with
  | None => Done (Ok ([], -1))
  | Some (state, frontier) =>
      if negb (is_explored explored state) then
        let explored := explored ++ [state] in
        match is_goal state with
        | Raise e => Done (Raise e)
        | Ok true =>
            let path := get_path state in
            Done (Ok (path, Z.of_nat (List.length path) - 1))
        | Ok false =>
            match get_successors state with
            | Raise e => Done (Raise e)
            | Ok neighbours =>
                Next (frontier ++ sort_desc neighbours) explored
            end
        end
      else Next frontier explored
  end.

Fixpoint dfs_loop (fuel : nat) (frontier : list State)
    (explored : list State) : option (result Solution) :=
  match fuel with
  | O => None
  | S fuel' =>
      match dfs_iter frontier explored with
      | Done r => Some r
      | Next frontier' explored' => dfs_loop fuel' frontier' explored'
      end
  end.

Definition dfs_init (init_board : Board) : list State :=
  let depth := 0 in
  [new_State init_board zero_heuristic 0 depth None].

Definition dfs (fuel : nat) (init_board : Board)
  : option (result Solution) :=
  dfs_loop fuel (dfs_init init_board) [].

(** *** Instrumented informed search *)

Definition Counted : Type := (list State * Z * Z)%type.

(** The loop of [a_star_node_expanded]; [count] is the local variable of
    that name. *)
Fixpoint a_star_node_expanded_loop (fuel : nat) (frontier : list Entry)
    (explored : list State) (count : Z) : option (result Counted) :=
  match fuel with
  | O => None
  | S fuel' =>
      match heappop frontier with
      | None => Some (Ok ([], -1, -1))
      | Some ((_, state), frontier) =>
          let count := count + 1 in
          if negb (is_explored explored state) then
            let explored := explored ++ [state] in
            match is_goal state with
            | Raise e => Some (Raise e)
            | Ok true =>
                let path := get_path state in
                Some (Ok (path, Z.of_nat (List.length path) - 1, count))
            | Ok false =>
                match get_successors state with
                | Raise e => Some (Raise e)
                | Ok neighbours =>
                    match push_all frontier neighbours with
                    | Raise e => Some (Raise e)
                    | Ok frontier =>
                        a_star_node_expanded_loop fuel' frontier explored count
                    end
                end
            end
          else a_star_node_expanded_loop fuel' frontier explored count
      end
  end.

Definition a_star_node_expanded (fuel : nat) (init_board : Board)
    (hfn : Heuristic) : option (result Counted) :=
  match a_star_init init_board hfn with
  | Raise e => Some (Raise e)
  | Ok frontier => a_star_node_expanded_loop fuel frontier [] 0
  end.

End Search.

End Solve.
Import Solve.

(** ** Reference definitions used in the statements *)

(** The grid is [size] rows of [size] cells. *)
Definition square (board : Board) : Prop :=
  Z.of_nat (List.length (Board.grid board)) = Board.size board /\
  Forall (fun row => Z.of_nat (List.length row) = Board.size board)
         (Board.grid board).

(** Number of non-free cells in a run of cells. *)
Definition occupied (cells : list ascii) : Z :=
  Z.of_nat (List.length (filter (fun c => neq c ".") cells)).

(** The marker at row [r], column [i], for positions inside the grid. *)
Definition glyph_at (board : Board) (r i : nat) : ascii :=
  nth i (nth r (Board.grid board) []) ".".

(** The first column right of column [j] whose exit-row cell is not free. *)
Definition first_blocker (board : Board) (j : nat) : option nat :=
  find (fun i => neq (glyph_at board 2 i) ".")
       (seq (S j) (Z.to_nat (Board.size board) - S j)).

Definition count_glyphs (p : ascii -> bool) (cells : list ascii) : Z :=
  Z.of_nat (List.length (filter p cells)).

(** The blocker at column [i] cannot leave the exit row upwards: it is the
    middle of a vertical vehicle, or its tail with a middle above, or its
    head with a middle below. *)
Definition upward_blocked (board : Board) (i : nat) : bool :=
  let c := glyph_at board 2 i in
  Ascii.eqb c "|"
  || (Ascii.eqb c "v" && Ascii.eqb (glyph_at board 1 i) "|")
  || (Ascii.eqb c "^" && Ascii.eqb (glyph_at board 3 i) "|").

(** The term [advanced_heuristic] adds for the blocker at column [i]. *)
Definition extra_term (board : Board) (i : nat) : Z :=
  let up :=
    if upward_blocked board i
    then Z.of_nat (List.length (Board.cars board)) + 1
    else count_glyphs top_glyph [glyph_at board 1 i; glyph_at board 0 i] in
  let down :=
    count_glyphs bot_glyph
      [glyph_at board 3 i; glyph_at board 4 i; glyph_at board 5 i] in
  Z.min up down.




(** The exit vehicle of a board: a horizontal vehicle of length 2 in the
    exit row. *)
Definition exit_vehicle (board : Board) (car : Car) : Prop :=
  In car (Board.cars board) /\
  Car.orientation car = Horizontal /\
  Car.fix_coord car = 2 /\
  Car.length car = 2.

(** The blocking value on a non-goal board as the specification words it:
    1 plus the number of cells of the exit row that are not free, strictly
    to the right of the last cell of the exit vehicle [car], the cell that
    shows its [">"]. *)
Definition blocking_as_specified (board : Board) (car : Car) : Z :=
  1 + Z.of_nat
        (List.length
           (filter (fun c => negb (Ascii.eqb c "."))
                   (skipn (Z.to_nat (Car.var_coord car + Car.length car))
                          (nth 2 (Board.grid board) [])))).

(** *** Slides *)

(** The marker of the grid at coordinate [k] of the lane of [car]: row
    [fix_coord] and column [k] for a horizontal vehicle, row [k] and column
    [fix_coord] for a vertical one; [None] outside the grid. *)
Definition lane (board : Board) (car : Car) (k : Z) : option ascii :=
  let '(r, c) :=
    match Car.orientation car with
    | Horizontal => (Car.fix_coord car, k)
    | Vertical => (k, Car.fix_coord car)
    end in
  if (r <? 0) || (c <? 0) then None
  else match nth_error (Board.grid board) (Z.to_nat r) with
       | Some row => nth_error row (Z.to_nat c)
       | None => None
       end.

(** [cars'] is the vehicle list [cars] with the [var_coord] of its entry
    [i], the vehicle [car], set to [v] and everything else as it was. *)
Definition moved (cars : list Car) (i : nat) (car : Car) (v : Z)
    (cars' : list Car) : Prop :=
  nth_error cars i = Some car /\
  List.length cars' = List.length cars /\
  nth_error cars' i
  = Some (Car.mk (Car.orientation car) (Car.fix_coord car) v (Car.length car)) /\
  forall k, k <> i -> nth_error cars' k = nth_error cars k.

(** The cell a slide of [car] tests at coordinate [k] of its moving axis. *)
Definition track (board : Board) (car : Car) (k : Z) : result ascii :=
  match Car.orientation car with
  | Horizontal => cell board (Car.fix_coord car) k
  | Vertical => cell board k (Car.fix_coord car)
  end.

Definition is_free (board : Board) (car : Car) (k : Z) : bool :=
  match track board car k with
  | Ok g => Ascii.eqb g "."
  | Raise _ => false
  end.

(** Cells before the vehicle, nearest first, that are free together with
    every cell between them and the vehicle. *)
Definition reach_before (board : Board) (car : Car) : list Z :=
  filter (fun c => forallb (is_free board car) (range c (Car.var_coord car)))
         (range_down (Car.var_coord car - 1)).

(** Cells past the vehicle, nearest first, that are free together with
    every cell between the vehicle and them. *)
Definition reach_after (board : Board) (car : Car) : list Z :=
  let past := Car.var_coord car + Car.length car in
  filter (fun c => forallb (is_free board car) (range past (c + 1)))
         (range past (Board.size board)).

(** The new [var_coord]s of [car], in the order the generator emits them. *)
Definition slides (board : Board) (car : Car) : list Z :=
  reach_before board car
  ++ map (fun c => c - Car.length car + 1) (reach_after board car).

(** The longest run of free cells at the head of [cells]. *)
Fixpoint free_prefix (free : Z -> bool) (cells : list Z) : list Z :=
  match cells with
  | [] => []
  | c :: cells' => if free c then c :: free_prefix free cells' else []
  end.

(** A move: the index of a vehicle, the vehicle, and its new [var_coord]. *)
Definition Move : Type := (nat * Car * Z)%type.

(** All moves on a board: for each vehicle in list order, its slides. *)
Definition moves (board : Board) : list Move :=
  let cars := Board.cars board in
  flat_map (fun i => match nth_error cars i with
                     | Some car => map (fun v => (i, car, v)) (slides board car)
                     | None => []
                     end)
           (seq 0 (List.length cars)).

(** The vehicle list after a move. *)
Definition move_cars (cars : list Car) (m : Move) : list Car :=
  let '(i, car, v) := m in list_set cars i (Car.set_coord car v).

(** Every vehicle lies inside the grid. *)
Definition in_bounds (size : Z) (car : Car) : Prop :=
  0 <= Car.fix_coord car < size /\
  0 <= Car.var_coord car /\
  1 <= Car.length car /\
  Car.var_coord car + Car.length car <= size.

(** The node that [addNeighbour] builds for move [m] of [state] when the
    heuristic returns [h] on the new board. *)
Definition successor (construct_grid : Z -> list Car -> Grid)
    (board_id : Board -> Z) (state : State) (m : Move) (h : Z) : State :=
  let board := State.board state in
  let newBoard :=
    new_Board construct_grid (Board.name board) (Board.size board)
              (move_cars (Board.cars board) m) in
  State.mk newBoard (State.hfn state) (h + (State.depth state + 1))
           (State.depth state + 1) (Some state) (board_id newBoard).

(** [s] is the node built for move [m] of [state]: the heuristic returns
    on the new board, and [s] is assembled from its value. *)
Definition is_successor (construct_grid : Z -> list Car -> Grid)
    (board_id : Board -> Z) (state : State) (m : Move) (s : State) : Prop :=
  let board := State.board state in
  exists h,
    State.hfn state
      (new_Board construct_grid (Board.name board) (Board.size board)
                 (move_cars (Board.cars board) m)) = Ok h /\
    s = successor construct_grid board_id state m h.

(** *** Search runs *)

Section SearchReference.

Variable construct_grid : Z -> list Car -> Grid.
Variable board_id : Board -> Z.

(** The boards that moves lead to from [b0]. *)
Inductive reachable (b0 : Board) : Board -> Prop :=
| reachable_init : reachable b0 b0
| reachable_move b m :
    reachable b0 b -> In m (moves b) ->
    reachable b0 (new_Board construct_grid (Board.name b) (Board.size b)
                            (move_cars (Board.cars b) m)).

(** The configurations a loop passes through: [iterates iter fr ex fr' ex']
    when some number of iterations lead from the frontier [fr] and the
    explored list [ex] to [fr'] and [ex']. *)
Inductive iterates {F R : Type} (iter : F -> list State -> outcome F R)
    (fr ex : _) : F -> list State -> Prop :=
| iterates_here : iterates iter fr ex fr ex
| iterates_next fr1 ex1 fr2 ex2 :
    iterates iter fr ex fr1 ex1 -> iter fr1 ex1 = Next fr2 ex2 ->
    iterates iter fr ex fr2 ex2.

(** The shape both search loops share: [pop] takes the next node off the
    frontier, [push] adds the successors of an expanded node. *)
Definition search_iter {F : Type} (pop : F -> option (State * F))
    (push : F -> list State -> result F)
    (frontier : F) (explored : list State) : outcome F Solution :=
  match pop frontier with
  | None => Done (Ok ([], -1))
  | Some (state, frontier) =>
      if negb (is_explored explored state) then
        let explored := explored ++ [state] in
        match is_goal state with
        | Raise e => Done (Raise e)
        | Ok true =>
            let path := get_path state in
            Done (Ok (path, Z.of_nat (List.length path) - 1))
        | Ok false =>
            match get_successors construct_grid board_id state with
            | Raise e => Done (Raise e)
            | Ok neighbours =>
                match push frontier neighbours with
                | Raise e => Done (Raise e)
                | Ok frontier => Next frontier explored
                end
            end
        end
      else Next frontier explored
  end.

Fixpoint search_loop {F : Type} (pop : F -> option (State * F))
    (push : F -> list State -> result F) (fuel : nat)
    (frontier : F) (explored : list State) : option (result Solution) :=
  match fuel with
  | O => None
  | S fuel' =>
      match search_iter pop push frontier explored with
      | Done r => Some r
      | Next frontier' explored' =>
          search_loop pop push fuel' frontier' explored'
      end
  end.

Definition heap_pop (frontier : list Entry) : option (State * list Entry) :=
  match heappop frontier with
  | Some ((_, state), frontier) => Some (state, frontier)
  | None => None
  end.

Definition stack_push (frontier neighbours : list State)
  : result (list State) :=
  Ok (frontier ++ sort_desc neighbours).

(** The number of nodes [a_star] pops from the frontier in a run that
    ends within [fuel] iterations. *)
Fixpoint a_star_pops (fuel : nat) (frontier : list Entry)
    (explored : list State) : option Z :=
  match fuel with
  | O => None
  | S fuel' =>
      match heappop frontier with
      | None => Some 0
      | Some _ =>
          match a_star_iter construct_grid board_id frontier explored with
          | Done _ => Some 1
          | Next frontier' explored' =>
              option_map Z.succ (a_star_pops fuel' frontier' explored')
          end
      end
  end.

(** The instrumented search as the specification words it: the path and
    cost of [a_star], and the number of nodes popped. *)
Definition counts_pops (init_board : Board) (hfn : Heuristic) : Prop :=
  forall fuel path cost count frontier,
    a_star_node_expanded construct_grid board_id fuel init_board hfn
    = Some (Ok (path, cost, count)) ->
    a_star_init board_id init_board hfn = Ok frontier ->
    a_star construct_grid board_id fuel init_board hfn
    = Some (Ok (path, cost)) /\
    a_star_pops fuel frontier [] = Some count.

End SearchReference.

(** [u] is not the identity of an explored node. *)
Definition unexplored (explored : list State) (u : Z) : bool :=
  negb (existsb (fun s => State.id s =? u) explored).

(** The result of the instrumented search without its count. *)
Definition drop_count (r : result Counted) : result Solution :=
  match r with
  | Ok (path, cost, _) => Ok (path, cost)
  | Raise e => Raise e
  end.

(** A node of a search from [b0] with heuristic [hfn]: its board is
    reachable, its heuristic is [hfn], its identity is that of its board. *)
Definition search_node (construct_grid : Z -> list Car -> Grid)
    (board_id : Board -> Z) (b0 : Board) (hfn : Heuristic) (s : State) : Prop :=
  reachable construct_grid b0 (State.board s) /\
  State.hfn s = hfn /\
  State.id s = board_id (State.board s).

(** Order of the siblings on the stack: larger identities first. *)
Definition desc (a b : State) : Prop := State.id b <= State.id a.

(** All vehicle lists that differ from [cars0] in the [var_coord]s only,
    each between 0 and [size]. *)
Fixpoint all_placements (size : Z) (cars0 : list Car) : list (list Car) :=
  match cars0 with
  | [] => [[]]
  | c :: cars0' =>
      flat_map (fun v => map (cons (Car.set_coord c v))
                             (all_placements size cars0'))
               (range 0 size)
  end.

(** [cars] is the vehicle list [cars0] with the vehicles moved, all inside
    the grid. *)
Definition fleet (size : Z) (cars0 cars : list Car) : Prop :=
  Forall2 (fun c0 c => c = Car.set_coord c0 (Car.var_coord c)) cars0 cars /\
  Forall (in_bounds size) cars.

(** The identities the nodes of a search from [b0] can have. *)
Definition universe (construct_grid : Z -> list Car -> Grid)
    (board_id : Board -> Z) (b0 : Board) : list Z :=
  board_id b0
  :: map (fun cars => board_id (new_Board construct_grid (Board.name b0)
                                          (Board.size b0) cars))
         (all_placements (Board.size b0) (Board.cars b0)).

(** ** Example boards *)

(** Modelled from the spec: the grid construction of [Board.__init__] is in
    [board.py].  The grid is [size] by [size], free cells are ["."], and a
    vehicle shows the markers [solve.py] tests: ["<"], ["-"], [">"] along a
    horizontal vehicle and ["^"], ["|"], ["v"] along a vertical one.  Used to
    instantiate [construct_grid] on the examples below. *)
Definition car_glyph (car : Car) (r c : Z) : option ascii :=
  let '(fixc, varc) :=
    match Car.orientation car with
    | Horizontal => (r, c)
    | Vertical => (c, r)
    end in
  if (fixc =? Car.fix_coord car)
     && (Car.var_coord car <=? varc)
     && (varc <? Car.var_coord car + Car.length car)
  then Some (match Car.orientation car with
             | Horizontal =>
                 if varc =? Car.var_coord car + Car.length car - 1 then ">"
                 else if varc =? Car.var_coord car then "<" else "-"
             | Vertical =>
                 if varc =? Car.var_coord car + Car.length car - 1 then "v"
                 else if varc =? Car.var_coord car then "^" else "|"
             end)
  else None.

Definition draw_cell (cars : list Car) (r c : Z) : ascii :=
  fold_left (fun g car => match car_glyph car r c with
                          | Some x => x
                          | None => g
                          end) cars ".".

Definition draw_grid (size : Z) (cars : list Car) : Grid :=
  map (fun r => map (fun c => draw_cell cars r c) (range 0 size)) (range 0 size).

(** Modelled from the spec: the identity of a node is derived from the grid
    contents only (the hashing itself is in [board.py]); here the cells read
    as one number in base 256. *)
Definition grid_code (board : Board) : Z :=
  fold_left (fun acc c => acc * 256 + Z.of_nat (nat_of_ascii c))
            (List.concat (Board.grid board)) 0.

Definition board_of (cars : list Car) : Board :=
  new_Board draw_grid EmptyString 6 cars.

Definition state_of (hfn : Heuristic) (board : Board) : State :=
  new_State grid_code board hfn 0 0 None.

(** The exit vehicle alone, at the left edge. *)
Definition jam_free : Board :=
  board_of [Car.mk Horizontal 2 0 2].

(** The exit vehicle at the exit. *)
Definition jam_solved : Board :=
  board_of [Car.mk Horizontal 2 4 2].

(** The exit vehicle behind a lorry on rows 2 to 4, with a vehicle under the
    lorry in the bottom row. *)
Definition jam_lorry : Board :=
  board_of [Car.mk Horizontal 2 0 2; Car.mk Vertical 3 2 3;
            Car.mk Horizontal 5 2 3].

(** The exit vehicle behind a vehicle five cells long that is pinned between
    the top edge and a vehicle in the bottom row. *)
Definition jam_pinned : Board :=
  board_of [Car.mk Horizontal 2 0 2; Car.mk Vertical 2 0 5;
            Car.mk Horizontal 5 2 2].

(** The exit row filled by the exit vehicle and a second vehicle: nothing on
    the board can move. *)
Definition jam_stuck : Board :=
  board_of [Car.mk Horizontal 2 0 2; Car.mk Horizontal 2 2 4].

(** A board without vehicles. *)
Definition jam_empty : Board := board_of [].

(** The exit vehicle one cell from the exit, with a vehicle three cells long
    behind it in the exit row. *)
Definition jam_queue : Board :=
  board_of [Car.mk Horizontal 2 3 2; Car.mk Horizontal 2 0 3].

(** [jam_pinned] under another name. *)
Definition jam_pinned_renamed : Board :=
  Board.mk "pinned" (Board.size jam_pinned) (Board.cars jam_pinned)
           (Board.grid jam_pinned).

Definition jam_free_state : State := state_of zero_heuristic jam_free.

Definition jam_free_successors : list State :=
  match get_successors draw_grid grid_code jam_free_state with
  | Ok l => l
  | Raise _ => []
  end.

Definition jam_free_first : State := hd jam_free_state jam_free_successors.

Definition jam_lorry_state : State := state_of zero_heuristic jam_lorry.

Definition jam_lorry_successors : list State :=
  match get_successors draw_grid grid_code jam_lorry_state with
  | Ok l => l
  | Raise _ => []
  end.

(** ** Paths of a search *)

(** Every element of [l] stands in [R] to the next one. *)
Fixpoint linked (R : State -> State -> Prop) (l : list State) : Prop :=
  match l with
  | a :: ((b :: _) as t) => R a b /\ linked R t
  | _ => True
  end.

(** [s] is the node that the generator builds for a move of [p]. *)
Definition step_of (construct_grid : Z -> list Car -> Grid)
    (board_id : Board -> Z) (p s : State) : Prop :=
  exists m,
    In m (moves (State.board p)) /\
    is_successor construct_grid board_id p m s.

(** The nodes a search from [root] can put on its frontier: [root], and the
    successors of such nodes that failed the goal test. *)
Inductive descends (construct_grid : Z -> list Car -> Grid)
    (board_id : Board -> Z) (root : State) : State -> Prop :=
| descends_root : descends construct_grid board_id root root
| descends_step p s :
    descends construct_grid board_id root p ->
    is_goal p = Ok false ->
    step_of construct_grid board_id p s ->
    descends construct_grid board_id root s.

(** What a search run returns when it returns a value: the empty path with
    cost -1, or the path from [root] to a node passing the goal test. *)
Definition sound_result (construct_grid : Z -> list Car -> Grid)
    (board_id : Board -> Z) (root : State) (r : Solution) : Prop :=
  let (path, cost) := r in
  (path = [] /\ cost = -1) \/
  (exists goal tail,
      path = get_path goal /\ path = root :: tail /\
      last path root = goal /\
      is_goal goal = Ok true /\
      Forall (fun p => is_goal p = Ok false) (removelast path) /\
      linked (step_of construct_grid board_id) path /\
      Forall (fun s => reachable construct_grid (State.board root)
                                 (State.board s)) path /\
      NoDup (map State.id path) /\
      cost = Z.of_nat (List.length path) - 1 /\
      cost = State.depth goal - State.depth root).

(** The board a move leads to. *)
Definition next_board (construct_grid : Z -> list Car -> Grid)
    (b : Board) (m : Move) : Board :=
  new_Board construct_grid (Board.name b) (Board.size b)
            (move_cars (Board.cars b) m).

(** Board [b] is accounted for: a node of the frontier carries it, or its
    identity is that of an explored node. *)
Definition covered (board_id : Board -> Z) (frontier explored : list State)
    (b : Board) : Prop :=
  (exists s, In s frontier /\ State.board s = b) \/
  (exists e, In e explored /\ State.id e = board_id b).

(** No two boards reachable from [b0] share an identity. *)
Definition distinct_ids (construct_grid : Z -> list Car -> Grid)
    (board_id : Board -> Z) (b0 : Board) : Prop :=
  forall b1 b2,
    reachable construct_grid b0 b1 -> reachable construct_grid b0 b2 ->
    board_id b1 = board_id b2 -> b1 = b2.

(** The boards that can be reached from [jam_free]: the exit vehicle at each
    of its five positions. *)
Definition jam_free_boards : list Board :=
  jam_free :: map (fun v => board_of [Car.mk Horizontal 2 v 2]) [1; 2; 3; 4].

(** A board of five rows: the exit vehicle and a vehicle across its row. *)
Definition jam_five : Board :=
  new_Board draw_grid EmptyString 5
    [Car.mk Horizontal 2 0 2; Car.mk Vertical 3 1 2].

(** The state of [jam_five] with the blocking heuristic. *)
Definition jam_five_state : State := state_of blocking_heuristic jam_five.

(** The result of informed search on [jam_free]. *)
Definition jam_free_solution : Solution :=
  match a_star draw_grid grid_code 5 jam_free blocking_heuristic with
  | Some (Ok r) => r
  | _ => ([], -1)
  end.

(** The last node of that result. *)
Definition jam_free_goal : State := last (fst jam_free_solution) jam_free_state.

(** The result of depth-first search on [jam_free]. *)
Definition jam_free_dfs_solution : Solution :=
  match dfs draw_grid grid_code 5 jam_free with
  | Some (Ok r) => r
  | _ => ([], -1)
  end.

(** * Proofs *)

(** ** Sequences *)

Lemma range_nil lo hi : hi <= lo -> range lo hi = [].
Proof.
  intros H. unfold range.
  replace (Z.to_nat (hi - lo)) with O by lia. reflexivity.
Qed.

Lemma range_cons lo hi : lo < hi -> range lo hi = lo :: range (lo + 1) hi.
Proof.
  intros H. unfold range.
  replace (Z.to_nat (hi - lo)) with (S (Z.to_nat (hi - (lo + 1)))) by lia.
  cbn [seq map]. f_equal; [lia|].
  rewrite <- seq_shift, map_map.
  apply map_ext. intros k. lia.
Qed.

Lemma range_seq a n :
  range (Z.of_nat a) (Z.of_nat (a + n)) = map Z.of_nat (seq a n).
Proof.
  revert a. induction n as [|n IH]; intros a.
  - apply range_nil. lia.
  - rewrite range_cons by lia. cbn [seq map]. f_equal.
    replace (Z.of_nat a + 1) with (Z.of_nat (S a)) by lia.
    replace (a + S n)%nat with (S a + n)%nat by lia.
    apply IH.
Qed.

Lemma in_range lo hi k : In k (range lo hi) <-> lo <= k < hi.
Proof.
  unfold range. rewrite in_map_iff. split.
  - intros (n & <- & Hn). apply in_seq in Hn. lia.
  - intros H. exists (Z.to_nat (k - lo)). split; [lia|].
    apply in_seq. lia.
Qed.

Lemma py_index_nat {A : Type} (l : list A) (k : nat) :
  py_index l (Z.of_nat k) =
  match nth_error l k with
  | Some x => Ok x
  | None => Raise IndexError
  end.
Proof.
  unfold py_index.
  destruct (Z.ltb_spec (Z.of_nat k) 0) as [H|H]; [lia|].
  destruct (Z.ltb_spec (Z.of_nat k) 0); [lia|].
  now rewrite Nat2Z.id.
Qed.

Lemma py_index_lit {A : Type} (l : list A) (k : nat) (z : Z) :
  z = Z.of_nat k ->
  py_index l z = match nth_error l k with
                 | Some x => Ok x
                 | None => Raise IndexError
                 end.
Proof. intros ->. apply py_index_nat. Qed.

Lemma skipn_nth_error {A : Type} (l : list A) (a : nat) (x : A) :
  nth_error l a = Some x -> skipn a l = x :: skipn (S a) l.
Proof.
  revert a. induction l as [|y l IH]; intros [|a] H; try discriminate.
  - now inversion H.
  - cbn in H. apply IH in H. exact H.
Qed.

Lemma index_of_lt x l j : index_of x l = Some j -> (j < List.length l)%nat.
Proof.
  revert j. induction l as [|c l IH]; intros j H; cbn in *; [discriminate|].
  destruct (Ascii.eqb c x).
  - inversion H. lia.
  - destruct (index_of x l); cbn in H; [|discriminate].
    inversion H. specialize (IH _ eq_refl). lia.
Qed.

(** ** Heuristics *)

Lemma blocking_loop_ge exitRow idx count n :
  blocking_loop exitRow idx count = Ok n -> count <= n.
Proof.
  revert count. induction idx as [|i idx IH]; intros count H; cbn in H.
  - inversion H. lia.
  - destruct (py_index exitRow i) as [c|e]; cbn in H; [|discriminate].
    apply IH in H. destruct (neq c "."); lia.
Qed.

Lemma occupied_cons c cells :
  occupied (c :: cells) = (if neq c "." then 1 else 0) + occupied cells.
Proof.
  unfold occupied. cbn [filter]. destruct (neq c "."); cbn [List.length]; lia.
Qed.

Lemma blocking_loop_run exitRow m : forall a count,
  (a + m)%nat = List.length exitRow ->
  blocking_loop exitRow (map Z.of_nat (seq a m)) count
  = Ok (count + occupied (skipn a exitRow)).
Proof.
  induction m as [|m IH]; intros a count H.
  - cbn. rewrite skipn_all2 by lia. unfold occupied. cbn. f_equal. lia.
  - cbn [seq map blocking_loop]. rewrite py_index_nat.
    destruct (nth_error exitRow a) as [x|] eqn:E.
    + cbn [bind]. rewrite IH by lia.
      rewrite (skipn_nth_error _ _ _ E), occupied_cons.
      f_equal. destruct (neq x "."); lia.
    + apply nth_error_None in E. lia.
Qed.

Lemma blocking_nongoal board exitRow j :
  exit_cells board = Ok false ->
  py_index (Board.grid board) 2 = Ok exitRow ->
  index_of ">" exitRow = Some j ->
  blocking_heuristic board
  = blocking_loop exitRow (range (Z.of_nat j + 1) (Board.size board)) 1.
Proof.
  intros Hg Hrow Hj. unfold blocking_heuristic, py_list_index.
  rewrite Hg. cbn [bind]. rewrite Hrow. cbn [bind]. rewrite Hj. reflexivity.
Qed.

Lemma blocking_value board exitRow j :
  exit_cells board = Ok false ->
  py_index (Board.grid board) 2 = Ok exitRow ->
  Z.of_nat (List.length exitRow) = Board.size board ->
  index_of ">" exitRow = Some j ->
  blocking_heuristic board = Ok (1 + occupied (skipn (S j) exitRow)).
Proof.
  intros Hg Hrow Hlen Hj.
  rewrite (blocking_nongoal _ _ _ Hg Hrow Hj).
  pose proof (index_of_lt _ _ _ Hj) as Hlt.
  replace (Z.of_nat j + 1) with (Z.of_nat (S j)) by lia.
  rewrite <- Hlen.
  replace (List.length exitRow)
    with (S j + (List.length exitRow - S j))%nat at 1 by lia.
  rewrite range_seq. apply blocking_loop_run. lia.
Qed.

(** C1.  [blocking_heuristic] departs from its specification on
    [jam_queue], a well-formed board: the exit vehicle lies at columns 3
    and 4 of the exit row, a vehicle three cells long lies behind it, and
    the one cell between the exit vehicle and the edge is free.  The board
    fails the goal test, and the specified value, 1 plus the cells that are
    not free right of the exit vehicle, is 1.  [blocking_heuristic] returns 3:
    [exitRow.index(">")] finds the [">"] of the vehicle behind, at column 2,
    and the two cells of the exit vehicle itself are counted as blockers.
    Informed search with this heuristic solves the board in one move, so the
    value returned is not a lower bound of the remaining cost. *)
Theorem blocking_heuristic_overcounts :
  let exit_car := Car.mk Horizontal 2 3 2 in
  Board.grid jam_queue
  = [["."; "."; "."; "."; "."; "."];
     ["."; "."; "."; "."; "."; "."];
     ["<"; "-"; ">"; "<"; ">"; "."];
     ["."; "."; "."; "."; "."; "."];
     ["."; "."; "."; "."; "."; "."];
     ["."; "."; "."; "."; "."; "."]] /\
  exit_vehicle jam_queue exit_car /\
  (forall car, exit_vehicle jam_queue car -> car = exit_car) /\
  Forall (in_bounds (Board.size jam_queue)) (Board.cars jam_queue) /\
  is_goal (state_of blocking_heuristic jam_queue) = Ok false /\
  blocking_as_specified jam_queue exit_car = 1 /\
  blocking_heuristic jam_queue = Ok 3 /\
  exists path,
    a_star draw_grid grid_code 2 jam_queue blocking_heuristic
    = Some (Ok (path, 1)).
Proof.
  cbv zeta. split; [reflexivity|]. split; [|split; [|split]].
  - split; [now left|]. repeat split.
  - intros car (Hin & _ & _ & Hlen).
    destruct Hin as [<-|[<-|[]]]; [reflexivity|discriminate Hlen].
  - repeat constructor; cbn; lia.
  - split; [reflexivity|]. split; [reflexivity|]. split; [reflexivity|].
    eexists. reflexivity.
Qed.

Lemma cell_glyph_nat board r i :
  square board ->
  Z.of_nat r < Board.size board -> Z.of_nat i < Board.size board ->
  cell board (Z.of_nat r) (Z.of_nat i) = Ok (glyph_at board r i).
Proof.
  intros [Hrows Hcols] Hr Hi. unfold cell, glyph_at.
  rewrite py_index_nat.
  rewrite (nth_error_nth' (Board.grid board) []) by lia. cbn [bind].
  rewrite py_index_nat.
  assert (Hlen : Z.of_nat (List.length (nth r (Board.grid board) []))
                 = Board.size board).
  { rewrite Forall_forall in Hcols. apply Hcols, nth_In. lia. }
  now rewrite (nth_error_nth' _ ".") by lia.
Qed.

Lemma cell_glyph board r i :
  square board ->
  0 <= r < Board.size board -> 0 <= i < Board.size board ->
  cell board r i = Ok (glyph_at board (Z.to_nat r) (Z.to_nat i)).
Proof.
  intros Hsq Hr Hi.
  rewrite <- (cell_glyph_nat board (Z.to_nat r) (Z.to_nat i)) by (assumption || lia).
  now rewrite !Z2Nat.id by lia.
Qed.

Lemma can_clear_up_glyph board i :
  square board -> 6 <= Board.size board ->
  (Z.of_nat i < Board.size board) ->
  can_clear_up board (Z.of_nat i) = Ok (negb (upward_blocked board i)).
Proof.
  intros Hsq H6 Hi. unfold can_clear_up, upward_blocked.
  rewrite !(cell_glyph board 2), !(cell_glyph board 1), !(cell_glyph board 3)
    by (assumption || lia).
  rewrite Nat2Z.id.
  change (Z.to_nat 1) with 1%nat. change (Z.to_nat 2) with 2%nat.
  change (Z.to_nat 3) with 3%nat.
  unfold neq. cbn [bind].
  destruct (Ascii.eqb (glyph_at board 2 i) "|"); cbn; [reflexivity|].
  destruct (Ascii.eqb (glyph_at board 2 i) "v"); cbn;
    destruct (Ascii.eqb (glyph_at board 1 i) "|"); cbn;
    destruct (Ascii.eqb (glyph_at board 2 i) "^"); cbn;
    destruct (Ascii.eqb (glyph_at board 3 i) "|"); reflexivity.
Qed.

Lemma count_glyphs_cons p c cells :
  count_glyphs p (c :: cells) = incr_if (p c) (count_glyphs p cells).
Proof.
  unfold count_glyphs, incr_if. cbn [filter].
  destruct (p c); cbn [List.length]; lia.
Qed.

Lemma count_glyphs_nonneg p cells : 0 <= count_glyphs p cells.
Proof. unfold count_glyphs. lia. Qed.

Lemma advanced_body_glyph board i n :
  square board -> 6 <= Board.size board ->
  (Z.of_nat i < Board.size board) ->
  advanced_body board (Z.of_nat i) n
  = Ok (if neq (glyph_at board 2 i) "."
        then Some (n + extra_term board i) else None).
Proof.
  intros Hsq H6 Hi. unfold advanced_body.
  rewrite can_clear_up_glyph by assumption.
  rewrite (cell_glyph board 0), (cell_glyph board 1), (cell_glyph board 2),
    (cell_glyph board 3), (cell_glyph board 4), (cell_glyph board 5)
    by (assumption || lia).
  rewrite Nat2Z.id.
  change (Z.to_nat 0) with 0%nat. change (Z.to_nat 1) with 1%nat.
  change (Z.to_nat 2) with 2%nat. change (Z.to_nat 3) with 3%nat.
  change (Z.to_nat 4) with 4%nat. change (Z.to_nat 5) with 5%nat.
  cbn [bind]. destruct (neq (glyph_at board 2 i) "."); [|reflexivity].
  cbn [bind]. unfold extra_term. rewrite !count_glyphs_cons.
  unfold count_glyphs at 1 2. cbn [filter List.length Z.of_nat].
  destruct (upward_blocked board i); cbn [negb bind]; unfold incr_if;
    repeat match goal with
           | |- context [top_glyph ?g] => destruct (top_glyph g)
           | |- context [bot_glyph ?g] => destruct (bot_glyph g)
           end; reflexivity.
Qed.

Lemma advanced_loop_glyph board n : forall l,
  square board -> 6 <= Board.size board ->
  Forall (fun i => Z.of_nat i < Board.size board) l ->
  advanced_loop board (map Z.of_nat l) n
  = Ok (n + match find (fun i => neq (glyph_at board 2 i) ".") l with
            | Some i => extra_term board i
            | None => 0
            end).
Proof.
  intros l Hsq H6. induction l as [|i l IH]; intros Hl.
  - cbn. f_equal. lia.
  - inversion Hl as [|? ? Hi Hl']; subst.
    cbn [map advanced_loop find].
    rewrite advanced_body_glyph by assumption. cbn [bind].
    destruct (neq (glyph_at board 2 i) "."); [reflexivity|].
    now apply IH.
Qed.

Lemma extra_term_nonneg board i : 0 <= extra_term board i.
Proof.
  unfold extra_term.
  pose proof (count_glyphs_nonneg top_glyph
                [glyph_at board 1 i; glyph_at board 0 i]).
  pose proof (count_glyphs_nonneg bot_glyph
                [glyph_at board 3 i; glyph_at board 4 i; glyph_at board 5 i]).
  destruct (upward_blocked board i); lia.
Qed.

Lemma incr_if_ge b n : n <= incr_if b n.
Proof. unfold incr_if. destruct b; lia. Qed.

Lemma advanced_body_ge board i n v :
  advanced_body board i n = Ok (Some v) -> n <= v.
Proof.
  unfold advanced_body. intros H.
  destruct (cell board 2 i) as [c|]; [|discriminate]. cbn [bind] in H.
  destruct (neq c "."); [|discriminate].
  destruct (can_clear_up board i) as [up|]; [|discriminate]. cbn [bind] in H.
  assert (Hup : forall u,
             (if up
              then r1 <- cell board 1 i ;; r0 <- cell board 0 i ;;
                   Ok (incr_if (top_glyph r0) (incr_if (top_glyph r1) 0))
              else Ok (Z.of_nat (List.length (Board.cars board)) + 1)) = Ok u ->
             0 <= u).
  { intros u Hu. destruct up.
    - destruct (cell board 1 i) as [r1|]; [|discriminate].
      destruct (cell board 0 i) as [r0|]; [|discriminate].
      cbn [bind] in Hu. inversion Hu.
      pose proof (incr_if_ge (top_glyph r0) (incr_if (top_glyph r1) 0)).
      pose proof (incr_if_ge (top_glyph r1) 0). lia.
    - inversion Hu. lia. }
  destruct (if up then _ else _) as [u|]; [|discriminate].
  specialize (Hup u eq_refl). cbn [bind] in H.
  destruct (cell board 3 i) as [r3|]; [|discriminate].
  destruct (cell board 4 i) as [r4|]; [|discriminate].
  destruct (cell board 5 i) as [r5|]; [|discriminate].
  cbn [bind] in H. inversion H.
  pose proof (incr_if_ge (bot_glyph r5)
                (incr_if (bot_glyph r4) (incr_if (bot_glyph r3) 0))).
  pose proof (incr_if_ge (bot_glyph r4) (incr_if (bot_glyph r3) 0)).
  pose proof (incr_if_ge (bot_glyph r3) 0). lia.
Qed.

Lemma advanced_loop_ge board idx n m :
  advanced_loop board idx n = Ok m -> n <= m.
Proof.
  induction idx as [|i idx IH]; cbn; intros H.
  - inversion H. lia.
  - destruct (advanced_body board i n) as [[v|]|] eqn:E; cbn [bind] in H;
      try discriminate.
    + inversion H. subst. now apply advanced_body_ge in E.
    + now apply IH.
Qed.

Lemma square_size b1 b2 :
  square b1 -> square b2 -> Board.grid b1 = Board.grid b2 ->
  Board.size b1 = Board.size b2.
Proof. intros [H1 _] [H2 _] E. rewrite <- H1, <- H2, E. reflexivity. Qed.

Lemma advanced_body_ext b1 b2 i n :
  Board.grid b1 = Board.grid b2 -> Board.cars b1 = Board.cars b2 ->
  advanced_body b1 i n = advanced_body b2 i n.
Proof.
  intros Eg Ec. unfold advanced_body, can_clear_up, cell.
  now rewrite Eg, Ec.
Qed.

Lemma advanced_loop_ext b1 b2 idx n :
  Board.grid b1 = Board.grid b2 -> Board.cars b1 = Board.cars b2 ->
  advanced_loop b1 idx n = advanced_loop b2 idx n.
Proof.
  intros Eg Ec. induction idx as [|i idx IH]; cbn; [reflexivity|].
  rewrite (advanced_body_ext b1 b2) by assumption.
  destruct (advanced_body b2 i n) as [[v|]|]; cbn [bind]; auto.
Qed.

(** C2.  Wherever both heuristics return a value, the advanced one is at
    least the blocking one; and the advanced heuristic depends on the board
    alone: two boards with the same grid and the same vehicle list get the
    same result. *)
Theorem advanced_ge_blocking :
  (forall board x y,
      blocking_heuristic board = Ok x -> advanced_heuristic board = Ok y ->
      x <= y) /\
  (forall b1 b2,
      square b1 -> square b2 ->
      Board.grid b1 = Board.grid b2 -> Board.cars b1 = Board.cars b2 ->
      advanced_heuristic b1 = advanced_heuristic b2).
Proof.
  split.
  - intros board x y Hx Hy. unfold advanced_heuristic in Hy.
    rewrite Hx in Hy. cbn [bind] in Hy.
    destruct (py_index (Board.grid board) 2) as [row|]; [|discriminate].
    cbn [bind] in Hy.
    destruct (py_list_index ">" row) as [j|]; [|discriminate].
    cbn [bind] in Hy. now apply advanced_loop_ge in Hy.
  - intros b1 b2 S1 S2 Eg Ec.
    pose proof (square_size _ _ S1 S2 Eg) as Es.
    assert (Eb : blocking_heuristic b1 = blocking_heuristic b2).
    { unfold blocking_heuristic, exit_cells, cell. now rewrite Eg, Es. }
    unfold advanced_heuristic. rewrite Eb, Eg, Es.
    destruct (blocking_heuristic b2) as [n|]; cbn [bind]; [|reflexivity].
    destruct (py_index (Board.grid b2) 2) as [row|]; cbn [bind]; [|reflexivity].
    destruct (py_list_index ">" row) as [j|]; cbn [bind]; [|reflexivity].
    now apply advanced_loop_ext.
Qed.

Lemma py_index_In {A : Type} (l : list A) (i : Z) (x : A) :
  py_index l i = Ok x -> In x l.
Proof.
  unfold py_index. intros H.
  destruct (_ <? 0); [discriminate|].
  destruct (nth_error l _) eqn:E; [|discriminate].
  inversion H; subst. eapply nth_error_In; eauto.
Qed.

Lemma exit_row_length board exitRow :
  square board -> py_index (Board.grid board) 2 = Ok exitRow ->
  Z.of_nat (List.length exitRow) = Board.size board.
Proof.
  intros [_ Hcols] H. apply py_index_In in H.
  rewrite Forall_forall in Hcols. now apply Hcols.
Qed.

Lemma advanced_unfold board exitRow j n :
  square board ->
  py_index (Board.grid board) 2 = Ok exitRow ->
  index_of ">" exitRow = Some j ->
  blocking_heuristic board = Ok n ->
  advanced_heuristic board
  = advanced_loop board
      (map Z.of_nat (seq (S j) (Z.to_nat (Board.size board) - S j))) n.
Proof.
  intros Hsq Hrow Hj Hn.
  pose proof (exit_row_length _ _ Hsq Hrow) as Hlen.
  pose proof (index_of_lt _ _ _ Hj) as Hlt.
  unfold advanced_heuristic, py_list_index.
  rewrite Hn, Hrow. cbn [bind]. rewrite Hj. cbn [bind].
  replace (Z.of_nat j + 1) with (Z.of_nat (S j)) by lia.
  replace (Board.size board)
    with (Z.of_nat (S j + (Z.to_nat (Board.size board) - S j))) at 1 by lia.
  now rewrite range_seq.
Qed.

Lemma columns_in_grid (size : Z) (j : nat) :
  Forall (fun i => Z.of_nat i < size) (seq (S j) (Z.to_nat size - S j)).
Proof. apply Forall_forall. intros i Hi. apply in_seq in Hi. lia. Qed.

Lemma exit_cells_total board :
  square board -> 6 <= Board.size board -> exists g, exit_cells board = Ok g.
Proof.
  intros Hsq H6. unfold exit_cells.
  rewrite (cell_glyph board 2 4), (cell_glyph board 2 5) by (assumption || lia).
  cbn [bind]. destruct (Ascii.eqb _ "<"); eauto.
Qed.



(** C10.  On a non-goal board whose exit row holds no [">"] both heuristics
    raise [ValueError]; on a square board of at least six rows whose exit
    row holds a [">"] both return a non-negative integer. *)
Theorem heuristics_need_exit_glyph board :
  (forall exitRow,
      exit_cells board = Ok false ->
      py_index (Board.grid board) 2 = Ok exitRow ->
      index_of ">" exitRow = None ->
      blocking_heuristic board = Raise ValueError /\
      advanced_heuristic board = Raise ValueError) /\
  (forall exitRow j,
      square board -> 6 <= Board.size board ->
      py_index (Board.grid board) 2 = Ok exitRow ->
      index_of ">" exitRow = Some j ->
      exists n m,
        blocking_heuristic board = Ok n /\ 0 <= n /\
        advanced_heuristic board = Ok m /\ 0 <= m).
Proof.
  split.
  - intros exitRow Hg Hrow Hnone.
    assert (Hb : blocking_heuristic board = Raise ValueError).
    { unfold blocking_heuristic, py_list_index.
      rewrite Hg. cbn [bind]. rewrite Hrow. cbn [bind]. now rewrite Hnone. }
    split; [exact Hb|]. unfold advanced_heuristic. now rewrite Hb.
  - intros exitRow j Hsq H6 Hrow Hj.
    assert (Hb : exists n, blocking_heuristic board = Ok n /\ 0 <= n).
    { destruct (exit_cells_total board Hsq H6) as [[|] Hg].
      - exists 0. split; [|lia]. unfold blocking_heuristic. now rewrite Hg.
      - eexists. split.
        + apply (blocking_value board exitRow j); try assumption.
          now apply exit_row_length.
        + unfold occupied. lia. }
    destruct Hb as (n & Hn & Hn0). exists n. eexists.
    split; [exact Hn|]. split; [exact Hn0|]. split.
    + rewrite (advanced_unfold board exitRow j n Hsq Hrow Hj Hn).
      apply advanced_loop_glyph; [exact Hsq|exact H6|apply columns_in_grid].
    + destruct (find _ _) as [i|]; [|lia].
      pose proof (extra_term_nonneg board i). lia.
Qed.

(** ** Successor generation *)

Lemma range_snoc lo hi : lo <= hi -> range lo (hi + 1) = range lo hi ++ [hi].
Proof.
  intros H. unfold range.
  replace (Z.to_nat (hi + 1 - lo)) with (S (Z.to_nat (hi - lo))) by lia.
  rewrite seq_S, map_app. cbn [map]. do 2 f_equal. lia.
Qed.

Lemma range_down_nil h : h < 0 -> range_down h = [].
Proof. intros H. unfold range_down. rewrite range_nil by lia. reflexivity. Qed.

Lemma range_down_cons h : 0 <= h -> range_down h = h :: range_down (h - 1).
Proof.
  intros H. unfold range_down. rewrite range_snoc by lia.
  rewrite rev_app_distr. replace (h - 1 + 1) with h by lia. reflexivity.
Qed.

Lemma in_range_down h k : In k (range_down h) <-> 0 <= k <= h.
Proof.
  unfold range_down. rewrite <- in_rev. rewrite in_range. split; lia.
Qed.

Lemma filter_none {A : Type} (p : A -> bool) (l : list A) :
  (forall x, In x l -> p x = false) -> filter p l = [].
Proof.
  induction l as [|x l IH]; intros H; cbn; [reflexivity|].
  rewrite (H x) by now left. apply IH. intros y Hy. apply H. now right.
Qed.

Lemma forallb_range_split free lo mid hi :
  lo <= mid < hi -> free mid = false -> forallb free (range lo hi) = false.
Proof.
  intros H Hf. destruct (forallb free (range lo hi)) eqn:E; [|reflexivity].
  rewrite forallb_forall in E. rewrite <- Hf. symmetry. apply E, in_range. lia.
Qed.

Lemma free_prefix_before free var : forall n h,
  n = Z.to_nat (h + 1) -> h < var ->
  forallb free (range (h + 1) var) = true ->
  filter (fun c => forallb free (range c var)) (range_down h)
  = free_prefix free (range_down h).
Proof.
  induction n as [|n IH]; intros h Hn Hh Hall.
  - rewrite range_down_nil by lia. reflexivity.
  - rewrite range_down_cons by lia. cbn [filter free_prefix].
    rewrite (range_cons h var) by lia. cbn [forallb]. rewrite Hall.
    rewrite andb_true_r. destruct (free h) eqn:Hf.
    + f_equal. apply IH; [lia|lia|].
      replace (h - 1 + 1) with h by lia.
      rewrite (range_cons h var) by lia. cbn [forallb]. now rewrite Hf, Hall.
    + apply filter_none. intros c Hc. apply in_range_down in Hc.
      apply (forallb_range_split free c h var); [lia|assumption].
Qed.

Lemma free_prefix_after free past size : forall n lo,
  n = Z.to_nat (size - lo) -> past <= lo ->
  forallb free (range past lo) = true ->
  filter (fun c => forallb free (range past (c + 1))) (range lo size)
  = free_prefix free (range lo size).
Proof.
  induction n as [|n IH]; intros lo Hn Hlo Hall.
  - rewrite range_nil by lia. reflexivity.
  - rewrite (range_cons lo size) by lia. cbn [filter free_prefix].
    rewrite (range_snoc past lo) by lia.
    rewrite forallb_app, Hall. cbn [forallb andb]. rewrite andb_true_r.
    destruct (free lo) eqn:Hf.
    + f_equal. apply IH; [lia|lia|].
      rewrite (range_snoc past lo) by lia.
      rewrite forallb_app, Hall. cbn. now rewrite Hf.
    + apply filter_none. intros c Hc. apply in_range in Hc.
      apply (forallb_range_split free past lo (c + 1)); [lia|assumption].
Qed.

Lemma reach_before_prefix board car :
  reach_before board car
  = free_prefix (is_free board car) (range_down (Car.var_coord car - 1)).
Proof.
  unfold reach_before.
  apply (free_prefix_before _ _ (Z.to_nat (Car.var_coord car - 1 + 1)));
    [reflexivity|lia|].
  rewrite range_nil by lia. reflexivity.
Qed.

Lemma reach_after_prefix board car :
  reach_after board car
  = free_prefix (is_free board car)
      (range (Car.var_coord car + Car.length car) (Board.size board)).
Proof.
  unfold reach_after.
  apply (free_prefix_after _ _ _
           (Z.to_nat (Board.size board - (Car.var_coord car + Car.length car))));
    [reflexivity|lia|].
  rewrite range_nil by lia. reflexivity.
Qed.

Lemma in_slides board car v :
  In v (slides board car) <->
  (0 <= v < Car.var_coord car /\
   forall k, v <= k < Car.var_coord car -> is_free board car k = true) \/
  (Car.var_coord car < v /\ v + Car.length car <= Board.size board /\
   forall k, Car.var_coord car + Car.length car <= k < v + Car.length car ->
             is_free board car k = true).
Proof.
  unfold slides, reach_before, reach_after.
  rewrite in_app_iff, in_map_iff, filter_In, in_range_down, forallb_forall.
  split.
  - intros [[Hv Hfree]|(c & <- & Hc)].
    + left. split; [lia|]. intros k Hk. apply Hfree, in_range. lia.
    + right. apply filter_In in Hc. destruct Hc as [Hc Hfree].
      apply in_range in Hc. rewrite forallb_forall in Hfree.
      split; [lia|]. split; [lia|].
      intros k Hk. apply Hfree, in_range. lia.
  - intros [[Hv Hfree]|(Hv & Hsz & Hfree)].
    + left. split; [lia|]. intros k Hk. apply in_range in Hk. now apply Hfree.
    + right. exists (v + Car.length car - 1). split; [lia|].
      apply filter_In. split; [apply in_range; lia|].
      apply forallb_forall. intros k Hk. apply in_range in Hk.
      apply Hfree. lia.
Qed.

Lemma in_moves board i car v :
  In (i, car, v) (moves board) <->
  nth_error (Board.cars board) i = Some car /\ In v (slides board car).
Proof.
  unfold moves. rewrite in_flat_map. split.
  - intros (i' & Hi' & Hin).
    destruct (nth_error (Board.cars board) i') as [car'|] eqn:E; [|destruct Hin].
    apply in_map_iff in Hin. destruct Hin as (v' & Heq & Hv').
    inversion Heq; subst. now split.
  - intros [Hnth Hv]. exists i. split.
    + apply in_seq. split; [lia|]. cbn.
      apply nth_error_Some. now rewrite Hnth.
    + rewrite Hnth. apply in_map_iff. now exists v.
Qed.

Section Successors.

Variable construct_grid : Z -> list Car -> Grid.
Variable board_id : Board -> Z.

Local Abbreviation new_Board := (new_Board construct_grid).
Local Abbreviation addNeighbour := (addNeighbour construct_grid board_id).
Local Abbreviation slide_loop := (slide_loop construct_grid board_id).
Local Abbreviation addVerticalNeighbours :=
  (addVerticalNeighbours construct_grid board_id).
Local Abbreviation addHorizontalNeighbours :=
  (addHorizontalNeighbours construct_grid board_id).
Local Abbreviation successors_loop := (successors_loop construct_grid board_id).
Local Abbreviation get_successors := (get_successors construct_grid board_id).
Local Abbreviation is_successor := (is_successor construct_grid board_id).
Local Abbreviation successor := (successor construct_grid board_id).

Lemma addNeighbour_ok state i car v acc l :
  addNeighbour state
    (list_set (Board.cars (State.board state)) i (Car.set_coord car v)) acc
  = Ok l ->
  exists s, l = acc ++ [s] /\ is_successor state (i, car, v) s.
Proof.
  unfold Solve.addNeighbour. cbn [State.hfn new_State].
  intros H.
  destruct (State.hfn state _) as [h|] eqn:Eh; [|discriminate].
  cbn [bind] in H. inversion H; subst.
  eexists. split; [reflexivity|]. exists h. split; [exact Eh|reflexivity].
Qed.

Lemma slide_loop_moves state i car look coord free : forall cells acc l,
  (forall c, free c = match look c with
                      | Ok g => Ascii.eqb g "."
                      | Raise _ => false
                      end) ->
  slide_loop state i car look coord cells acc = Ok l ->
  exists new,
    l = acc ++ new /\
    Forall2 (is_successor state)
            (map (fun c => (i, car, coord c)) (free_prefix free cells)) new.
Proof.
  induction cells as [|c cells IH]; intros acc l Hfree H; cbn in H.
  - inversion H; subst. exists []. split; [now rewrite app_nil_r|constructor].
  - cbn [free_prefix]. rewrite (Hfree c).
    destruct (look c) as [g|]; [|discriminate]. cbn [bind] in H.
    destruct (Ascii.eqb g ".").
    + destruct (addNeighbour state _ acc) as [acc'|] eqn:Ea; [|discriminate].
      cbn [bind] in H.
      apply addNeighbour_ok in Ea. destruct Ea as (s & -> & Hs).
      destruct (IH _ _ Hfree H) as (new & -> & Hnew).
      exists (s :: new). split; [now rewrite <- app_assoc|].
      cbn [map]. now constructor.
    + inversion H; subst. exists []. split; [now rewrite app_nil_r|constructor].
Qed.

Lemma slides_moves state i car acc mid l before after :
  Forall2 (is_successor state)
    (map (fun c => (i, car, c))
         (free_prefix (is_free (State.board state) car)
                      (range_down (Car.var_coord car - 1)))) before ->
  Forall2 (is_successor state)
    (map (fun c => (i, car, c - Car.length car + 1))
         (free_prefix (is_free (State.board state) car)
            (range (Car.var_coord car + Car.length car)
                   (Board.size (State.board state))))) after ->
  mid = acc ++ before -> l = mid ++ after ->
  exists new,
    l = acc ++ new /\
    Forall2 (is_successor state)
            (map (fun v => (i, car, v)) (slides (State.board state) car)) new.
Proof.
  intros Hb Ha -> ->. exists (before ++ after).
  split; [now rewrite app_assoc|].
  unfold slides. rewrite reach_before_prefix, reach_after_prefix.
  rewrite map_app, map_map. now apply Forall2_app.
Qed.

Lemma addHorizontalNeighbours_moves state i car acc l :
  nth_error (Board.cars (State.board state)) i = Some car ->
  Car.orientation car = Horizontal ->
  addHorizontalNeighbours state i acc = Ok l ->
  exists new,
    l = acc ++ new /\
    Forall2 (is_successor state)
            (map (fun v => (i, car, v)) (slides (State.board state) car)) new.
Proof.
  intros Hnth Ho H. unfold addHorizontalNeighbours in H. rewrite Hnth in H.
  assert (Hfree : forall c,
             is_free (State.board state) car c
             = match cell (State.board state) (Car.fix_coord car) c with
               | Ok g => Ascii.eqb g "."
               | Raise _ => false
               end).
  { intros c. unfold is_free, track. now rewrite Ho. }
  destruct (slide_loop state i car _ _ (range_down _) acc) as [mid|] eqn:E1;
    [|discriminate].
  cbn [bind] in H.
  destruct (slide_loop_moves _ _ _ _ _ _ _ _ _ Hfree E1) as (before & Hm & Hb).
  destruct (slide_loop_moves _ _ _ _ _ _ _ _ _ Hfree H) as (after & Hl & Ha).
  eapply slides_moves; eauto.
Qed.

Lemma addVerticalNeighbours_moves state i car acc l :
  nth_error (Board.cars (State.board state)) i = Some car ->
  Car.orientation car = Vertical ->
  addVerticalNeighbours state i acc = Ok l ->
  exists new,
    l = acc ++ new /\
    Forall2 (is_successor state)
            (map (fun v => (i, car, v)) (slides (State.board state) car)) new.
Proof.
  intros Hnth Ho H. unfold addVerticalNeighbours in H. rewrite Hnth in H.
  assert (Hfree : forall c,
             is_free (State.board state) car c
             = match cell (State.board state) c (Car.fix_coord car) with
               | Ok g => Ascii.eqb g "."
               | Raise _ => false
               end).
  { intros c. unfold is_free, track. now rewrite Ho. }
  destruct (slide_loop state i car _ _ (range_down _) acc) as [mid|] eqn:E1;
    [|discriminate].
  cbn [bind] in H.
  destruct (slide_loop_moves _ _ _ _ _ _ _ _ _ Hfree E1) as (before & Hm & Hb).
  destruct (slide_loop_moves _ _ _ _ _ _ _ _ _ Hfree H) as (after & Hl & Ha).
  eapply slides_moves; eauto.
Qed.

Lemma successors_loop_moves state : forall idx acc l,
  successors_loop state idx acc = Ok l ->
  exists new,
    l = acc ++ new /\
    Forall2 (is_successor state)
      (flat_map
         (fun i => match nth_error (Board.cars (State.board state)) i with
                   | Some car =>
                       map (fun v => (i, car, v))
                           (slides (State.board state) car)
                   | None => []
                   end) idx) new.
Proof.
  induction idx as [|i idx IH]; intros acc l H; cbn in H.
  - inversion H; subst. exists []. split; [now rewrite app_nil_r|constructor].
  - cbn [flat_map].
    destruct (nth_error (Board.cars (State.board state)) i) as [car|] eqn:Hnth;
      [|discriminate].
    assert (Hstep : exists mid new1,
               successors_loop state idx mid = Ok l /\ mid = acc ++ new1 /\
               Forall2 (is_successor state)
                 (map (fun v => (i, car, v)) (slides (State.board state) car))
                 new1).
    { destruct (Car.orientation car) eqn:Ho.
      - destruct (addHorizontalNeighbours state i acc) as [mid|] eqn:E;
          [|discriminate].
        cbn [bind] in H.
        destruct (addHorizontalNeighbours_moves _ _ _ _ _ Hnth Ho E)
          as (new1 & Hm & H1).
        now exists mid, new1.
      - destruct (addVerticalNeighbours state i acc) as [mid|] eqn:E;
          [|discriminate].
        cbn [bind] in H.
        destruct (addVerticalNeighbours_moves _ _ _ _ _ Hnth Ho E)
          as (new1 & Hm & H1).
        now exists mid, new1. }
    destruct Hstep as (mid & new1 & Hrest & -> & H1).
    destruct (IH _ _ Hrest) as (new2 & -> & H2).
    exists (new1 ++ new2). split; [now rewrite app_assoc|].
    now apply Forall2_app.
Qed.

Lemma get_successors_moves state l :
  get_successors state = Ok l ->
  Forall2 (is_successor state) (moves (State.board state)) l.
Proof.
  intros H. unfold Solve.get_successors in H.
  apply successors_loop_moves in H. destruct H as (new & -> & H).
  exact H.
Qed.

Lemma slide_loop_total state i car look coord free : forall cells acc,
  (forall c, free c = match look c with
                      | Ok g => Ascii.eqb g "."
                      | Raise _ => false
                      end) ->
  (forall c, In c cells -> exists g, look c = Ok g) ->
  (forall c, In c (free_prefix free cells) ->
             exists h,
               State.hfn state
                 (new_Board (Board.name (State.board state))
                    (Board.size (State.board state))
                    (move_cars (Board.cars (State.board state))
                               (i, car, coord c))) = Ok h) ->
  exists l, slide_loop state i car look coord cells acc = Ok l.
Proof.
  induction cells as [|c cells IH]; intros acc Hfree Hlook Hh; cbn.
  - eauto.
  - destruct (Hlook c (or_introl eq_refl)) as [g Hg].
    cbn [free_prefix] in Hh. rewrite (Hfree c), Hg in Hh.
    rewrite Hg. cbn [bind]. destruct (Ascii.eqb g "."); [|eauto].
    destruct (Hh c (or_introl eq_refl)) as [h Hc].
    unfold Solve.addNeighbour. cbn [State.hfn new_State].
    cbn [move_cars] in Hc. rewrite Hc. cbn [bind].
    apply IH; [assumption| |].
    + intros c' Hc'. apply Hlook. now right.
    + intros c' Hc'. apply Hh. now right.
Qed.

Lemma track_total board car k :
  square board -> in_bounds (Board.size board) car ->
  0 <= k < Board.size board ->
  exists g, track board car k = Ok g.
Proof.
  intros Hsq (Hfix & _) Hk. unfold track.
  destruct (Car.orientation car); rewrite cell_glyph by assumption; eauto.
Qed.

Lemma slides_total state i car acc :
  let board := State.board state in
  square board -> in_bounds (Board.size board) car ->
  nth_error (Board.cars board) i = Some car ->
  (forall m, In m (moves board) ->
             exists h,
               State.hfn state
                 (new_Board (Board.name board) (Board.size board)
                            (move_cars (Board.cars board) m)) = Ok h) ->
  exists l,
    (mid <-
       slide_loop state i car (track board car) (fun c => c)
                  (range_down (Car.var_coord car - 1)) acc ;;
     slide_loop state i car (track board car)
                (fun c => c - Car.length car + 1)
                (range (Car.var_coord car + Car.length car)
                       (Board.size board)) mid) = Ok l.
Proof.
  intros board Hsq Hin Hnth Hh.
  assert (Hfree : forall c,
             is_free board car c = match track board car c with
                                   | Ok g => Ascii.eqb g "."
                                   | Raise _ => false
                                   end) by reflexivity.
  pose proof Hin as (Hfix & Hvar & Hlen & Hend).
  destruct (slide_loop_total state i car (track board car) (fun c => c)
              (is_free board car) (range_down (Car.var_coord car - 1)) acc
              Hfree) as [mid Hmid].
  - intros c Hc. apply in_range_down in Hc.
    apply track_total; [assumption|assumption|lia].
  - intros c Hc. apply Hh, in_moves. split; [assumption|].
    unfold slides. rewrite reach_before_prefix. apply in_or_app. now left.
  - rewrite Hmid. cbn [bind].
    apply (slide_loop_total state i car (track board car) _
             (is_free board car)); [assumption| |].
    + intros c Hc. apply in_range in Hc.
      apply track_total; [assumption|assumption|lia].
    + intros c Hc. apply Hh, in_moves. split; [assumption|].
      unfold slides. rewrite reach_after_prefix. apply in_or_app. right.
      apply in_map_iff. now exists c.
Qed.

Lemma successors_loop_total state : forall idx acc,
  let board := State.board state in
  square board -> Forall (in_bounds (Board.size board)) (Board.cars board) ->
  (forall m, In m (moves board) ->
             exists h,
               State.hfn state
                 (new_Board (Board.name board) (Board.size board)
                            (move_cars (Board.cars board) m)) = Ok h) ->
  Forall (fun i => (i < List.length (Board.cars board))%nat) idx ->
  exists l, successors_loop state idx acc = Ok l.
Proof.
  induction idx as [|i idx IH]; intros acc board Hsq Hin Hh Hidx; cbn.
  - eauto.
  - inversion Hidx as [|? ? Hi Hidx']; subst.
    destruct (nth_error (Board.cars (State.board state)) i) as [car|] eqn:Hnth.
    2:{ apply nth_error_None in Hnth. fold board in Hnth. lia. }
    assert (Hcar : in_bounds (Board.size board) car).
    { rewrite Forall_forall in Hin. eapply Hin, nth_error_In, Hnth. }
    destruct (slides_total state i car acc Hsq Hcar Hnth Hh) as [mid Hmid].
    assert (Hstep :
              match Car.orientation car with
              | Horizontal => addHorizontalNeighbours state i acc
              | Vertical => addVerticalNeighbours state i acc
              end = Ok mid).
    { unfold Solve.addHorizontalNeighbours, Solve.addVerticalNeighbours.
      rewrite Hnth. rewrite <- Hmid. unfold track.
      destruct (Car.orientation car); reflexivity. }
    rewrite Hstep. cbn [bind]. now apply IH.
Qed.

Lemma get_successors_total state :
  let board := State.board state in
  square board -> Forall (in_bounds (Board.size board)) (Board.cars board) ->
  (forall m, In m (moves board) ->
             exists h,
               State.hfn state
                 (new_Board (Board.name board) (Board.size board)
                            (move_cars (Board.cars board) m)) = Ok h) ->
  exists l, get_successors state = Ok l.
Proof.
  intros board Hsq Hin Hh. unfold Solve.get_successors.
  apply successors_loop_total; try assumption.
  apply Forall_forall. intros i Hi. apply in_seq in Hi. lia.
Qed.

Lemma Forall2_In_r {A B : Type} (R : A -> B -> Prop) l1 l2 y :
  Forall2 R l1 l2 -> In y l2 -> exists x, In x l1 /\ R x y.
Proof.
  induction 1 as [|a b l1 l2 Hab _ IH]; cbn; [tauto|].
  intros [<-|Hy].
  - exists a. auto.
  - destruct (IH Hy) as (x & Hx & HR). exists x. auto.
Qed.

Lemma NoDup_range lo hi : NoDup (range lo hi).
Proof.
  remember (Z.to_nat (hi - lo)) as n eqn:Hn. revert lo Hn.
  induction n as [|n IH]; intros lo Hn.
  - rewrite range_nil by lia. constructor.
  - rewrite range_cons by lia. constructor.
    + rewrite in_range. lia.
    + apply IH. lia.
Qed.

Lemma NoDup_map_inj {A B : Type} (f : A -> B) (l : list A) :
  (forall x y, f x = f y -> x = y) -> NoDup l -> NoDup (map f l).
Proof.
  intros Hinj. induction 1 as [|a l Ha _ IH]; cbn; constructor; [|exact IH].
  rewrite in_map_iff. intros (x & Hx & Hin). apply Hinj in Hx. now subst.
Qed.

Lemma NoDup_flat_map {A B : Type} (f : A -> list B) (l : list A) :
  NoDup l -> (forall a, NoDup (f a)) ->
  (forall a b x, In x (f a) -> In x (f b) -> a = b) ->
  NoDup (flat_map f l).
Proof.
  intros Hl Hf Hdisj. induction Hl as [|a l Ha _ IH]; cbn; [constructor|].
  apply NoDup_app; [apply Hf|exact IH|].
  intros x Hx Hx'. apply in_flat_map in Hx'. destruct Hx' as (b & Hb & Hxb).
  rewrite (Hdisj a b x Hx Hxb) in Ha. contradiction.
Qed.

Lemma NoDup_slides board car : NoDup (slides board car).
Proof.
  unfold slides. apply NoDup_app.
  - apply NoDup_filter, NoDup_rev, NoDup_range.
  - apply NoDup_map_inj; [intros x y; lia|].
    apply NoDup_filter, NoDup_range.
  - intros v Hb Ha.
    assert (H1 : In v (slides board car)) by (apply in_or_app; now left).
    unfold reach_before in Hb. apply filter_In in Hb. destruct Hb as [Hb _].
    apply in_range_down in Hb.
    apply in_map_iff in Ha. destruct Ha as (c & <- & Hc).
    unfold reach_after in Hc. apply filter_In in Hc. destruct Hc as [Hc _].
    apply in_range in Hc. lia.
Qed.

Lemma NoDup_moves board : NoDup (moves board).
Proof.
  unfold moves. apply NoDup_flat_map.
  - apply seq_NoDup.
  - intros i. destruct (nth_error (Board.cars board) i); [|constructor].
    apply NoDup_map_inj; [|apply NoDup_slides].
    intros x y H. now inversion H.
  - intros a b [[i car] v] Ha Hb.
    destruct (nth_error (Board.cars board) a); [|destruct Ha].
    destruct (nth_error (Board.cars board) b); [|destruct Hb].
    apply in_map_iff in Ha. destruct Ha as (? & Ha & _).
    apply in_map_iff in Hb. destruct Hb as (? & Hb & _).
    inversion Ha. inversion Hb. congruence.
Qed.

Lemma successor_cars state m s :
  is_successor state m s ->
  Board.cars (State.board s) = move_cars (Board.cars (State.board state)) m.
Proof. intros (h & _ & ->). reflexivity. Qed.

Lemma nth_error_list_set_eq {A : Type} (l : list A) i x :
  (i < List.length l)%nat -> nth_error (list_set l i x) i = Some x.
Proof.
  revert i. induction l as [|a l IH]; intros [|i] H; cbn in *;
    try lia; [reflexivity|]. apply IH. lia.
Qed.

Lemma nth_error_list_set_ne {A : Type} (l : list A) i k x :
  k <> i -> nth_error (list_set l i x) k = nth_error l k.
Proof.
  revert i k. induction l as [|a l IH]; intros [|i] [|k] H; cbn;
    try reflexivity; try congruence. apply IH. congruence.
Qed.

Lemma length_list_set {A : Type} (l : list A) i x :
  List.length (list_set l i x) = List.length l.
Proof.
  revert i. induction l as [|a l IH]; intros [|i]; cbn; auto.
Qed.

Lemma moved_list_set cars i car v :
  nth_error cars i = Some car ->
  moved cars i car v (list_set cars i (Car.set_coord car v)).
Proof.
  intros Hnth.
  assert (Hi : (i < List.length cars)%nat).
  { apply nth_error_Some. now rewrite Hnth. }
  split; [exact Hnth|]. split; [apply length_list_set|]. split.
  - now apply nth_error_list_set_eq.
  - intros k Hk. now apply nth_error_list_set_ne.
Qed.

Lemma is_free_lane board car k :
  0 <= Car.fix_coord car -> 0 <= k ->
  is_free board car k = true <-> lane board car k = Some ".".
Proof.
  intros Hfix Hk. unfold is_free, track, lane, cell.
  assert (Hread : forall r c, 0 <= r -> 0 <= c ->
            match (row <- py_index (Board.grid board) r ;; py_index row c) with
            | Ok g => Ascii.eqb g "."
            | Raise _ => false
            end = true <->
            (if (r <? 0) || (c <? 0) then None
             else match nth_error (Board.grid board) (Z.to_nat r) with
                  | Some row => nth_error row (Z.to_nat c)
                  | None => None
                  end) = Some ".").
  { intros r c Hr Hc.
    destruct (Z.ltb_spec r 0); [lia|]. destruct (Z.ltb_spec c 0); [lia|].
    cbn [orb]. rewrite (py_index_lit _ (Z.to_nat r)) by lia.
    destruct (nth_error (Board.grid board) (Z.to_nat r)) as [row|];
      cbn [bind]; [|split; discriminate].
    rewrite (py_index_lit _ (Z.to_nat c)) by lia.
    destruct (nth_error row (Z.to_nat c)) as [g|]; [|split; discriminate].
    rewrite Ascii.eqb_eq. split; congruence. }
  destruct (Car.orientation car); now apply Hread.
Qed.

Lemma Forall2_impl_In {A B : Type} (R R' : A -> B -> Prop) l1 l2 :
  (forall a b, In a l1 -> R a b -> R' a b) ->
  Forall2 R l1 l2 -> Forall2 R' l1 l2.
Proof.
  intros Himpl H. induction H as [|a b l1 l2 Hab _ IH]; constructor.
  - apply Himpl; [now left|exact Hab].
  - apply IH. intros a' b' Ha'. apply Himpl. now right.
Qed.

(** C4.  On a board whose vehicles have no negative coordinate, the
    successors of a state are, in order, one node per move of the board,
    and no move occurs twice.  The vehicle list of the node for the move of
    vehicle [i] to [v] is that of the state with the [var_coord] of entry
    [i] set to [v] and nothing else changed.  The moves are read off the
    grid: vehicle [i] moves to [v] exactly when either [v] lies before the
    vehicle and the grid shows every cell from [v] up to the vehicle free
    (a walk toward 0 that has met no other marker on its way to [v]), or
    [v] lies past it, the vehicle at [v] still ends inside the grid and the
    grid shows every cell from the end of the vehicle to its new last cell
    [v + length - 1] free.  So each free cell a walk reaches before its
    first non-free cell gives a successor of its own, and no successor
    takes a vehicle onto or across a cell that is not free.  On a square
    board with all vehicles inside the grid and a heuristic that returns on
    every board a move leads to, the generator returns. *)
Theorem successors_are_slides (state : State) :
  let board := State.board state in
  let cars := Board.cars board in
  Forall (fun car => 0 <= Car.fix_coord car /\ 0 <= Car.var_coord car /\
                     0 <= Car.length car) cars ->
  (forall l,
      get_successors state = Ok l ->
      Forall2 (fun (m : Move) s =>
                 let '(i, car, v) := m in
                 moved cars i car v (Board.cars (State.board s)))
              (moves board) l) /\
  NoDup (moves board) /\
  (forall i car v,
      In (i, car, v) (moves board) <->
      nth_error cars i = Some car /\
      ((0 <= v < Car.var_coord car /\
        forall k, v <= k < Car.var_coord car -> lane board car k = Some ".") \/
       (Car.var_coord car < v /\ v + Car.length car <= Board.size board /\
        forall k,
          Car.var_coord car + Car.length car <= k < v + Car.length car ->
          lane board car k = Some "."))) /\
  (square board -> Forall (in_bounds (Board.size board)) cars ->
   (forall i car v cars',
       In (i, car, v) (moves board) -> moved cars i car v cars' ->
       exists h,
         State.hfn state
           (new_Board (Board.name board) (Board.size board) cars') = Ok h) ->
   exists l, get_successors state = Ok l).
Proof.
  intros board cars Hpos. split; [|split; [|split]].
  - intros l H. apply get_successors_moves in H. fold board in H.
    apply (Forall2_impl_In (is_successor state)); [|exact H].
    intros [[i car] v] s Hm Hs. apply in_moves in Hm.
    rewrite (successor_cars _ _ _ Hs). cbn [move_cars].
    apply moved_list_set, Hm.
  - apply NoDup_moves.
  - intros i car v. rewrite in_moves, in_slides.
    split; intros [Hnth Hv]; (split; [exact Hnth|]).
    + assert (Hcar : 0 <= Car.fix_coord car /\ 0 <= Car.var_coord car /\
                     0 <= Car.length car).
      { rewrite Forall_forall in Hpos. eapply Hpos, nth_error_In, Hnth. }
      destruct Hv as [[Hr Hfree]|(Hr & Hsz & Hfree)].
      * left. split; [exact Hr|]. intros k Hk.
        apply is_free_lane; [lia|lia|now apply Hfree].
      * right. split; [exact Hr|]. split; [exact Hsz|]. intros k Hk.
        apply is_free_lane; [lia|lia|now apply Hfree].
    + assert (Hcar : 0 <= Car.fix_coord car /\ 0 <= Car.var_coord car /\
                     0 <= Car.length car).
      { rewrite Forall_forall in Hpos. eapply Hpos, nth_error_In, Hnth. }
      destruct Hv as [[Hr Hfree]|(Hr & Hsz & Hfree)].
      * left. split; [exact Hr|]. intros k Hk.
        apply is_free_lane; [lia|lia|now apply Hfree].
      * right. split; [exact Hr|]. split; [exact Hsz|]. intros k Hk.
        apply is_free_lane; [lia|lia|now apply Hfree].
  - intros Hsq Hin Hh. apply get_successors_total; [exact Hsq|exact Hin|].
    intros [[i car] v] Hm. apply (Hh i car v); [exact Hm|].
    apply in_moves in Hm. cbn [move_cars]. apply moved_list_set, Hm.
Qed.

(** C5.  Every successor of a state is a node over a new board whose
    vehicle list is the parent's with the [var_coord] of one vehicle
    changed and every other entry and attribute kept; its depth is the
    parent's plus 1, its [f] is that depth plus the heuristic on the new
    board, its heuristic is the parent's and its parent is the expanded
    state. *)
Theorem successor_fields (state : State) (l : list State) (s : State) :
  get_successors state = Ok l -> In s l ->
  let board := State.board state in
  let cars := Board.cars board in
  exists i car v h,
    nth_error cars i = Some car /\ v <> Car.var_coord car /\
    State.board s
    = new_Board (Board.name board) (Board.size board)
                (list_set cars i (Car.set_coord car v)) /\
    List.length (Board.cars (State.board s)) = List.length cars /\
    nth_error (Board.cars (State.board s)) i
    = Some (Car.mk (Car.orientation car) (Car.fix_coord car) v
                   (Car.length car)) /\
    (forall k, k <> i ->
               nth_error (Board.cars (State.board s)) k = nth_error cars k) /\
    State.depth s = State.depth state + 1 /\
    State.hfn s = State.hfn state /\
    State.hfn s (State.board s) = Ok h /\
    State.f s = State.depth s + h /\
    State.parent s = Some state /\
    State.id s = board_id (State.board s).
Proof.
  intros H Hin board cars. apply get_successors_moves in H.
  destruct (Forall2_In_r _ _ _ _ H Hin) as ([[i car] v] & Hm & h & Hh & ->).
  apply in_moves in Hm. destruct Hm as [Hnth Hv].
  apply in_slides in Hv.
  assert (Hi : (i < List.length cars)%nat).
  { apply nth_error_Some. unfold cars, board. now rewrite Hnth. }
  exists i, car, v, h. cbn.
  repeat split; try assumption; try lia.
  - apply length_list_set.
  - now apply nth_error_list_set_eq.
  - intros k Hk. now apply nth_error_list_set_ne.
Qed.

End Successors.

(** ** Parent chains *)

Lemma ancestors_eq (s : State) :
  ancestors s = s :: match State.parent s with
                     | None => []
                     | Some p => ancestors p
                     end.
Proof. destruct s. reflexivity. Qed.

Lemma get_path_parent s p :
  State.parent s = Some p -> get_path s = get_path p ++ [s].
Proof.
  intros H. unfold get_path. rewrite (ancestors_eq s), H. reflexivity.
Qed.

Lemma get_path_root s : State.parent s = None -> get_path s = [s].
Proof.
  intros H. unfold get_path. rewrite (ancestors_eq s), H. reflexivity.
Qed.

Lemma get_path_last s : exists l, get_path s = l ++ [s].
Proof.
  unfold get_path. rewrite ancestors_eq. cbn. eauto.
Qed.

Lemma NoDup_map_inj_in {A B : Type} (f : A -> B) (l : list A) a b :
  NoDup (map f l) -> In a l -> In b l -> f a = f b -> a = b.
Proof.
  induction l as [|x l IH]; cbn; intros Hnd Ha Hb E; [destruct Ha|].
  inversion Hnd as [|? ? Hx Hl]; subst.
  destruct Ha as [->|Ha], Hb as [->|Hb]; try reflexivity.
  - exfalso. apply Hx. rewrite E. now apply in_map.
  - exfalso. apply Hx. rewrite <- E. now apply in_map.
  - now apply IH.
Qed.

(** ** Search *)

Section SearchProofs.

Variable construct_grid : Z -> list Car -> Grid.
Variable board_id : Board -> Z.

Local Abbreviation new_Board := (new_Board construct_grid).
Local Abbreviation get_successors := (get_successors construct_grid board_id).
Local Abbreviation is_successor := (is_successor construct_grid board_id).
Local Abbreviation a_star_iter := (a_star_iter construct_grid board_id).
Local Abbreviation a_star_loop := (a_star_loop construct_grid board_id).
Local Abbreviation a_star := (a_star construct_grid board_id).
Local Abbreviation dfs_iter := (dfs_iter construct_grid board_id).
Local Abbreviation dfs_loop := (dfs_loop construct_grid board_id).
Local Abbreviation dfs := (dfs construct_grid board_id).
Local Abbreviation search_iter := (search_iter construct_grid board_id).
Local Abbreviation search_loop := (search_loop construct_grid board_id).
Local Abbreviation reachable := (reachable construct_grid).

Lemma a_star_iter_search frontier explored :
  a_star_iter frontier explored
  = search_iter heap_pop push_all frontier explored.
Proof.
  unfold Solve.a_star_iter, search_iter, heap_pop.
  destruct (heappop frontier) as [[[k state] rest]|]; reflexivity.
Qed.

Lemma dfs_iter_search frontier explored :
  dfs_iter frontier explored
  = search_iter list_pop stack_push frontier explored.
Proof.
  unfold Solve.dfs_iter, search_iter, stack_push.
  destruct (list_pop frontier) as [[state rest]|]; reflexivity.
Qed.

Lemma a_star_loop_search fuel : forall frontier explored,
  a_star_loop fuel frontier explored
  = search_loop heap_pop push_all fuel frontier explored.
Proof.
  induction fuel as [|fuel IH]; intros frontier explored; cbn;
    [reflexivity|].
  rewrite a_star_iter_search.
  destruct (search_iter _ _ frontier explored); [apply IH|reflexivity].
Qed.

Lemma dfs_loop_search fuel : forall frontier explored,
  dfs_loop fuel frontier explored
  = search_loop list_pop stack_push fuel frontier explored.
Proof.
  induction fuel as [|fuel IH]; intros frontier explored; cbn;
    [reflexivity|].
  rewrite dfs_iter_search.
  destruct (search_iter _ _ frontier explored); [apply IH|reflexivity].
Qed.

(** *** Explored nodes *)

Lemma is_explored_false explored state :
  is_explored explored state = false ->
  ~ In (State.id state) (map State.id explored).
Proof.
  unfold is_explored. intros H Hin.
  apply in_map_iff in Hin. destruct Hin as (s & Hid & Hs).
  assert (E : existsb (fun s => State.id s =? State.id state) explored = true).
  { apply existsb_exists. exists s. split; [exact Hs|]. now apply Z.eqb_eq. }
  congruence.
Qed.

Lemma NoDup_accept explored state :
  NoDup (map State.id explored) -> is_explored explored state = false ->
  NoDup (map State.id (explored ++ [state])).
Proof.
  intros Hnd Hex. rewrite map_app. cbn [map]. apply NoDup_app.
  - exact Hnd.
  - constructor; [intros []|constructor].
  - intros a Ha [<-|[]]. now apply (is_explored_false explored state).
Qed.

Lemma search_iter_explored {F : Type} (pop : F -> option (State * F)) push
    fr ex fr' ex' :
  search_iter pop push fr ex = Next fr' ex' ->
  ex' = ex \/
  exists state, is_explored ex state = false /\ ex' = ex ++ [state].
Proof.
  unfold search_iter. intros H.
  destruct (pop fr) as [[state rest]|]; [|discriminate].
  destruct (is_explored ex state) eqn:E; cbn [negb] in H.
  - inversion H. now left.
  - right. exists state. split; [exact E|].
    destruct (is_goal state) as [[|]|]; try discriminate.
    destruct (get_successors state); try discriminate.
    destruct (push rest a); try discriminate. now inversion H.
Qed.

Lemma iterates_NoDup {F : Type} (pop : F -> option (State * F)) push
    fr0 fr ex :
  iterates (search_iter pop push) fr0 [] fr ex -> NoDup (map State.id ex).
Proof.
  induction 1 as [|fr1 ex1 fr2 ex2 _ IH Hstep]; [constructor|].
  apply search_iter_explored in Hstep.
  destruct Hstep as [->|(state & Hnew & ->)]; [exact IH|].
  now apply NoDup_accept.
Qed.

Lemma iterates_ext {F R : Type} (it1 it2 : F -> list State -> outcome F R)
    fr0 ex0 fr ex :
  (forall fr ex, it1 fr ex = it2 fr ex) ->
  iterates it1 fr0 ex0 fr ex -> iterates it2 fr0 ex0 fr ex.
Proof.
  intros Hext. induction 1 as [|fr1 ex1 fr2 ex2 _ IH Hstep].
  - constructor.
  - econstructor; [exact IH|]. now rewrite <- Hext.
Qed.

(** *** Pushing the successors *)

Lemma successors_parent state l :
  get_successors state = Ok l ->
  Forall (fun n => State.parent n = Some state) l.
Proof.
  intros H. apply get_successors_moves in H.
  induction H as [|m s ms l (h & _ & ->) _ IH]; constructor; auto.
Qed.

Lemma push_all_ok state : forall neighbours frontier,
  Forall (fun n => State.parent n = Some state) neighbours ->
  exists frontier',
    push_all frontier neighbours = Ok frontier' /\
    map snd frontier' = map snd frontier ++ neighbours.
Proof.
  induction neighbours as [|n ns IH]; intros frontier H; cbn.
  - exists frontier. now rewrite app_nil_r.
  - inversion H as [|? ? Hn Hns]; subst.
    unfold parent_id. rewrite Hn. cbn [bind].
    destruct (IH (heappush frontier
                    ((State.f n, State.id n, State.id state), n)) Hns)
      as (fr' & Hfr & Hmap).
    exists fr'. split; [exact Hfr|].
    rewrite Hmap. unfold heappush. rewrite map_app. cbn.
    now rewrite <- app_assoc.
Qed.

(** *** The stack of depth-first search *)

Lemma list_pop_snoc {A : Type} (l : list A) (x : A) :
  list_pop (l ++ [x]) = Some (x, l).
Proof.
  unfold list_pop. rewrite rev_app_distr. cbn. now rewrite rev_involutive.
Qed.

Lemma insert_desc_perm x l : Permutation (insert_desc x l) (x :: l).
Proof.
  induction l as [|y l IH]; cbn; [reflexivity|].
  destruct (State.id x <? State.id y); [|reflexivity].
  rewrite IH. apply perm_swap.
Qed.

Lemma sort_desc_perm l : Permutation (sort_desc l) l.
Proof.
  induction l as [|x l IH]; cbn; [reflexivity|].
  rewrite insert_desc_perm. now constructor.
Qed.

Lemma insert_desc_sorted x l :
  StronglySorted desc l -> StronglySorted desc (insert_desc x l).
Proof.
  induction 1 as [|y l Hl IH Hy]; cbn.
  - constructor; constructor.
  - destruct (Z.ltb_spec (State.id x) (State.id y)) as [Hlt|Hge].
    + constructor; [exact IH|].
      rewrite Forall_forall in *. intros z Hz.
      apply (Permutation_in _ (insert_desc_perm x l)) in Hz.
      destruct Hz as [<-|Hz]; [unfold desc; lia|now apply Hy].
    + constructor; [now constructor|]. constructor; [exact Hge|].
      rewrite Forall_forall in *. intros z Hz. specialize (Hy z Hz).
      unfold desc in *. lia.
Qed.

Lemma sort_desc_sorted l : StronglySorted desc (sort_desc l).
Proof.
  induction l as [|x l IH]; cbn; [constructor|].
  now apply insert_desc_sorted.
Qed.

Lemma sorted_last l n :
  StronglySorted desc (l ++ [n]) -> forall x, In x l -> desc x n.
Proof.
  induction l as [|y l IH]; cbn; intros H x Hx; [destruct Hx|].
  inversion H as [|? ? Hl Hy]; subst. destruct Hx as [<-|Hx].
  - rewrite Forall_forall in Hy. apply Hy, in_or_app. right. now left.
  - now apply IH.
Qed.

(** *** Fuel *)

Lemma search_loop_mono {F : Type} (pop : F -> option (State * F)) push
    fuel : forall fuel' fr ex r,
  search_loop pop push fuel fr ex = Some r -> (fuel <= fuel')%nat ->
  search_loop pop push fuel' fr ex = Some r.
Proof.
  induction fuel as [|fuel IH]; intros fuel' fr ex r H Hle; cbn in H;
    [discriminate|].
  destruct fuel' as [|fuel']; [lia|]. cbn.
  destruct (search_iter pop push fr ex); [|exact H].
  apply IH; [exact H|lia].
Qed.

Lemma search_loop_det {F : Type} (pop : F -> option (State * F)) push
    fuel1 fuel2 fr ex r1 r2 :
  search_loop pop push fuel1 fr ex = Some r1 ->
  search_loop pop push fuel2 fr ex = Some r2 -> r1 = r2.
Proof.
  intros H1 H2.
  apply (search_loop_mono _ _ _ (Nat.max fuel1 fuel2)) in H1; [|lia].
  apply (search_loop_mono _ _ _ (Nat.max fuel1 fuel2)) in H2; [|lia].
  congruence.
Qed.

Lemma a_star_iter_discard frontier explored key state rest :
  heappop frontier = Some ((key, state), rest) ->
  is_explored explored state = true ->
  a_star_iter frontier explored = Next rest explored.
Proof.
  intros Hpop Hex. unfold Solve.a_star_iter. now rewrite Hpop, Hex.
Qed.

Lemma dfs_iter_discard frontier explored state rest :
  list_pop frontier = Some (state, rest) ->
  is_explored explored state = true ->
  dfs_iter frontier explored = Next rest explored.
Proof.
  intros Hpop Hex. unfold Solve.dfs_iter. now rewrite Hpop, Hex.
Qed.

Lemma dfs_iter_expand frontier explored state rest neighbours :
  list_pop frontier = Some (state, rest) ->
  is_explored explored state = false ->
  is_goal state = Ok false ->
  get_successors state = Ok neighbours ->
  dfs_iter frontier explored
  = Next (rest ++ sort_desc neighbours) (explored ++ [state]).
Proof.
  intros Hpop Hex Hgoal Hsucc. unfold Solve.dfs_iter.
  now rewrite Hpop, Hex, Hgoal, Hsucc.
Qed.

Lemma a_star_iter_expand frontier explored key state rest neighbours :
  heappop frontier = Some ((key, state), rest) ->
  is_explored explored state = false ->
  is_goal state = Ok false ->
  get_successors state = Ok neighbours ->
  exists frontier',
    a_star_iter frontier explored = Next frontier' (explored ++ [state]) /\
    map snd frontier' = map snd rest ++ neighbours.
Proof.
  intros Hpop Hex Hgoal Hsucc. unfold Solve.a_star_iter.
  rewrite Hpop, Hex, Hgoal, Hsucc. cbn [negb].
  destruct (push_all_ok state neighbours rest (successors_parent _ _ Hsucc))
    as (fr' & Hpush & Hmap).
  rewrite Hpush. now exists fr'.
Qed.

(** C6.  In a run of [a_star] and in a run of [dfs] the explored nodes
    have pairwise different identities, also after the next node is
    accepted.  A popped node whose identity is among the explored ones is
    dropped: the iteration changes nothing but the frontier, whatever the
    goal test or the expansion of that node would give.  When a node is
    expanded, all its successors go onto the frontier, explored identity
    or not. *)
Theorem no_duplicate_expansion :
  (forall fr0 fr ex,
      iterates a_star_iter fr0 [] fr ex ->
      NoDup (map State.id ex) /\
      forall key state rest,
        heappop fr = Some ((key, state), rest) ->
        is_explored ex state = false ->
        NoDup (map State.id (ex ++ [state]))) /\
  (forall fr0 fr ex,
      iterates dfs_iter fr0 [] fr ex ->
      NoDup (map State.id ex) /\
      forall state rest,
        list_pop fr = Some (state, rest) ->
        is_explored ex state = false ->
        NoDup (map State.id (ex ++ [state]))) /\
  (forall fr ex key state rest,
      heappop fr = Some ((key, state), rest) ->
      is_explored ex state = true ->
      a_star_iter fr ex = Next rest ex) /\
  (forall fr ex state rest,
      list_pop fr = Some (state, rest) ->
      is_explored ex state = true ->
      dfs_iter fr ex = Next rest ex) /\
  (forall fr ex key state rest neighbours,
      heappop fr = Some ((key, state), rest) ->
      is_explored ex state = false ->
      is_goal state = Ok false ->
      get_successors state = Ok neighbours ->
      exists fr',
        a_star_iter fr ex = Next fr' (ex ++ [state]) /\
        map snd fr' = map snd rest ++ neighbours) /\
  (forall fr ex state rest neighbours,
      list_pop fr = Some (state, rest) ->
      is_explored ex state = false ->
      is_goal state = Ok false ->
      get_successors state = Ok neighbours ->
      dfs_iter fr ex = Next (rest ++ sort_desc neighbours) (ex ++ [state]) /\
      Permutation (sort_desc neighbours) neighbours).
Proof.
  repeat apply conj.
  - intros fr0 fr ex H.
    apply (iterates_ext _ (search_iter heap_pop push_all)) in H;
      [|apply a_star_iter_search].
    apply iterates_NoDup in H. split; [exact H|].
    intros key state rest _ Hex. now apply NoDup_accept.
  - intros fr0 fr ex H.
    apply (iterates_ext _ (search_iter list_pop stack_push)) in H;
      [|apply dfs_iter_search].
    apply iterates_NoDup in H. split; [exact H|].
    intros state rest _ Hex. now apply NoDup_accept.
  - apply a_star_iter_discard.
  - apply dfs_iter_discard.
  - apply a_star_iter_expand.
  - intros fr ex state rest neighbours Hpop Hex Hgoal Hsucc.
    split; [now apply dfs_iter_expand|apply sort_desc_perm].
Qed.

Lemma list_pop_inv {A : Type} (l : list A) x rest :
  list_pop l = Some (x, rest) -> l = rest ++ [x].
Proof.
  unfold list_pop. intros H. destruct (rev l) as [|y r] eqn:E; [discriminate|].
  inversion H; subst. rewrite <- (rev_involutive l), E. reflexivity.
Qed.

Lemma iterates_first {F R : Type} (iter : F -> list State -> outcome F R)
    fr ex fr1 ex1 fr2 ex2 :
  iter fr ex = Next fr1 ex1 -> iterates iter fr1 ex1 fr2 ex2 ->
  iterates iter fr ex fr2 ex2.
Proof.
  intros Hstep H. induction H as [|fa ea fb eb _ IH Hnext].
  - econstructor; [constructor|exact Hstep].
  - econstructor; [exact IH|exact Hnext].
Qed.

Lemma dfs_loop_run fuel : forall fr ex r,
  dfs_loop fuel fr ex = Some r ->
  exists fr' ex', iterates dfs_iter fr ex fr' ex' /\ dfs_iter fr' ex' = Done r.
Proof.
  induction fuel as [|fuel IH]; intros fr ex r H; cbn in H; [discriminate|].
  destruct (dfs_iter fr ex) as [fr1 ex1|r'] eqn:Hstep.
  - destruct (IH _ _ _ H) as (fr' & ex' & Hrun & Hend).
    exists fr', ex'. split; [|exact Hend].
    now apply (iterates_first _ _ _ _ _ _ _ Hstep).
  - inversion H; subst. exists fr, ex. split; [constructor|exact Hstep].
Qed.

Lemma run_dfs_loop fr ex fr' ex' :
  iterates dfs_iter fr ex fr' ex' ->
  forall fuel r, dfs_loop fuel fr' ex' = Some r ->
                 exists fuel', dfs_loop fuel' fr ex = Some r.
Proof.
  induction 1 as [|fr1 ex1 fr2 ex2 _ IH Hstep]; intros fuel r H.
  - now exists fuel.
  - apply (IH (S fuel)). cbn. now rewrite Hstep.
Qed.

(** The top of the stack decides an iteration of [dfs]; what lies below
    stays where it is. *)
Lemma dfs_iter_top fr x ex :
  dfs_iter (fr ++ [x]) ex
  = match dfs_iter [x] ex with
    | Next pushed ex' => Next (fr ++ pushed) ex'
    | Done r => Done r
    end.
Proof.
  unfold Solve.dfs_iter. rewrite list_pop_snoc.
  change (list_pop [x]) with (list_pop ([] ++ [x])). rewrite list_pop_snoc.
  destruct (is_explored ex x); cbn [negb].
  - now rewrite app_nil_r.
  - destruct (is_goal x) as [[|]|]; try reflexivity.
    destruct (get_successors x); reflexivity.
Qed.

(** What every node of a run of [dfs] from [root] carries. *)
Lemma dfs_iter_seed root fr ex fr' ex' :
  let seeded s :=
    (exists tail, get_path s = root :: tail) /\
    State.hfn s = zero_heuristic /\ State.f s = State.depth s in
  Forall seeded (fr ++ ex) -> dfs_iter fr ex = Next fr' ex' ->
  Forall seeded (fr' ++ ex').
Proof.
  intros seeded Hall Hstep. unfold Solve.dfs_iter in Hstep.
  destruct (list_pop fr) as [[state rest]|] eqn:Hpop; [|discriminate].
  apply list_pop_inv in Hpop. subst fr.
  rewrite !Forall_app in Hall. destruct Hall as [[Hrest Hstate] Hex].
  destruct (is_explored ex state); cbn [negb] in Hstep.
  - inversion Hstep; subst. now rewrite Forall_app.
  - destruct (is_goal state) as [[|]|]; try discriminate.
    destruct (get_successors state) as [ns|] eqn:Hsucc; [|discriminate].
    inversion Hstep; subst. rewrite !Forall_app.
    repeat split; try assumption.
    apply (Permutation_Forall (Permutation_sym (sort_desc_perm ns))).
    inversion Hstate as [|? ? ((tail & Hpath) & Hhfn & Hf) _]; subst.
    apply get_successors_moves in Hsucc.
    clear -Hsucc Hpath Hhfn.
    induction Hsucc as [|m n ms ns (h & Hh & ->) _ IH]; constructor;
      [|exact IH].
    rewrite Hhfn in Hh. inversion Hh; subst h. split; [|split].
    + exists (tail ++ [successor construct_grid board_id state m 0]).
      rewrite (get_path_parent (successor construct_grid board_id state m 0)
                 state eq_refl), Hpath. reflexivity.
    + exact Hhfn.
    + cbn. lia.
Qed.

Lemma sorted_desc_unique : forall l1 l2,
  StronglySorted desc l1 -> StronglySorted desc l2 -> Permutation l1 l2 ->
  NoDup (map State.id l1) -> l1 = l2.
Proof.
  induction l1 as [|a l1 IH]; intros l2 H1 H2 Hp Hnd.
  - apply Permutation_nil in Hp. now subst.
  - destruct l2 as [|b l2];
      [apply Permutation_sym, Permutation_nil in Hp; discriminate|].
    inversion H1 as [|? ? H1' Ha]; inversion H2 as [|? ? H2' Hb]; subst.
    assert (E : a = b).
    { assert (Hab : In a (b :: l2)) by (apply (Permutation_in _ Hp); now left).
      assert (Hba : In b (a :: l1)).
      { apply (Permutation_in _ (Permutation_sym Hp)). now left. }
      destruct Hab as [Hab|Hab]; [now symmetry|].
      destruct Hba as [Hba|Hba]; [exact Hba|].
      rewrite Forall_forall in Ha, Hb.
      specialize (Ha _ Hba). specialize (Hb _ Hab). unfold desc in Ha, Hb.
      apply (NoDup_map_inj_in State.id (a :: l1));
        [exact Hnd|now left|now right|lia]. }
    subst b. f_equal. apply IH; try assumption.
    + now apply Permutation_cons_inv in Hp.
    + now inversion Hnd.
Qed.

(** The stack after an expansion does not depend on the order in which the
    successors were generated. *)
Lemma sort_desc_canonical others neighbours :
  Permutation others neighbours -> NoDup (map State.id neighbours) ->
  sort_desc others = sort_desc neighbours.
Proof.
  intros Hp Hnd. apply sorted_desc_unique; try apply sort_desc_sorted.
  - rewrite (sort_desc_perm others), Hp. symmetry. apply sort_desc_perm.
  - apply (Permutation_NoDup (l := map State.id neighbours)); [|exact Hnd].
    apply Permutation_map. rewrite (sort_desc_perm others). now symmetry.
Qed.

(** C8.  A run of [dfs] is the run of its loop from the stack that holds one
    node: the initial board with the zero heuristic, [f] 0, depth 0 and no
    parent.  [dfs] returns a result exactly when that run ends with it, and
    every node the run has on its stack or has accepted starts its path at
    that node, carries the zero heuristic and has [f] equal to its depth.
    The frontier is a stack: [pop] takes what was put on last, and an
    iteration reads the top node only and leaves what lies below in place.
    The successors of an expanded node go on top sorted by descending
    identity, which is the same stack whatever order the generator emits
    them in when their identities differ, so that the next node popped is a
    successor of smallest identity.  Two runs of [dfs] on the same board
    that both return, return the same result. *)
Theorem dfs_stack_order (init_board : Board) :
  let root :=
    State.mk init_board zero_heuristic 0 0 None (board_id init_board) in
  (forall r,
      (exists fuel, dfs fuel init_board = Some r) <->
      (exists fr ex,
          iterates dfs_iter [root] [] fr ex /\ dfs_iter fr ex = Done r)) /\
  (forall fr ex,
      iterates dfs_iter [root] [] fr ex ->
      Forall (fun s => (exists tail, get_path s = root :: tail) /\
                       State.hfn s = zero_heuristic /\
                       State.f s = State.depth s) (fr ++ ex)) /\
  (forall (fr : list State) x, list_pop (fr ++ [x]) = Some (x, fr)) /\
  (forall fr x ex,
      dfs_iter (fr ++ [x]) ex
      = match dfs_iter [x] ex with
        | Next pushed ex' => Next (fr ++ pushed) ex'
        | Done r => Done r
        end) /\
  (forall fr ex state rest neighbours,
      list_pop fr = Some (state, rest) ->
      is_explored ex state = false ->
      is_goal state = Ok false ->
      get_successors state = Ok neighbours ->
      dfs_iter fr ex = Next (rest ++ sort_desc neighbours) (ex ++ [state]) /\
      Permutation (sort_desc neighbours) neighbours /\
      StronglySorted desc (sort_desc neighbours) /\
      (forall others,
          Permutation others neighbours ->
          NoDup (map State.id neighbours) ->
          sort_desc others = sort_desc neighbours) /\
      (neighbours <> [] ->
       exists n rest',
         list_pop (rest ++ sort_desc neighbours) = Some (n, rest') /\
         In n neighbours /\
         forall x, In x neighbours -> State.id n <= State.id x)) /\
  (forall fuel1 fuel2 r1 r2,
      dfs fuel1 init_board = Some r1 -> dfs fuel2 init_board = Some r2 ->
      r1 = r2).
Proof.
  intros root. repeat apply conj.
  - intros r. split.
    + intros [fuel H]. now apply dfs_loop_run in H.
    + intros (fr & ex & Hrun & Hend).
      apply (run_dfs_loop _ _ _ _ Hrun 1%nat). cbn. now rewrite Hend.
  - intros fr ex H. induction H as [|fr1 ex1 fr2 ex2 _ IH Hstep].
    + repeat constructor. now exists [].
    + exact (dfs_iter_seed root _ _ _ _ IH Hstep).
  - intros fr x. apply list_pop_snoc.
  - apply dfs_iter_top.
  - intros fr ex state rest neighbours Hpop Hex Hgoal Hsucc.
    split; [now apply dfs_iter_expand|].
    split; [apply sort_desc_perm|]. split; [apply sort_desc_sorted|].
    split; [intros others; apply sort_desc_canonical|].
    intros Hne.
    pose proof (sort_desc_perm neighbours) as Hperm.
    pose proof (sort_desc_sorted neighbours) as Hsorted.
    destruct (exists_last (l := sort_desc neighbours)) as (l' & n & Hlast).
    { intros E. rewrite E in Hperm. apply Permutation_nil in Hperm.
      contradiction. }
    rewrite Hlast in *. exists n, (rest ++ l'). split; [|split].
    + rewrite app_assoc. apply list_pop_snoc.
    + apply (Permutation_in _ Hperm), in_or_app. right. now left.
    + intros x Hx. apply (Permutation_in _ (Permutation_sym Hperm)) in Hx.
      apply in_app_or in Hx. destruct Hx as [Hx|[<-|[]]]; [|lia].
      apply (sorted_last _ _ Hsorted x Hx).
  - intros fuel1 fuel2 r1 r2 H1 H2. unfold Solve.dfs in *.
    rewrite dfs_loop_search in H1, H2.
    eapply search_loop_det; eassumption.
Qed.

(** *** Exhausting the frontier *)

Lemma filter_length_lt {A : Type} (p q : A -> bool) (l : list A) (a : A) :
  (forall x, q x = true -> p x = true) ->
  In a l -> p a = true -> q a = false ->
  (List.length (filter q l) < List.length (filter p l))%nat.
Proof.
  intros Hqp Hin Hpa Hqa.
  assert (Hle : forall l', (List.length (filter q l')
                            <= List.length (filter p l'))%nat).
  { induction l' as [|x l' IH]; cbn; [lia|].
    destruct (q x) eqn:Eq.
    - rewrite (Hqp x Eq). cbn. lia.
    - destruct (p x); cbn; lia. }
  induction l as [|x l IH]; [destruct Hin|].
  cbn. destruct Hin as [->|Hin].
  - rewrite Hpa, Hqa. cbn. specialize (Hle l). lia.
  - specialize (IH Hin). destruct (q x) eqn:Eq.
    + rewrite (Hqp x Eq). cbn. lia.
    + destruct (p x); cbn; lia.
Qed.

Lemma unexplored_accept explored state (U : list Z) :
  In (State.id state) U -> is_explored explored state = false ->
  (List.length (filter (unexplored (explored ++ [state])) U)
   < List.length (filter (unexplored explored) U))%nat.
Proof.
  intros Hin Hex. apply (filter_length_lt _ _ _ (State.id state)).
  - intros u. unfold unexplored. rewrite existsb_app.
    destruct (existsb _ explored); [discriminate|reflexivity].
  - exact Hin.
  - unfold unexplored. unfold is_explored in Hex. now rewrite Hex.
  - unfold unexplored. rewrite existsb_app. cbn [existsb].
    rewrite Z.eqb_refl. cbn [orb]. now rewrite orb_true_r.
Qed.

Section Exhaustion.

Context {F : Type}.
Variable pop : F -> option (State * F).
Variable push : F -> list State -> result F.
Variable items : F -> list State.
Variable node : State -> Prop.
Variable U : list Z.

Hypothesis pop_items : forall fr s fr',
  pop fr = Some (s, fr') ->
  In s (items fr) /\
  (forall x, In x (items fr') -> In x (items fr)) /\
  (List.length (items fr') < List.length (items fr))%nat.

Hypothesis push_items : forall fr ns state,
  Forall (fun n => State.parent n = Some state) ns ->
  exists fr',
    push fr ns = Ok fr' /\
    forall x, In x (items fr') -> In x (items fr) \/ In x ns.

Hypothesis node_not_goal : forall s, node s -> is_goal s = Ok false.

Hypothesis node_successors : forall s,
  node s -> exists ns, get_successors s = Ok ns /\ Forall node ns.

Hypothesis node_id : forall s, node s -> In (State.id s) U.

Lemma search_exhausts : forall n ex,
  (List.length (filter (unexplored ex) U) < n)%nat ->
  forall k fr,
    (List.length (items fr) < k)%nat ->
    (forall s, In s (items fr) -> node s) ->
    exists fuel, search_loop pop push fuel fr ex = Some (Ok ([], -1)).
Proof.
  induction n as [|n IHn]; intros ex Hn; [lia|].
  induction k as [|k IHk]; intros fr Hk Hnode; [lia|].
  destruct (pop fr) as [[s fr']|] eqn:Hpop.
  - destruct (pop_items _ _ _ Hpop) as (Hs & Hincl & Hlen).
    destruct (is_explored ex s) eqn:Hex.
    + destruct (IHk fr') as [fuel Hfuel]; [lia|auto|].
      exists (S fuel). cbn. unfold search_iter. now rewrite Hpop, Hex.
    + pose proof (Hnode s Hs) as Hnd.
      destruct (node_successors s Hnd) as (ns & Hns & Hall).
      destruct (push_items fr' ns s (successors_parent _ _ Hns))
        as (fr'' & Hpush & Hin).
      destruct (IHn (ex ++ [s])) with (k := S (List.length (items fr'')))
                                      (fr := fr'') as [fuel Hfuel].
      * pose proof (unexplored_accept ex s U (node_id s Hnd) Hex). lia.
      * lia.
      * intros x Hx. destruct (Hin x Hx) as [Hx'|Hx']; [auto|].
        rewrite Forall_forall in Hall. auto.
      * exists (S fuel). cbn. unfold search_iter.
        now rewrite Hpop, Hex, (node_not_goal s Hnd), Hns, Hpush.
  - exists 1%nat. cbn. unfold search_iter. now rewrite Hpop.
Qed.

End Exhaustion.

Lemma heappop_items frontier e rest :
  heappop frontier = Some (e, rest) ->
  In e frontier /\ (forall x, In x rest -> In x frontier) /\
  List.length frontier = S (List.length rest).
Proof.
  revert e rest. induction frontier as [|a fr IH]; intros e rest H; cbn in H;
    [discriminate|].
  destruct (heappop fr) as [[m rest']|] eqn:E.
  - destruct (IH _ _ eq_refl) as (Hm & Hincl & Hlen).
    destruct (key_lt (fst m) (fst a)); inversion H; subst; cbn.
    + split; [auto|]. split; [|lia]. intros x [->|Hx]; auto.
    + split; [auto|]. split; [|lia]. auto.
  - inversion H; subst. destruct fr as [|b fr]; [cbn; tauto|].
    cbn in E. destruct (heappop fr) as [[? ?]|];
      [destruct (key_lt _ _)|]; discriminate.
Qed.

Lemma heap_pop_items fr s fr' :
  heap_pop fr = Some (s, fr') ->
  In s (map snd fr) /\
  (forall x, In x (map snd fr') -> In x (map snd fr)) /\
  (List.length (map snd fr') < List.length (map snd fr))%nat.
Proof.
  unfold heap_pop. intros H.
  destruct (heappop fr) as [[[k s0] rest]|] eqn:E; [|discriminate].
  inversion H; subst.
  destruct (heappop_items _ _ _ E) as (Hin & Hincl & Hlen).
  split; [|split].
  - apply in_map_iff. now exists (k, s).
  - intros x Hx. apply in_map_iff in Hx. destruct Hx as (e & <- & He).
    apply in_map, Hincl, He.
  - rewrite !length_map. unfold Entry, Key in *. lia.
Qed.

Lemma list_pop_items (fr : list State) s fr' :
  list_pop fr = Some (s, fr') ->
  In s fr /\ (forall x, In x fr' -> In x fr) /\
  (List.length fr' < List.length fr)%nat.
Proof.
  unfold list_pop. intros H.
  destruct (rev fr) as [|x r] eqn:E; [discriminate|]. inversion H; subst.
  assert (Hfr : fr = rev r ++ [s]).
  { rewrite <- (rev_involutive fr), E. reflexivity. }
  rewrite Hfr. split; [|split].
  - apply in_or_app. right. now left.
  - intros x Hx. apply in_or_app. now left.
  - rewrite length_app. cbn. lia.
Qed.

Lemma push_all_items fr ns state :
  Forall (fun n => State.parent n = Some state) ns ->
  exists fr',
    push_all fr ns = Ok fr' /\
    forall x, In x (map snd fr') -> In x (map snd fr) \/ In x ns.
Proof.
  intros H. destruct (push_all_ok state ns fr H) as (fr' & Hpush & Hmap).
  exists fr'. split; [exact Hpush|].
  intros x Hx. rewrite Hmap in Hx. now apply in_app_or.
Qed.

Lemma stack_push_items (fr : list State) ns (state : State) :
  Forall (fun n => State.parent n = Some state) ns ->
  exists fr',
    stack_push fr ns = Ok fr' /\
    forall x, In x fr' -> In x fr \/ In x ns.
Proof.
  intros _. exists (fr ++ sort_desc ns). split; [reflexivity|].
  intros x Hx. apply in_app_or in Hx. destruct Hx as [Hx|Hx]; [now left|].
  right. apply (Permutation_in _ (sort_desc_perm ns) Hx).
Qed.

(** *** The boards of a search *)

Lemma Forall_list_set {A : Type} (P : A -> Prop) (l : list A) i x :
  Forall P l -> P x -> Forall P (list_set l i x).
Proof.
  intros Hl Hx. revert i. induction Hl as [|a l Ha Hl' IH]; intros [|i]; cbn;
    constructor; auto.
Qed.

Lemma Forall2_list_set {A B : Type} (R : A -> B -> Prop) l0 l i x y :
  Forall2 R l0 l -> nth_error l i = Some y ->
  (forall a, R a y -> R a x) -> Forall2 R l0 (list_set l i x).
Proof.
  intros H. revert i. induction H as [|a b l0 l Hab Hl IH]; intros [|i] Hy Hx;
    cbn in *; try discriminate.
  - inversion Hy; subst. constructor; auto.
  - constructor; auto.
Qed.

Lemma in_bounds_slide board car v :
  in_bounds (Board.size board) car -> In v (slides board car) ->
  in_bounds (Board.size board) (Car.set_coord car v).
Proof.
  intros (Hfix & Hvar & Hlen & Hend) Hv. apply in_slides in Hv.
  unfold in_bounds. cbn. destruct Hv as [[Hv _]|(Hv & Hsz & _)]; lia.
Qed.

Lemma fleet_refl size cars : Forall (in_bounds size) cars -> fleet size cars cars.
Proof.
  intros H. split; [|exact H]. clear H.
  induction cars as [|c cars IH]; constructor; [now destruct c|exact IH].
Qed.

Lemma fleet_move board cars0 m :
  fleet (Board.size board) cars0 (Board.cars board) ->
  In m (moves board) ->
  fleet (Board.size board) cars0 (move_cars (Board.cars board) m).
Proof.
  intros [H2 Hin] Hm. destruct m as [[i car] v].
  apply in_moves in Hm. destruct Hm as [Hnth Hv]. cbn [move_cars].
  assert (Hcar : in_bounds (Board.size board) car).
  { rewrite Forall_forall in Hin. eapply Hin, nth_error_In, Hnth. }
  split.
  - apply (Forall2_list_set _ _ _ _ _ car); [exact H2|exact Hnth|].
    intros c0 ->. reflexivity.
  - apply Forall_list_set; [exact Hin|]. now apply in_bounds_slide.
Qed.

Lemma reachable_fleet b0 b :
  Forall (in_bounds (Board.size b0)) (Board.cars b0) ->
  reachable b0 b ->
  Board.name b = Board.name b0 /\ Board.size b = Board.size b0 /\
  fleet (Board.size b0) (Board.cars b0) (Board.cars b) /\
  (b = b0 \/
   b = new_Board (Board.name b0) (Board.size b0) (Board.cars b)).
Proof.
  intros H0. induction 1 as [|b m Hb (Hname & Hsize & Hfleet & _) Hm].
  - split; [reflexivity|]. split; [reflexivity|].
    split; [now apply fleet_refl|now left].
  - cbn. split; [exact Hname|]. split; [exact Hsize|]. split.
    + rewrite <- Hsize in *. now apply fleet_move.
    + right. now rewrite Hname, Hsize.
Qed.

Lemma in_all_placements size cars0 cars :
  fleet size cars0 cars -> In cars (all_placements size cars0).
Proof.
  intros [H2 Hin]. induction H2 as [|c0 c cars0 cars Hc _ IH]; cbn.
  - now left.
  - inversion Hin as [|? ? (Hfix & Hvar & Hlen & Hend) Hin']; subst.
    apply in_flat_map. exists (Car.var_coord c). split.
    + apply in_range. lia.
    + rewrite <- Hc. apply in_map. now apply IH.
Qed.

Section Nodes.

Variable b0 : Board.
Variable hfn : Heuristic.

Hypothesis six_rows : 6 <= Board.size b0.
Hypothesis cars_in_bounds :
  Forall (in_bounds (Board.size b0)) (Board.cars b0).
Hypothesis grids_square : forall b, reachable b0 b -> square b.
Hypothesis no_goal : forall b, reachable b0 b -> exit_cells b <> Ok true.
Hypothesis hfn_returns : forall b, reachable b0 b -> exists h, hfn b = Ok h.

Local Abbreviation node := (search_node construct_grid board_id b0 hfn).

Lemma node_not_goal s : node s -> is_goal s = Ok false.
Proof.
  intros (Hreach & _ & _). unfold is_goal.
  destruct (reachable_fleet _ _ cars_in_bounds Hreach) as (_ & Hsize & _).
  destruct (exit_cells_total (State.board s)) as [[|] Hg];
    [now apply grids_square|lia| |exact Hg].
  now apply no_goal in Hg.
Qed.

Lemma node_successors s :
  node s -> exists ns, get_successors s = Ok ns /\ Forall node ns.
Proof.
  intros (Hreach & Hhfn & Hid).
  destruct (reachable_fleet _ _ cars_in_bounds Hreach)
    as (_ & Hsize & (_ & Hin) & _).
  destruct (get_successors_total construct_grid board_id s) as [ns Hns].
  - now apply grids_square.
  - now rewrite Hsize.
  - intros m Hm. rewrite Hhfn. apply hfn_returns.
    now apply reachable_move.
  - exists ns. split; [exact Hns|].
    apply get_successors_moves in Hns. apply Forall_forall. intros n Hn.
    destruct (Forall2_In_r _ _ _ _ Hns Hn) as (m & Hm & h & _ & ->).
    split; [|split]; cbn; [|exact Hhfn|reflexivity].
    now apply reachable_move.
Qed.

Lemma node_id s :
  node s -> In (State.id s) (universe construct_grid board_id b0).
Proof.
  intros (Hreach & _ & ->).
  destruct (reachable_fleet _ _ cars_in_bounds Hreach)
    as (_ & _ & Hfleet & [->|Hshape]).
  - now left.
  - right. apply in_map_iff. exists (Board.cars (State.board s)).
    split; [f_equal; symmetry; exact Hshape|].
    now apply in_all_placements.
Qed.

Lemma nodes_exhaust {F : Type} (pop : F -> option (State * F)) push items :
  (forall fr s fr',
      pop fr = Some (s, fr') ->
      In s (items fr) /\
      (forall x, In x (items fr') -> In x (items fr)) /\
      (List.length (items fr') < List.length (items fr))%nat) ->
  (forall fr ns state,
      Forall (fun n => State.parent n = Some state) ns ->
      exists fr',
        push fr ns = Ok fr' /\
        forall x, In x (items fr') -> In x (items fr) \/ In x ns) ->
  forall fr ex,
    (forall s, In s (items fr) -> node s) ->
    exists fuel, search_loop pop push fuel fr ex = Some (Ok ([], -1)).
Proof.
  intros Hpop Hpush fr ex Hnodes.
  eapply (search_exhausts pop push items node
            (universe construct_grid board_id b0) Hpop Hpush
            node_not_goal node_successors node_id);
    [apply Nat.lt_succ_diag_r|apply Nat.lt_succ_diag_r|exact Hnodes].
Qed.

End Nodes.

(** C7.  Take an initial board of at least six rows with every vehicle
    inside the grid, such that every board reachable from it is square,
    fails the goal test, and gets a value from the heuristic.  Then
    [a_star] and [dfs] both return the empty path with cost -1 once they
    are given enough iterations: the frontier runs empty and nothing is
    raised. *)
Theorem unsolvable_terminates (init_board : Board) (hfn : Heuristic) :
  6 <= Board.size init_board ->
  Forall (in_bounds (Board.size init_board)) (Board.cars init_board) ->
  (forall b, reachable init_board b -> square b) ->
  (forall b, reachable init_board b -> exit_cells b <> Ok true) ->
  (forall b, reachable init_board b -> exists h, hfn b = Ok h) ->
  exists fuel,
    forall fuel', (fuel <= fuel')%nat ->
      a_star fuel' init_board hfn = Some (Ok ([], -1)) /\
      dfs fuel' init_board = Some (Ok ([], -1)).
Proof.
  intros H6 Hin Hsq Hng Hh.
  destruct (Hh init_board (reachable_init _ _)) as [h0 Hh0].
  destruct (nodes_exhaust init_board hfn H6 Hin Hsq Hng Hh
              heap_pop push_all (map snd) heap_pop_items push_all_items
              [((h0, board_id init_board, 0),
                new_State board_id init_board hfn h0 0 None)] [])
    as [fuel1 Hfuel1].
  { intros s [<-|[]]. repeat split. apply reachable_init. }
  destruct (nodes_exhaust init_board zero_heuristic H6 Hin Hsq Hng
              (fun b _ => ex_intro _ 0 eq_refl)
              list_pop stack_push (fun fr => fr) list_pop_items
              stack_push_items (dfs_init board_id init_board) [])
    as [fuel2 Hfuel2].
  { intros s [<-|[]]. repeat split. apply reachable_init. }
  exists (Nat.max fuel1 fuel2). intros fuel' Hfuel'. split.
  - unfold Solve.a_star, a_star_init. rewrite Hh0. cbn [bind heappush app].
    rewrite a_star_loop_search.
    eapply search_loop_mono; [exact Hfuel1|lia].
  - unfold Solve.dfs. rewrite dfs_loop_search.
    eapply search_loop_mono; [exact Hfuel2|lia].
Qed.

(** *** The instrumented search *)

Local Abbreviation a_star_node_expanded_loop :=
  (a_star_node_expanded_loop construct_grid board_id).
Local Abbreviation a_star_node_expanded :=
  (a_star_node_expanded construct_grid board_id).
Local Abbreviation a_star_pops := (a_star_pops construct_grid board_id).

Lemma get_path_nonempty state : get_path state <> [].
Proof.
  unfold get_path. destruct state as [b h f d p i]. cbn.
  intros E. apply app_eq_nil in E. destruct E as [_ E]. discriminate.
Qed.

Lemma counted_loop fuel : forall frontier explored count,
  match a_star_node_expanded_loop fuel frontier explored count with
  | None => a_star_loop fuel frontier explored = None
  | Some (Raise e) => a_star_loop fuel frontier explored = Some (Raise e)
  | Some (Ok (path, cost, k)) =>
      a_star_loop fuel frontier explored = Some (Ok (path, cost)) /\
      ((path = [] /\ cost = -1 /\ k = -1) \/
       (path <> [] /\
        a_star_pops fuel frontier explored = Some (k - count)))
  end.
Proof.
  induction fuel as [|fuel IH]; intros frontier explored count; cbn;
    [reflexivity|].
  unfold Solve.a_star_iter.
  destruct (heappop frontier) as [[[key state] rest]|]; [|now auto].
  destruct (negb (is_explored explored state)).
  - destruct (is_goal state) as [[|]|e]; [| |reflexivity].
    + split; [reflexivity|]. right. split; [apply get_path_nonempty|].
      f_equal. lia.
    + destruct (get_successors state) as [ns|e]; [|reflexivity].
      destruct (push_all rest ns) as [fr'|e]; [|reflexivity].
      specialize (IH fr' (explored ++ [state]) (count + 1)).
      destruct (a_star_node_expanded_loop fuel fr' _ _)
        as [[[[path cost] k]|e]|]; try exact IH.
      destruct IH as [Hrun Hk]. split; [exact Hrun|].
      destruct Hk as [Hk|[Hne Hk]]; [now left|right].
      split; [exact Hne|]. rewrite Hk. cbn. f_equal. lia.
  - specialize (IH rest explored (count + 1)).
    destruct (a_star_node_expanded_loop fuel rest _ _)
      as [[[[path cost] k]|e]|]; try exact IH.
    destruct IH as [Hrun Hk]. split; [exact Hrun|].
    destruct Hk as [Hk|[Hne Hk]]; [now left|right].
    split; [exact Hne|]. rewrite Hk. cbn. f_equal. lia.
Qed.

(** C9, as the code has it.  For every board, heuristic and number of
    iterations, [a_star_node_expanded] without its third component is
    [a_star]: the same path and cost, the same exception, or neither has
    returned yet.  When it returns a path, the third component is the
    number of nodes popped from the frontier, discarded ones included;
    when the frontier runs empty it returns the empty path, cost -1 and
    count -1. *)
Theorem a_star_node_expanded_spec (fuel : nat) (init_board : Board)
    (hfn : Heuristic) :
  a_star fuel init_board hfn
  = option_map drop_count (a_star_node_expanded fuel init_board hfn) /\
  forall path cost count,
    a_star_node_expanded fuel init_board hfn = Some (Ok (path, cost, count)) ->
    (path = [] /\ cost = -1 /\ count = -1) \/
    (path <> [] /\
     exists frontier,
       a_star_init board_id init_board hfn = Ok frontier /\
       a_star_pops fuel frontier [] = Some count).
Proof.
  unfold Solve.a_star, Solve.a_star_node_expanded.
  destruct (a_star_init board_id init_board hfn) as [frontier|e];
    [|split; [reflexivity|discriminate]].
  pose proof (counted_loop fuel frontier [] 0) as H.
  destruct (a_star_node_expanded_loop fuel frontier [] 0)
    as [[[[p c] k]|e]|]; cbn [option_map drop_count].
  - destruct H as [Hrun Hk]. split; [exact Hrun|].
    intros path cost count E. inversion E; subst.
    destruct Hk as [Hk|[Hne Hk]]; [now left|right].
    split; [exact Hne|]. exists frontier. split; [reflexivity|].
    rewrite Hk. f_equal. lia.
  - split; [exact H|discriminate].
  - split; [exact H|discriminate].
Qed.

End SearchProofs.

(** ** The statements on the example boards *)

Lemma square_board_of cars : square (board_of cars).
Proof.
  unfold square, board_of, new_Board, draw_grid. cbn [Board.grid Board.size].
  assert (Hlen : forall (A : Type) (f : Z -> A),
             Z.of_nat (List.length (map f (range 0 6))) = 6).
  { intros A f. rewrite length_map. reflexivity. }
  split; [apply Hlen|].
  apply Forall_forall. intros row Hrow. apply in_map_iff in Hrow.
  destruct Hrow as (r & <- & _). apply Hlen.
Qed.

Lemma jam_stuck_reachable b :
  reachable draw_grid jam_stuck b -> b = jam_stuck.
Proof.
  induction 1 as [|b m _ -> Hm]; [reflexivity|].
  vm_compute in Hm. destruct Hm.
Qed.

Example jam_pinned_grid :
  Board.grid jam_pinned
  = [["."; "."; "^"; "."; "."; "."];
     ["."; "."; "|"; "."; "."; "."];
     ["<"; ">"; "|"; "."; "."; "."];
     ["."; "."; "|"; "."; "."; "."];
     ["."; "."; "v"; "."; "."; "."];
     ["."; "."; "<"; ">"; "."; "."]].
Proof. reflexivity. Qed.

Example jam_pinned_values :
  blocking_heuristic jam_pinned = Ok 2 /\ advanced_heuristic jam_pinned = Ok 3.
Proof. split; reflexivity. Qed.

Example jam_stuck_grid :
  Board.grid jam_stuck
  = [["."; "."; "."; "."; "."; "."];
     ["."; "."; "."; "."; "."; "."];
     ["<"; ">"; "<"; "-"; "-"; ">"];
     ["."; "."; "."; "."; "."; "."];
     ["."; "."; "."; "."; "."; "."];
     ["."; "."; "."; "."; "."; "."]].
Proof. reflexivity. Qed.

Example jam_stuck_run :
  a_star_node_expanded draw_grid grid_code 2 jam_stuck blocking_heuristic
  = Some (Ok ([], -1, -1)) /\
  a_star draw_grid grid_code 2 jam_stuck blocking_heuristic
  = Some (Ok ([], -1)) /\
  dfs draw_grid grid_code 2 jam_stuck = Some (Ok ([], -1)).
Proof. repeat split; reflexivity. Qed.

Example jam_solved_run :
  a_star draw_grid grid_code 1 jam_solved blocking_heuristic
  = Some (Ok ([new_State grid_code jam_solved blocking_heuristic 0 0 None], 0)) /\
  dfs draw_grid grid_code 1 jam_solved
  = Some (Ok ([new_State grid_code jam_solved zero_heuristic 0 0 None], 0)).
Proof. split; reflexivity. Qed.

Lemma advanced_ge_blocking_witness :
  2 <= 3 /\ advanced_heuristic jam_pinned = advanced_heuristic jam_pinned_renamed.
Proof.
  split.
  - apply (proj1 advanced_ge_blocking jam_pinned); reflexivity.
  - apply (proj2 advanced_ge_blocking jam_pinned jam_pinned_renamed);
      [apply square_board_of|apply (square_board_of (Board.cars jam_pinned))
      |reflexivity|reflexivity].
Defined.


Lemma heuristics_need_exit_glyph_witness :
  (blocking_heuristic jam_empty = Raise ValueError /\
   advanced_heuristic jam_empty = Raise ValueError) /\
  (exists n m,
      blocking_heuristic jam_lorry = Ok n /\ 0 <= n /\
      advanced_heuristic jam_lorry = Ok m /\ 0 <= m).
Proof.
  split.
  - apply (proj1 (heuristics_need_exit_glyph jam_empty)
             ["."; "."; "."; "."; "."; "."]); reflexivity.
  - apply (proj2 (heuristics_need_exit_glyph jam_lorry)
             ["<"; ">"; "."; "^"; "."; "."] 1%nat);
      [apply square_board_of|cbn; lia|reflexivity|reflexivity].
Defined.

Lemma successors_are_slides_witness :
  Forall2 (fun (m : Move) s =>
             let '(i, car, v) := m in
             moved (Board.cars jam_lorry) i car v (Board.cars (State.board s)))
          (moves jam_lorry) jam_lorry_successors /\
  In (1%nat, Car.mk Vertical 3 2 3, 0) (moves jam_lorry) /\
  exists l, get_successors draw_grid grid_code jam_lorry_state = Ok l.
Proof.
  assert (Hpos : Forall (fun car => 0 <= Car.fix_coord car /\
                                    0 <= Car.var_coord car /\
                                    0 <= Car.length car)
                        (Board.cars (State.board jam_lorry_state))).
  { repeat constructor; cbn; lia. }
  destruct (successors_are_slides draw_grid grid_code jam_lorry_state Hpos)
    as (Hl & _ & Hm & Htotal).
  split; [apply Hl; reflexivity|]. split.
  - apply Hm. split; [reflexivity|]. left. split; [cbn; lia|].
    intros k Hk. cbn in Hk.
    assert (E : k = 0 \/ k = 1) by lia. destruct E as [->| ->]; reflexivity.
  - apply Htotal.
    + apply square_board_of.
    + repeat constructor; cbn; lia.
    + intros i car v cars' _ _. exists 0. reflexivity.
Defined.

Lemma successor_fields_witness :
  In jam_free_first jam_free_successors /\
  State.depth jam_free_first = State.depth jam_free_state + 1 /\
  State.parent jam_free_first = Some jam_free_state.
Proof.
  assert (Hin : In jam_free_first jam_free_successors) by (left; reflexivity).
  split; [exact Hin|].
  destruct (successor_fields draw_grid grid_code jam_free_state
              jam_free_successors jam_free_first eq_refl Hin)
    as (i & car & v & h & _ & _ & _ & _ & _ & _ & Hd & _ & _ & _ & Hp & _).
  split; [exact Hd|exact Hp].
Defined.

Lemma no_duplicate_expansion_witness :
  a_star_iter draw_grid grid_code
    [((0, 0, 0), jam_free_state)] [jam_free_state]
  = Next [] [jam_free_state] /\
  dfs_iter draw_grid grid_code [jam_free_state] []
  = Next ([] ++ sort_desc jam_free_successors) ([] ++ [jam_free_state]).
Proof.
  split.
  - apply (proj1 (proj2 (proj2 (no_duplicate_expansion draw_grid grid_code)))
             [((0, 0, 0), jam_free_state)] [jam_free_state] (0, 0, 0)
             jam_free_state []); reflexivity.
  - apply (proj2 (proj2 (proj2 (proj2 (proj2
             (no_duplicate_expansion draw_grid grid_code)))))
             [jam_free_state] [] jam_free_state [] jam_free_successors);
      reflexivity.
Defined.

Lemma unsolvable_terminates_witness :
  exists fuel,
    forall fuel', (fuel <= fuel')%nat ->
      a_star draw_grid grid_code fuel' jam_stuck blocking_heuristic
      = Some (Ok ([], -1)) /\
      dfs draw_grid grid_code fuel' jam_stuck = Some (Ok ([], -1)).
Proof.
  apply (unsolvable_terminates draw_grid grid_code jam_stuck
           blocking_heuristic).
  - cbn. lia.
  - repeat constructor; cbn; lia.
  - intros b Hb. rewrite (jam_stuck_reachable b Hb). apply square_board_of.
  - intros b Hb. rewrite (jam_stuck_reachable b Hb). discriminate.
  - intros b Hb. rewrite (jam_stuck_reachable b Hb). exists 5. reflexivity.
Defined.

Lemma dfs_stack_order_witness :
  (exists fr ex,
      iterates (dfs_iter draw_grid grid_code) [jam_free_state] [] fr ex /\
      dfs_iter draw_grid grid_code fr ex = Done (Ok jam_free_dfs_solution)) /\
  sort_desc (rev jam_lorry_successors) = sort_desc jam_lorry_successors /\
  exists n rest',
    list_pop ([] ++ sort_desc jam_lorry_successors) = Some (n, rest') /\
    In n jam_lorry_successors /\
    forall x, In x jam_lorry_successors -> State.id n <= State.id x.
Proof.
  split.
  - apply (proj1 (dfs_stack_order draw_grid grid_code jam_free)).
    exists 5%nat. reflexivity.
  - destruct (proj1 (proj2 (proj2 (proj2 (proj2
                (dfs_stack_order draw_grid grid_code jam_lorry)))))
                [jam_lorry_state] [] jam_lorry_state [] jam_lorry_successors
                eq_refl eq_refl eq_refl eq_refl)
      as (_ & _ & _ & Hsame & Hleast).
    split.
    + apply Hsame; [symmetry; apply Permutation_rev|].
      vm_compute. repeat constructor; cbn; intuition discriminate.
    + apply Hleast. discriminate.
Defined.

Lemma a_star_node_expanded_spec_witness :
  a_star draw_grid grid_code 5 jam_free blocking_heuristic
  = option_map drop_count
      (a_star_node_expanded draw_grid grid_code 5 jam_free blocking_heuristic).
Proof.
  apply (proj1 (a_star_node_expanded_spec draw_grid grid_code 5 jam_free
                  blocking_heuristic)).
Defined.

(** C9 as stated fails: on [jam_stuck] the search pops one node and finds
    the frontier empty, and the count returned is -1. *)
Lemma counts_pops_fails :
  ~ counts_pops draw_grid grid_code jam_stuck blocking_heuristic.
Proof.
  intros H.
  destruct (H 2%nat [] (-1) (-1)
              [((5, grid_code jam_stuck, 0),
                new_State grid_code jam_stuck blocking_heuristic 5 0 None)]
              eq_refl eq_refl) as [_ Hpops].
  vm_compute in Hpops. discriminate Hpops.
Qed.

(** * Further properties *)

(** ** Bounds of the heuristics *)

Lemma blocking_loop_le exitRow idx count n :
  blocking_loop exitRow idx count = Ok n ->
  n <= count + Z.of_nat (List.length idx).
Proof.
  revert count. induction idx as [|i idx IH]; intros count H; cbn in H.
  - inversion H. cbn. lia.
  - destruct (py_index exitRow i) as [c|e]; cbn in H; [|discriminate].
    apply IH in H. cbn [List.length]. destruct (neq c "."); lia.
Qed.

Lemma length_range lo hi : List.length (range lo hi) = Z.to_nat (hi - lo).
Proof. unfold range. now rewrite length_map, length_seq. Qed.

(** X1.  Whatever [blocking_heuristic] returns lies between 0 and the width
    of the board (and is 1 at most on a board of no width). *)
Theorem blocking_heuristic_range (board : Board) (n : Z) :
  blocking_heuristic board = Ok n -> 0 <= n <= Z.max 1 (Board.size board).
Proof.
  unfold blocking_heuristic, py_list_index. intros H.
  destruct (exit_cells board) as [[|]|]; cbn [bind] in H; try discriminate.
  - inversion H. lia.
  - destruct (py_index (Board.grid board) 2) as [row|]; [|discriminate].
    cbn [bind] in H.
    destruct (index_of ">" row) as [j|]; [|discriminate]. cbn [bind] in H.
    pose proof (blocking_loop_ge _ _ _ _ H) as Hlo.
    pose proof (blocking_loop_le _ _ _ _ H) as Hhi.
    rewrite length_range in Hhi. lia.
Qed.

Lemma index_of_first x l : forall j,
  index_of x l = Some j <->
  nth_error l j = Some x /\
  forall k, (k < j)%nat -> nth_error l k <> Some x.
Proof.
  induction l as [|c l IH]; intros j; cbn [index_of].
  - split; [discriminate|]. intros [H _]. now destruct j.
  - destruct (Ascii.eqb_spec c x) as [->|Hne].
    + split.
      * intros H. inversion H. split; [reflexivity|]. intros k Hk. lia.
      * intros [_ Hfirst]. destruct j as [|j]; [reflexivity|].
        exfalso. apply (Hfirst O); [lia|reflexivity].
    + destruct j as [|j].
      * split.
        -- destruct (index_of x l); discriminate.
        -- intros [H _]. cbn in H. congruence.
      * specialize (IH j). split.
        -- intros H. destruct (index_of x l) as [j'|]; [|discriminate].
           inversion H; subst j'. destruct (proj1 IH eq_refl) as [Hj Hfirst].
           split; [exact Hj|]. intros [|k] Hk; cbn; [congruence|].
           apply Hfirst. lia.
        -- intros [Hj Hfirst]. cbn in Hj.
           rewrite (proj2 IH); [reflexivity|].
           split; [exact Hj|]. intros k Hk. apply (Hfirst (S k)). lia.
Qed.

Lemma py_index_row board (r : nat) row :
  py_index (Board.grid board) (Z.of_nat r) = Ok row <->
  nth_error (Board.grid board) r = Some row.
Proof.
  rewrite py_index_nat.
  destruct (nth_error (Board.grid board) r); split; congruence.
Qed.

(** X19.  [blocking_heuristic] returns 0 exactly on the boards that pass
    the goal test.  On a board that fails it, every value returned is at
    least 1, and the exit row then holds a [">"].  When the exit row is
    [size] cells long and its first [">"] is at column [j], the value is 1
    plus the number of cells right of column [j] that are not free; this is
    the value of the specification for a vehicle whose last cell is that
    column. *)
Theorem blocking_heuristic_spec (state : State) :
  let board := State.board state in
  (blocking_heuristic board = Ok 0 <-> is_goal state = Ok true) /\
  (forall n,
      is_goal state = Ok false -> blocking_heuristic board = Ok n ->
      1 <= n /\
      exists exitRow j,
        nth_error (Board.grid board) 2 = Some exitRow /\
        nth_error exitRow j = Some ">") /\
  (forall exitRow j,
      is_goal state = Ok false ->
      nth_error (Board.grid board) 2 = Some exitRow ->
      Z.of_nat (List.length exitRow) = Board.size board ->
      nth_error exitRow j = Some ">" ->
      (forall k, (k < j)%nat -> nth_error exitRow k <> Some ">") ->
      blocking_heuristic board
      = Ok (1 + Z.of_nat
                  (List.length
                     (filter (fun c => negb (Ascii.eqb c "."))
                             (skipn (S j) exitRow)))) /\
      forall car,
        Car.var_coord car + Car.length car = Z.of_nat (S j) ->
        blocking_heuristic board = Ok (blocking_as_specified board car)).
Proof.
  intros board. unfold is_goal. fold board.
  assert (Hge : forall n, exit_cells board = Ok false ->
                          blocking_heuristic board = Ok n ->
                          1 <= n /\
                          exists exitRow j,
                            nth_error (Board.grid board) 2 = Some exitRow /\
                            nth_error exitRow j = Some ">").
  { intros n Hg H. unfold blocking_heuristic in H. rewrite Hg in H.
    cbn [bind] in H.
    destruct (py_index (Board.grid board) 2) as [row|] eqn:Hrow;
      [|discriminate].
    cbn [bind] in H. unfold py_list_index in H.
    destruct (index_of ">" row) as [j|] eqn:Hj; [|discriminate].
    cbn [bind] in H. apply blocking_loop_ge in H.
    split; [exact H|]. exists row, j. split.
    - now apply (py_index_row board 2).
    - now apply index_of_first in Hj. }
  split; [|split].
  - split; intros H.
    + destruct (exit_cells board) as [[|]|e] eqn:Hg; [reflexivity| |].
      * destruct (Hge 0 eq_refl H) as [H0 _]. lia.
      * unfold blocking_heuristic in H. rewrite Hg in H. discriminate.
    + unfold blocking_heuristic. now rewrite H.
  - exact Hge.
  - intros exitRow j Hg Hrow Hlen Hj Hfirst.
    assert (E : blocking_heuristic board
                = Ok (1 + Z.of_nat
                            (List.length
                               (filter (fun c => negb (Ascii.eqb c "."))
                                       (skipn (S j) exitRow))))).
    { apply (blocking_value board exitRow j Hg); [|exact Hlen|].
      - now apply (py_index_row board 2).
      - apply index_of_first. now split. }
    split; [exact E|]. intros car Hcar. rewrite E.
    unfold blocking_as_specified. rewrite Hcar, Nat2Z.id.
    now rewrite (nth_error_nth _ _ _ Hrow).
Qed.

Lemma incr_if_le b n : incr_if b n <= n + 1.
Proof. unfold incr_if. destruct b; lia. Qed.

Lemma advanced_body_le board i n v :
  advanced_body board i n = Ok (Some v) -> v <= n + 3.
Proof.
  unfold advanced_body. intros H.
  destruct (cell board 2 i) as [c|]; [|discriminate]. cbn [bind] in H.
  destruct (neq c "."); [|discriminate].
  destruct (can_clear_up board i) as [up|]; [|discriminate]. cbn [bind] in H.
  destruct (if up then _ else _) as [u|]; [|discriminate]. cbn [bind] in H.
  destruct (cell board 3 i) as [r3|]; [|discriminate].
  destruct (cell board 4 i) as [r4|]; [|discriminate].
  destruct (cell board 5 i) as [r5|]; [|discriminate].
  cbn [bind] in H. inversion H.
  pose proof (incr_if_le (bot_glyph r5)
                (incr_if (bot_glyph r4) (incr_if (bot_glyph r3) 0))).
  pose proof (incr_if_le (bot_glyph r4) (incr_if (bot_glyph r3) 0)).
  pose proof (incr_if_le (bot_glyph r3) 0). lia.
Qed.

Lemma advanced_loop_le board idx n m :
  advanced_loop board idx n = Ok m -> m <= n + 3.
Proof.
  induction idx as [|i idx IH]; cbn; intros H.
  - inversion H. lia.
  - destruct (advanced_body board i n) as [[v|]|] eqn:E; cbn [bind] in H;
      try discriminate.
    + inversion H. subst. now apply advanced_body_le in E.
    + now apply IH.
Qed.

(** X2.  The advanced heuristic never exceeds the blocking heuristic by
    more than 3: the term it adds is bounded by the three cells below the
    exit row. *)
Theorem advanced_at_most_three_more (board : Board) (x y : Z) :
  blocking_heuristic board = Ok x -> advanced_heuristic board = Ok y ->
  y <= x + 3.
Proof.
  intros Hx Hy. unfold advanced_heuristic in Hy.
  rewrite Hx in Hy. cbn [bind] in Hy.
  destruct (py_index (Board.grid board) 2) as [row|]; [|discriminate].
  cbn [bind] in Hy.
  destruct (py_list_index ">" row) as [j|]; [|discriminate].
  cbn [bind] in Hy. now apply advanced_loop_le in Hy.
Qed.

Lemma blocking_loop_all_free exitRow idx count :
  blocking_loop exitRow idx count = Ok count ->
  Forall (fun i => py_index exitRow i = Ok ".") idx.
Proof.
  revert count. induction idx as [|i idx IH]; intros count H; cbn in H;
    [constructor|].
  destruct (py_index exitRow i) as [c|e] eqn:E; cbn in H; [|discriminate].
  unfold neq in H. destruct (Ascii.eqb_spec c ".") as [->|Hc]; cbn in H.
  - constructor; [exact E|]. now apply (IH count).
  - apply blocking_loop_ge in H. lia.
Qed.

Lemma advanced_loop_all_free board exitRow idx n :
  py_index (Board.grid board) 2 = Ok exitRow ->
  Forall (fun i => py_index exitRow i = Ok ".") idx ->
  advanced_loop board idx n = Ok n.
Proof.
  intros Hrow. induction 1 as [|i idx Hi _ IH]; cbn; [reflexivity|].
  unfold advanced_body, cell. rewrite Hrow. cbn [bind]. rewrite Hi.
  cbn [bind]. exact IH.
Qed.

(** X3.  On a board that fails the goal test, the advanced heuristic is 1
    exactly when the blocking heuristic is 1, that is when nothing stands
    between the exit vehicle and the edge. *)
Theorem advanced_one_iff_unblocked (board : Board) :
  exit_cells board = Ok false ->
  (advanced_heuristic board = Ok 1 <-> blocking_heuristic board = Ok 1).
Proof.
  intros Hg. split; intros H.
  - unfold advanced_heuristic in H.
    destruct (blocking_heuristic board) as [x|] eqn:Hx; [|discriminate].
    cbn [bind] in H.
    destruct (py_index (Board.grid board) 2) as [row|]; [|discriminate].
    cbn [bind] in H.
    destruct (py_list_index ">" row) as [j|]; [|discriminate].
    cbn [bind] in H. apply advanced_loop_ge in H.
    unfold blocking_heuristic in Hx. rewrite Hg in Hx. cbn [bind] in Hx.
    destruct (py_index (Board.grid board) 2) as [row'|]; [|discriminate].
    cbn [bind] in Hx.
    destruct (py_list_index ">" row') as [j'|]; [|discriminate].
    cbn [bind] in Hx. apply blocking_loop_ge in Hx.
    f_equal. lia.
  - pose proof H as Hb. unfold blocking_heuristic in Hb.
    rewrite Hg in Hb. cbn [bind] in Hb.
    unfold advanced_heuristic. rewrite H. cbn [bind].
    destruct (py_index (Board.grid board) 2) as [row|] eqn:Hrow;
      [|discriminate].
    cbn [bind] in *.
    destruct (py_list_index ">" row) as [j|]; [|discriminate].
    cbn [bind] in *. apply blocking_loop_all_free in Hb.
    now apply (advanced_loop_all_free board row).
Qed.

(** X4.  The advanced heuristic is 0 only on boards that pass the goal
    test; and it is 0 on such a board when the first [">"] of the exit row
    is the one at column 5 and the board is at most six cells wide. *)
Theorem advanced_zero_goal (board : Board) :
  (advanced_heuristic board = Ok 0 -> exit_cells board = Ok true) /\
  (forall exitRow,
      exit_cells board = Ok true ->
      py_index (Board.grid board) 2 = Ok exitRow ->
      index_of ">" exitRow = Some 5%nat ->
      Board.size board <= 6 ->
      advanced_heuristic board = Ok 0).
Proof.
  split.
  - intros H. unfold advanced_heuristic in H.
    destruct (blocking_heuristic board) as [x|] eqn:Hx; [|discriminate].
    cbn [bind] in H.
    destruct (py_index (Board.grid board) 2) as [row|]; [|discriminate].
    cbn [bind] in H.
    destruct (py_list_index ">" row) as [j|]; [|discriminate].
    cbn [bind] in H. apply advanced_loop_ge in H.
    unfold blocking_heuristic in Hx.
    destruct (exit_cells board) as [[|]|]; [reflexivity| |discriminate].
    cbn [bind] in Hx.
    destruct (py_index (Board.grid board) 2) as [row'|]; [|discriminate].
    cbn [bind] in Hx.
    destruct (py_list_index ">" row') as [j'|]; [|discriminate].
    cbn [bind] in Hx. apply blocking_loop_ge in Hx. lia.
  - intros exitRow Hg Hrow Hj Hsz.
    unfold advanced_heuristic, blocking_heuristic, py_list_index.
    rewrite Hg. cbn [bind]. rewrite Hrow. cbn [bind]. rewrite Hj.
    cbn [bind]. rewrite range_nil by lia. reflexivity.
Qed.

(** ** Boards that are too small *)

Lemma nth_error_short {A : Type} (l : list A) (k : nat) :
  (List.length l <= k)%nat -> nth_error l k = None.
Proof. apply nth_error_None. Qed.

(** X5.  The goal test reads row 2 at columns 4 and 5 and nothing else.  It
    raises [IndexError] on a grid of fewer than three rows or an exit row of
    fewer than five cells.  On an exit row of exactly five cells the second
    comparison is reached only when cell 4 is ["<"]: the test is then an
    [IndexError], and [False] otherwise.  On longer rows it is the
    conjunction of the two comparisons. *)
Theorem is_goal_cases (state : State) :
  let g := Board.grid (State.board state) in
  ((List.length g < 3)%nat -> is_goal state = Raise IndexError) /\
  (forall row,
      nth_error g 2 = Some row ->
      ((List.length row < 5)%nat -> is_goal state = Raise IndexError) /\
      (List.length row = 5%nat ->
       is_goal state = if Ascii.eqb (nth 4 row ".") "<"
                       then Raise IndexError else Ok false) /\
      ((6 <= List.length row)%nat ->
       is_goal state = Ok (Ascii.eqb (nth 4 row ".") "<"
                           && Ascii.eqb (nth 5 row ".") ">"))).
Proof.
  intros g. unfold is_goal, exit_cells, cell. fold g.
  rewrite !(py_index_lit g 2 2 eq_refl). split.
  - intros Hlen. now rewrite nth_error_short by lia.
  - intros row Hrow. rewrite Hrow. cbn [bind].
    rewrite (py_index_lit row 4 4 eq_refl), (py_index_lit row 5 5 eq_refl).
    split; [|split]; intros Hlen.
    + now rewrite nth_error_short by lia.
    + rewrite (nth_error_nth' row ".") by lia. cbn [bind].
      destruct (Ascii.eqb (nth 4 row ".") "<"); [|reflexivity].
      now rewrite nth_error_short by lia.
    + rewrite (nth_error_nth' row "." (n := 4)) by lia. cbn [bind].
      rewrite (nth_error_nth' row "." (n := 5)) by lia.
      destruct (Ascii.eqb (nth 4 row ".") "<"); reflexivity.
Qed.

Lemma cell_row_missing board r i :
  Z.of_nat (List.length (Board.grid board)) <= r ->
  cell board r i = Raise IndexError.
Proof.
  intros H. unfold cell.
  rewrite (py_index_lit _ (Z.to_nat r) r) by lia.
  now rewrite nth_error_short by lia.
Qed.

Lemma advanced_body_five board i n :
  square board -> Board.size board = 5 -> Z.of_nat i < 5 ->
  advanced_body board (Z.of_nat i) n
  = if neq (glyph_at board 2 i) "." then Raise IndexError else Ok None.
Proof.
  intros Hsq H5 Hi. pose proof Hsq as [Hrows _].
  unfold advanced_body, can_clear_up.
  rewrite (cell_row_missing board 5) by lia.
  rewrite (cell_glyph board 0), (cell_glyph board 1), (cell_glyph board 2),
    (cell_glyph board 3), (cell_glyph board 4) by (assumption || lia).
  cbn [bind]. rewrite Nat2Z.id. change (Z.to_nat 2) with 2%nat.
  destruct (neq (glyph_at board 2 i) "."); [|reflexivity].
  destruct (neq (glyph_at board 2 i) "|"); cbn [bind]; [|reflexivity].
  destruct (neq (glyph_at board 2 i) "v"); cbn [bind];
    [|destruct (neq (glyph_at board (Z.to_nat 1) i) "|"); cbn [bind]];
    (destruct (neq (glyph_at board 2 i) "^"); cbn [bind];
     [|destruct (neq (glyph_at board (Z.to_nat 3) i) "|"); cbn [bind]]);
    reflexivity.
Qed.

Lemma advanced_loop_five board n : forall l,
  square board -> Board.size board = 5 ->
  Forall (fun i => Z.of_nat i < 5) l ->
  advanced_loop board (map Z.of_nat l) n
  = match find (fun i => neq (glyph_at board 2 i) ".") l with
    | Some _ => Raise IndexError
    | None => Ok n
    end.
Proof.
  intros l Hsq H5. induction l as [|i l IH]; intros Hl; [reflexivity|].
  inversion Hl as [|? ? Hi Hl']; subst.
  cbn [map advanced_loop find].
  rewrite advanced_body_five by assumption.
  destruct (neq (glyph_at board 2 i) "."); cbn [bind]; [reflexivity|].
  now apply IH.
Qed.

(** X6.  On a square board of five rows the advanced heuristic raises
    [IndexError] as soon as a cell of the exit row right of the first [">"]
    is not free, because it then reads row 5; with nothing in the way it
    returns the value of the blocking heuristic. *)
Theorem advanced_needs_six_rows (board : Board) exitRow j n :
  square board -> Board.size board = 5 ->
  py_index (Board.grid board) 2 = Ok exitRow ->
  index_of ">" exitRow = Some j ->
  blocking_heuristic board = Ok n ->
  advanced_heuristic board
  = match first_blocker board j with
    | Some _ => Raise IndexError
    | None => Ok n
    end.
Proof.
  intros Hsq H5 Hrow Hj Hn.
  rewrite (advanced_unfold board exitRow j n Hsq Hrow Hj Hn).
  unfold first_blocker. apply advanced_loop_five; [exact Hsq|exact H5|].
  rewrite <- H5. apply columns_in_grid.
Qed.

(** X7.  Informed search evaluates the heuristic on the initial board before
    anything else: on a board that fails the goal test and has no [">"] in
    its exit row, [a_star] and [a_star_node_expanded] raise [ValueError]
    with either heuristic, whatever the number of iterations allowed. *)
Theorem a_star_needs_exit_glyph construct_grid board_id (board : Board)
    exitRow (fuel : nat) :
  exit_cells board = Ok false ->
  py_index (Board.grid board) 2 = Ok exitRow ->
  index_of ">" exitRow = None ->
  a_star construct_grid board_id fuel board blocking_heuristic
  = Some (Raise ValueError) /\
  a_star construct_grid board_id fuel board advanced_heuristic
  = Some (Raise ValueError) /\
  a_star_node_expanded construct_grid board_id fuel board blocking_heuristic
  = Some (Raise ValueError) /\
  a_star_node_expanded construct_grid board_id fuel board advanced_heuristic
  = Some (Raise ValueError).
Proof.
  intros Hg Hrow Hnone.
  assert (Hb : blocking_heuristic board = Raise ValueError).
  { unfold blocking_heuristic, py_list_index.
    rewrite Hg. cbn [bind]. rewrite Hrow. cbn [bind]. now rewrite Hnone. }
  assert (Ha : advanced_heuristic board = Raise ValueError).
  { unfold advanced_heuristic. now rewrite Hb. }
  unfold a_star, a_star_node_expanded, a_star_init.
  rewrite Hb, Ha. cbn [bind]. repeat split.
Qed.

(** ** What the generator keeps *)

Lemma NoDup_map_inj_on {A B : Type} (f : A -> B) (l : list A) :
  (forall x y, In x l -> In y l -> f x = f y -> x = y) ->
  NoDup l -> NoDup (map f l).
Proof.
  intros Hinj Hl. induction Hl as [|a l Ha Hl IH]; cbn; constructor.
  - rewrite in_map_iff. intros (x & Hx & Hin).
    apply Hinj in Hx; [|now right|now left]. now subst.
  - apply IH. intros x y Hx Hy. apply Hinj; now right.
Qed.

Lemma move_cars_inj board m1 m2 :
  In m1 (moves board) -> In m2 (moves board) ->
  move_cars (Board.cars board) m1 = move_cars (Board.cars board) m2 ->
  m1 = m2.
Proof.
  destruct m1 as [[i1 c1] v1], m2 as [[i2 c2] v2]. intros H1 H2 E.
  apply in_moves in H1. destruct H1 as [Hn1 Hv1].
  apply in_moves in H2. destruct H2 as [Hn2 Hv2].
  apply in_slides in Hv1. cbn [move_cars] in E.
  assert (Hi1 : (i1 < List.length (Board.cars board))%nat).
  { apply nth_error_Some. now rewrite Hn1. }
  pose proof (nth_error_list_set_eq (Board.cars board) i1
                (Car.set_coord c1 v1) Hi1) as Hl.
  rewrite E in Hl. destruct (Nat.eq_dec i1 i2) as [<-|Hne].
  - rewrite nth_error_list_set_eq in Hl by exact Hi1.
    assert (c2 = c1) by congruence. subst c2.
    inversion Hl. reflexivity.
  - rewrite nth_error_list_set_ne in Hl by exact Hne.
    rewrite Hn1 in Hl. inversion Hl as [Hc].
    apply (f_equal Car.var_coord) in Hc. cbn in Hc. lia.
Qed.

Lemma move_cars_changes board m :
  In m (moves board) -> move_cars (Board.cars board) m <> Board.cars board.
Proof.
  destruct m as [[i c] v]. intros H E.
  apply in_moves in H. destruct H as [Hn Hv]. apply in_slides in Hv.
  assert (Hi : (i < List.length (Board.cars board))%nat).
  { apply nth_error_Some. now rewrite Hn. }
  pose proof (nth_error_list_set_eq (Board.cars board) i
                (Car.set_coord c v) Hi) as Hl.
  cbn [move_cars] in E. rewrite E, Hn in Hl. inversion Hl as [Hc].
  apply (f_equal Car.var_coord) in Hc. cbn in Hc. lia.
Qed.

(** X8.  The successors of a state have pairwise different vehicle lists,
    and none of them is the vehicle list of the state itself: the generator
    never emits a position twice and never emits a null move. *)
Theorem successors_distinct construct_grid board_id (state : State)
    (l : list State) :
  get_successors construct_grid board_id state = Ok l ->
  NoDup (map (fun s => Board.cars (State.board s)) l) /\
  ~ In (Board.cars (State.board state))
       (map (fun s => Board.cars (State.board s)) l).
Proof.
  intros H. apply get_successors_moves in H.
  assert (E : map (fun s => Board.cars (State.board s)) l
              = map (move_cars (Board.cars (State.board state)))
                    (moves (State.board state))).
  { induction H as [|m s ms l Hs _ IH]; cbn; [reflexivity|].
    f_equal; [|exact IH]. now apply (successor_cars construct_grid board_id). }
  rewrite E. split.
  - apply NoDup_map_inj_on; [|apply NoDup_moves].
    intros m1 m2. apply move_cars_inj.
  - rewrite in_map_iff. intros (m & Hm & Hin).
    now apply (move_cars_changes (State.board state) m).
Qed.



(** ** Paths *)

Lemma ancestors_shorter : forall n s,
  List.length (ancestors s) = n ->
  forall a, In a (tl (ancestors s)) ->
            (List.length (ancestors a) < n)%nat.
Proof.
  induction n as [|n IH]; intros s Hlen a Ha; rewrite ancestors_eq in Hlen, Ha;
    cbn in Hlen, Ha; [discriminate|].
  destruct (State.parent s) as [q|]; [|destruct Ha].
  injection Hlen as Hlen. rewrite ancestors_eq in Ha. destruct Ha as [<-|Ha].
  - lia.
  - specialize (IH q Hlen a). rewrite (ancestors_eq q) in IH. cbn in IH.
    specialize (IH Ha). lia.
Qed.

Lemma ancestors_NoDup : forall n s,
  List.length (ancestors s) = n -> NoDup (ancestors s).
Proof.
  induction n as [|n IH]; intros s Hlen.
  - rewrite ancestors_eq in Hlen. discriminate.
  - pose proof (ancestors_shorter _ s Hlen s) as Hs.
    assert (Htl : tl (ancestors s) = match State.parent s with
                                     | None => []
                                     | Some p => ancestors p
                                     end).
    { now rewrite ancestors_eq. }
    rewrite Htl in Hs. pose proof Hlen as Hlen'.
    rewrite ancestors_eq in Hlen. cbn in Hlen.
    rewrite ancestors_eq. constructor.
    + intros Hin. specialize (Hs Hin). lia.
    + destruct (State.parent s) as [q|]; [|constructor].
      apply IH. lia.
Qed.

Lemma linked_snoc (R : State -> State -> Prop) l p s :
  linked R (l ++ [p]) -> R p s -> linked R ((l ++ [p]) ++ [s]).
Proof.
  induction l as [|a l IH]; intros Hl HR.
  - cbn. auto.
  - destruct l as [|b l].
    + cbn in *. tauto.
    + cbn [app linked] in *. destruct Hl as [Hab Hl]. split; [exact Hab|].
      now apply IH.
Qed.

(** X10.  [get_path] of any node is the chain of its [parent] links, oldest
    first: it starts at a node without parent, every node is followed by a
    node whose parent it is, it ends in the node itself, no node occurs
    twice, and its length is the number of nodes on the chain. *)
Theorem get_path_structure (state : State) :
  (exists root tail,
      get_path state = root :: tail /\ State.parent root = None) /\
  linked (fun a b => State.parent b = Some a) (get_path state) /\
  last (get_path state) state = state /\
  NoDup (get_path state) /\
  List.length (get_path state) = List.length (ancestors state).
Proof.
  split; [|split; [|split; [|split]]].
  - remember (List.length (ancestors state)) as n eqn:Hn.
    revert state Hn. induction n as [|n IH]; intros state Hn;
      rewrite ancestors_eq in Hn; cbn in Hn; [discriminate|].
    destruct (State.parent state) as [p|] eqn:Hp.
    + destruct (IH p) as (root & tail & Hpath & Hroot); [lia|].
      rewrite (get_path_parent _ _ Hp), Hpath.
      exists root, (tail ++ [state]). now split.
    + rewrite (get_path_root _ Hp). now exists state, [].
  - remember (List.length (ancestors state)) as n eqn:Hn.
    revert state Hn. induction n as [|n IH]; intros state Hn;
      rewrite ancestors_eq in Hn; cbn in Hn; [discriminate|].
    destruct (State.parent state) as [p|] eqn:Hp.
    + rewrite (get_path_parent _ _ Hp).
      destruct (get_path_last p) as [l Hl]. rewrite Hl.
      apply linked_snoc; [|exact Hp]. rewrite <- Hl. apply IH. lia.
    + rewrite (get_path_root _ Hp). exact I.
  - destruct (get_path_last state) as [l ->]. apply last_last.
  - unfold get_path. apply NoDup_rev. now apply (ancestors_NoDup _ state eq_refl).
  - unfold get_path. apply length_rev.
Qed.

(** ** What a search returns *)

Lemma push_all_sound : forall neighbours frontier frontier',
  push_all frontier neighbours = Ok frontier' ->
  map snd frontier' = map snd frontier ++ neighbours.
Proof.
  induction neighbours as [|n ns IH]; intros frontier frontier' H; cbn in H.
  - inversion H. now rewrite app_nil_r.
  - destruct (parent_id n) as [pid|]; [|discriminate]. cbn [bind] in H.
    apply IH in H. rewrite H. unfold heappush. rewrite map_app. cbn.
    now rewrite <- app_assoc.
Qed.

Section Soundness.

Variable construct_grid : Z -> list Car -> Grid.
Variable board_id : Board -> Z.
Variable root : State.
Hypothesis root_parent : State.parent root = None.

Local Abbreviation get_successors := (get_successors construct_grid board_id).
Local Abbreviation step_of := (step_of construct_grid board_id).
Local Abbreviation descends := (descends construct_grid board_id root).
Local Abbreviation search_iter := (search_iter construct_grid board_id).
Local Abbreviation search_loop := (search_loop construct_grid board_id).
Local Abbreviation reachable := (reachable construct_grid).
Local Abbreviation sound_result := (sound_result construct_grid board_id).

Lemma step_of_parent p s : step_of p s -> State.parent s = Some p.
Proof. intros (m & _ & h & _ & ->). reflexivity. Qed.

Lemma step_of_depth p s : step_of p s -> State.depth s = State.depth p + 1.
Proof. intros (m & _ & h & _ & ->). reflexivity. Qed.

Lemma descends_all s : descends s -> Forall descends (get_path s).
Proof.
  induction 1 as [|p s Hp IH Hg Hstep].
  - rewrite (get_path_root _ root_parent). repeat constructor.
  - rewrite (get_path_parent _ _ (step_of_parent _ _ Hstep)).
    apply Forall_app. split; [exact IH|].
    repeat constructor. now apply (descends_step _ _ _ p).
Qed.

Lemma descends_reachable s :
  descends s -> reachable (State.board root) (State.board s).
Proof.
  induction 1 as [|p s Hp IH Hg (m & Hm & h & _ & ->)]; [constructor|].
  cbn. now apply reachable_move.
Qed.

Lemma descends_head s : descends s -> exists tail, get_path s = root :: tail.
Proof.
  induction 1 as [|p s Hp (tail & IH) Hg Hstep].
  - rewrite (get_path_root _ root_parent). now exists [].
  - rewrite (get_path_parent _ _ (step_of_parent _ _ Hstep)), IH.
    now exists (tail ++ [s]).
Qed.

Lemma descends_depth s :
  descends s ->
  State.depth s - State.depth root = Z.of_nat (List.length (get_path s)) - 1.
Proof.
  induction 1 as [|p s Hp IH Hg Hstep].
  - rewrite (get_path_root _ root_parent). cbn. lia.
  - rewrite (get_path_parent _ _ (step_of_parent _ _ Hstep)), length_app.
    rewrite (step_of_depth _ _ Hstep). cbn [List.length]. lia.
Qed.

Lemma descends_nongoal s :
  descends s ->
  Forall (fun p => is_goal p = Ok false) (removelast (get_path s)).
Proof.
  induction 1 as [|p s Hp IH Hg Hstep].
  - rewrite (get_path_root _ root_parent). constructor.
  - rewrite (get_path_parent _ _ (step_of_parent _ _ Hstep)), removelast_last.
    destruct (get_path_last p) as [l Hl]. rewrite Hl in *.
    rewrite removelast_last in IH. apply Forall_app. split; [exact IH|].
    now repeat constructor.
Qed.

Lemma descends_linked s : descends s -> linked step_of (get_path s).
Proof.
  induction 1 as [|p s Hp IH Hg Hstep].
  - rewrite (get_path_root _ root_parent). exact I.
  - rewrite (get_path_parent _ _ (step_of_parent _ _ Hstep)).
    destruct (get_path_last p) as [l Hl]. rewrite Hl in *.
    now apply linked_snoc.
Qed.

Lemma sound_of_descends goal :
  descends goal -> is_goal goal = Ok true ->
  NoDup (map State.id (get_path goal)) ->
  sound_result root
    (get_path goal, Z.of_nat (List.length (get_path goal)) - 1).
Proof.
  intros Hd Hg Hnd. right.
  destruct (descends_head _ Hd) as [tail Htail].
  exists goal, tail. split; [reflexivity|]. split; [exact Htail|].
  split.
  { destruct (get_path_last goal) as [l ->]. apply last_last. }
  split; [exact Hg|]. split; [now apply descends_nongoal|].
  split; [now apply descends_linked|]. split.
  { pose proof (descends_all _ Hd) as Hall.
    rewrite Forall_forall in *. intros s Hs.
    now apply descends_reachable, Hall. }
  split; [exact Hnd|]. split; [reflexivity|].
  symmetry. now apply descends_depth.
Qed.

Lemma accepted_path_NoDup ex s :
  NoDup (map State.id ex) -> is_explored ex s = false ->
  (forall a, In a (tl (ancestors s)) -> In a ex) ->
  NoDup (map State.id (get_path s)).
Proof.
  intros Hnd Hex Hanc. unfold get_path. rewrite map_rev. apply NoDup_rev.
  pose proof (NoDup_accept ex s Hnd Hex) as Hacc.
  assert (Hin : forall a, In a (ancestors s) -> In a (ex ++ [s])).
  { intros a Ha. apply in_or_app.
    rewrite (ancestors_eq s) in Ha. destruct Ha as [<-|Ha].
    - right. now left.
    - left. apply Hanc. now rewrite ancestors_eq. }
  apply NoDup_map_inj_on; [|now apply (ancestors_NoDup _ s eq_refl)].
  intros x y Hx Hy. apply (NoDup_map_inj_in State.id (ex ++ [s])); auto.
Qed.

Section Loop.

Context {F : Type}.
Variable pop : F -> option (State * F).
Variable push : F -> list State -> result F.
Variable items : F -> list State.

Hypothesis pop_items : forall fr s fr',
  pop fr = Some (s, fr') ->
  In s (items fr) /\
  (forall x, In x (items fr') -> In x (items fr)) /\
  (List.length (items fr') < List.length (items fr))%nat.

Hypothesis push_sound : forall fr ns fr',
  push fr ns = Ok fr' ->
  forall x, In x (items fr') -> In x (items fr) \/ In x ns.

Lemma search_loop_sound : forall fuel fr ex r,
  NoDup (map State.id ex) ->
  (forall s, In s (items fr) ->
             descends s /\ forall a, In a (tl (ancestors s)) -> In a ex) ->
  search_loop pop push fuel fr ex = Some (Ok r) ->
  sound_result root r.
Proof.
  induction fuel as [|fuel IH]; intros fr ex r Hnd Hfr H; cbn in H;
    [discriminate|].
  unfold search_iter in H.
  destruct (pop fr) as [[s rest]|] eqn:Hpop.
  2:{ inversion H. left. now split. }
  destruct (pop_items _ _ _ Hpop) as (Hs & Hincl & _).
  destruct (Hfr s Hs) as [Hd Hanc].
  destruct (is_explored ex s) eqn:Hex; cbn [negb] in H.
  - apply (IH rest ex r Hnd); [|exact H]. intros x Hx. now apply Hfr, Hincl.
  - destruct (is_goal s) as [[|]|] eqn:Hg; [| |discriminate].
    + inversion H. apply sound_of_descends; try assumption.
      now apply (accepted_path_NoDup ex).
    + destruct (get_successors s) as [ns|] eqn:Hns; [|discriminate].
      destruct (push rest ns) as [fr'|] eqn:Hpush; [|discriminate].
      apply (IH fr' (ex ++ [s]) r); [now apply NoDup_accept| |exact H].
      intros x Hx. destruct (push_sound _ _ _ Hpush x Hx) as [Hx'|Hx'].
      * destruct (Hfr x (Hincl x Hx')) as [Hdx Hax]. split; [exact Hdx|].
        intros a Ha. apply in_or_app. left. now apply Hax.
      * apply get_successors_moves in Hns.
        destruct (Forall2_In_r _ _ _ _ Hns Hx') as (m & Hm & Hsucc).
        assert (Hstep : step_of s x) by now exists m.
        split; [now apply (descends_step _ _ _ s)|].
        intros a Ha. rewrite (ancestors_eq x) in Ha.
        rewrite (step_of_parent _ _ Hstep) in Ha. cbn [tl] in Ha.
        apply in_or_app. rewrite (ancestors_eq s) in Ha.
        destruct Ha as [<-|Ha]; [right; now left|left].
        apply Hanc. now rewrite ancestors_eq.
Qed.

End Loop.

End Soundness.

Lemma a_star_loop_sound construct_grid board_id fuel root r :
  State.parent root = None ->
  a_star_loop construct_grid board_id fuel
    [((State.f root, State.id root, 0), root)] [] = Some (Ok r) ->
  sound_result construct_grid board_id root r.
Proof.
  intros Hroot H. rewrite a_star_loop_search in H.
  apply (search_loop_sound construct_grid board_id root Hroot
           heap_pop push_all (map snd) heap_pop_items) in H;
    [exact H| |constructor|].
  - intros fr ns fr' Hpush x Hx. rewrite (push_all_sound _ _ _ Hpush) in Hx.
    now apply in_app_or.
  - intros s [<-|[]]. split; [constructor|]. intros a Ha.
    cbn [snd] in Ha. rewrite (ancestors_eq root), Hroot in Ha. destruct Ha.
Qed.

Lemma dfs_loop_sound construct_grid board_id fuel root r :
  State.parent root = None ->
  dfs_loop construct_grid board_id fuel [root] [] = Some (Ok r) ->
  sound_result construct_grid board_id root r.
Proof.
  intros Hroot H. rewrite dfs_loop_search in H.
  apply (search_loop_sound construct_grid board_id root Hroot
           list_pop stack_push (fun fr => fr) list_pop_items) in H;
    [exact H| |constructor|].
  - intros fr ns fr' Hpush x Hx. unfold stack_push in Hpush.
    inversion Hpush; subst. apply in_app_or in Hx.
    destruct Hx as [Hx|Hx]; [now left|right].
    apply (Permutation_in _ (sort_desc_perm ns) Hx).
  - intros s [<-|[]]. split; [constructor|]. intros a Ha.
    cbn [snd] in Ha. rewrite (ancestors_eq root), Hroot in Ha. destruct Ha.
Qed.

(** X11.  When [a_star] returns a value, the heuristic returned on the
    initial board and the value is either the empty path with cost -1 or a
    path with these properties: it starts at the node of the initial board,
    every node is the successor that the generator builds for a move of the
    node before it, only the last node passes the goal test, every board on
    it is reachable from the initial board, no identity occurs twice, and
    the cost is the number of moves, which is the depth of the last
    node. *)
Theorem a_star_sound construct_grid board_id (fuel : nat)
    (init_board : Board) (hfn : Heuristic) (r : Solution) :
  a_star construct_grid board_id fuel init_board hfn = Some (Ok r) ->
  exists h,
    hfn init_board = Ok h /\
    sound_result construct_grid board_id
      (new_State board_id init_board hfn h 0 None) r.
Proof.
  unfold a_star, a_star_init. intros H.
  destruct (hfn init_board) as [h|]; [|discriminate]. cbn [bind] in H.
  exists h. split; [reflexivity|].
  now apply (a_star_loop_sound construct_grid board_id fuel).
Qed.

(** X12.  When [dfs] returns a value, it is either the empty path with
    cost -1 or a path from the zero-heuristic node of the initial board to
    a node passing the goal test, with the properties of X11: consecutive
    nodes are one generated move apart, only the last node passes the goal
    test, no identity occurs twice, and the cost is the length of the path
    minus 1. *)
Theorem dfs_sound construct_grid board_id (fuel : nat) (init_board : Board)
    (r : Solution) :
  dfs construct_grid board_id fuel init_board = Some (Ok r) ->
  sound_result construct_grid board_id
    (new_State board_id init_board zero_heuristic 0 0 None) r.
Proof.
  unfold dfs, dfs_init. intros H.
  now apply (dfs_loop_sound construct_grid board_id fuel).
Qed.

(** X13.  On an initial board that passes the goal test, both searches
    return at the first iteration the path made of the initial node alone,
    with cost 0, and the instrumented search counts one pop; informed
    search needs the heuristic to return on that board. *)
Theorem solved_board_returns construct_grid board_id (fuel : nat)
    (init_board : Board) (hfn : Heuristic) (h : Z) :
  exit_cells init_board = Ok true -> hfn init_board = Ok h ->
  a_star construct_grid board_id (S fuel) init_board hfn
  = Some (Ok ([new_State board_id init_board hfn h 0 None], 0)) /\
  a_star_node_expanded construct_grid board_id (S fuel) init_board hfn
  = Some (Ok ([new_State board_id init_board hfn h 0 None], 0, 1)) /\
  dfs construct_grid board_id (S fuel) init_board
  = Some (Ok ([new_State board_id init_board zero_heuristic 0 0 None], 0)).
Proof.
  intros Hg Hh.
  unfold a_star, a_star_node_expanded, a_star_init, dfs, dfs_init.
  rewrite Hh. cbn [bind]. cbn [a_star_loop a_star_node_expanded_loop dfs_loop].
  unfold a_star_iter, dfs_iter, is_goal. cbn [heappush app heappop list_pop rev
    is_explored existsb negb State.board new_State].
  rewrite Hg. repeat split.
Qed.

(** ** Exhaustion means that there is no solution *)

Lemma heappop_perm frontier e rest :
  heappop frontier = Some (e, rest) -> Permutation frontier (e :: rest).
Proof.
  revert e rest. induction frontier as [|a fr IH]; intros e rest H; cbn in H;
    [discriminate|].
  destruct (heappop fr) as [[m rest']|] eqn:E.
  - specialize (IH _ _ eq_refl).
    destruct (key_lt (fst m) (fst a)); inversion H; subst.
    + rewrite IH. apply perm_swap.
    + reflexivity.
  - inversion H; subst. destruct fr as [|b fr]; [reflexivity|].
    cbn in E. destruct (heappop fr) as [[? ?]|];
      [destruct (key_lt _ _)|]; discriminate.
Qed.

Lemma heappop_none frontier : heappop frontier = None -> frontier = [].
Proof.
  destruct frontier as [|a fr]; [reflexivity|]. cbn.
  destruct (heappop fr) as [[? ?]|]; [destruct (key_lt _ _)|]; discriminate.
Qed.

Lemma heap_pop_all fr s fr' :
  heap_pop fr = Some (s, fr') ->
  forall x, In x (map snd fr) -> x = s \/ In x (map snd fr').
Proof.
  unfold heap_pop. intros H x Hx.
  destruct (heappop fr) as [[[k s0] rest]|] eqn:E; [|discriminate].
  inversion H; subst.
  apply (Permutation_in _ (Permutation_map snd (heappop_perm _ _ _ E))) in Hx.
  destruct Hx as [<-|Hx]; auto.
Qed.

Lemma heap_pop_none fr : heap_pop fr = None -> map snd fr = [].
Proof.
  unfold heap_pop. intros H.
  destruct (heappop fr) as [[[k s] rest]|] eqn:E; [discriminate|].
  now rewrite (heappop_none _ E).
Qed.

Lemma list_pop_all (fr : list State) s fr' :
  list_pop fr = Some (s, fr') -> forall x, In x fr -> x = s \/ In x fr'.
Proof.
  unfold list_pop. intros H x Hx.
  destruct (rev fr) as [|y r] eqn:E; [discriminate|]. inversion H; subst.
  apply in_rev in Hx. rewrite E in Hx. destruct Hx as [<-|Hx]; [now left|].
  right. now apply in_rev in Hx.
Qed.

Lemma list_pop_none (fr : list State) : list_pop fr = None -> fr = [].
Proof.
  unfold list_pop. intros H. destruct (rev fr) as [|y r] eqn:E;
    [|discriminate].
  rewrite <- (rev_involutive fr), E. reflexivity.
Qed.

Lemma Forall2_In_l {A B : Type} (R : A -> B -> Prop) l1 l2 x :
  Forall2 R l1 l2 -> In x l1 -> exists y, In y l2 /\ R x y.
Proof.
  induction 1 as [|a b l1 l2 Hab _ IH]; cbn; [tauto|].
  intros [<-|Hx].
  - exists b. auto.
  - destruct (IH Hx) as (y & Hy & HR). exists y. auto.
Qed.

Lemma is_explored_true explored state :
  is_explored explored state = true ->
  exists e, In e explored /\ State.id e = State.id state.
Proof.
  unfold is_explored. intros H. apply existsb_exists in H.
  destruct H as (e & He & Heq). exists e. split; [exact He|].
  now apply Z.eqb_eq.
Qed.

Section Completeness.

Variable construct_grid : Z -> list Car -> Grid.
Variable board_id : Board -> Z.
Variable b0 : Board.

Local Abbreviation get_successors := (get_successors construct_grid board_id).
Local Abbreviation search_iter := (search_iter construct_grid board_id).
Local Abbreviation search_loop := (search_loop construct_grid board_id).
Local Abbreviation reachable := (reachable construct_grid b0).
Local Abbreviation next_board := (next_board construct_grid).
Local Abbreviation covered := (covered board_id).

Hypothesis ids_distinct : distinct_ids construct_grid board_id b0.

Context {F : Type}.
Variable pop : F -> option (State * F).
Variable push : F -> list State -> result F.
Variable items : F -> list State.

Hypothesis pop_none : forall fr, pop fr = None -> items fr = [].

Hypothesis pop_all : forall fr s fr',
  pop fr = Some (s, fr') ->
  forall x, In x (items fr) -> x = s \/ In x (items fr').

Hypothesis pop_items : forall fr s fr',
  pop fr = Some (s, fr') ->
  In s (items fr) /\
  (forall x, In x (items fr') -> In x (items fr)) /\
  (List.length (items fr') < List.length (items fr))%nat.

Hypothesis push_all_items : forall fr ns fr',
  push fr ns = Ok fr' ->
  forall x, In x (items fr') <-> In x (items fr) \/ In x ns.

Lemma covered_discard fr fr' ex s b :
  pop fr = Some (s, fr') -> State.id s = board_id (State.board s) ->
  (exists e, In e ex /\ State.id e = State.id s) ->
  covered (items fr) ex b -> covered (items fr') ex b.
Proof.
  intros Hpop Hid (e & He & Heq) [(x & Hx & Hb)|Hex]; [|now right].
  destruct (pop_all _ _ _ Hpop x Hx) as [->|Hx'].
  - right. exists e. split; [exact He|]. now rewrite Heq, Hid, Hb.
  - left. now exists x.
Qed.

Lemma covered_expand fr rest fr' ex s ns b :
  pop fr = Some (s, rest) -> push rest ns = Ok fr' ->
  State.id s = board_id (State.board s) ->
  covered (items fr) ex b -> covered (items fr') (ex ++ [s]) b.
Proof.
  intros Hpop Hpush Hid [(x & Hx & Hb)|(e & He & Heq)].
  - destruct (pop_all _ _ _ Hpop x Hx) as [->|Hx'].
    + right. exists s. split; [apply in_or_app; right; now left|].
      now rewrite Hid, Hb.
    + left. exists x. split; [|exact Hb].
      apply (push_all_items _ _ _ Hpush). now left.
  - right. exists e. split; [apply in_or_app; now left|exact Heq].
Qed.

Lemma exhausted_closed ex :
  covered [] ex b0 ->
  (forall e, In e ex ->
             reachable (State.board e) /\
             State.id e = board_id (State.board e) /\
             is_goal e = Ok false /\
             forall m, In m (moves (State.board e)) ->
                       covered [] ex (next_board (State.board e) m)) ->
  forall b, reachable b ->
            exists e, In e ex /\ State.board e = b /\ is_goal e = Ok false.
Proof.
  intros H0 Hex b Hb. induction Hb as [|b m Hb IH Hm].
  - destruct H0 as [(s & [] & _)|(e & He & Heq)].
    destruct (Hex e He) as (Hr & Hid & Hg & _).
    exists e. split; [exact He|]. split; [|exact Hg].
    apply ids_distinct; [exact Hr|constructor|congruence].
  - destruct IH as (e & He & <- & _).
    destruct (Hex e He) as (_ & _ & _ & Hcov).
    destruct (Hcov m Hm) as [(s & [] & _)|(e' & He' & Heq)].
    destruct (Hex e' He') as (Hr' & Hid' & Hg' & _).
    exists e'. split; [exact He'|]. split; [|exact Hg'].
    apply ids_distinct; [exact Hr'|now constructor|].
    rewrite <- Hid', Heq. reflexivity.
Qed.

Lemma search_loop_complete : forall fuel fr ex,
  (forall s, In s (items fr) ->
             reachable (State.board s) /\
             State.id s = board_id (State.board s)) ->
  (forall e, In e ex ->
             reachable (State.board e) /\
             State.id e = board_id (State.board e) /\
             is_goal e = Ok false /\
             forall m, In m (moves (State.board e)) ->
                       covered (items fr) ex (next_board (State.board e) m)) ->
  covered (items fr) ex b0 ->
  search_loop pop push fuel fr ex = Some (Ok ([], -1)) ->
  forall b, reachable b -> exit_cells b = Ok false.
Proof.
  induction fuel as [|fuel IH]; intros fr ex Hfr Hex H0 H; cbn in H;
    [discriminate|].
  unfold search_iter in H.
  destruct (pop fr) as [[s rest]|] eqn:Hpop.
  2:{ rewrite (pop_none _ Hpop) in *. intros b Hb.
      destruct (exhausted_closed ex H0 Hex b Hb) as (e & _ & <- & Hg).
      exact Hg. }
  destruct (pop_items _ _ _ Hpop) as (Hs & Hincl & _).
  destruct (Hfr s Hs) as [Hrs Hids].
  destruct (is_explored ex s) eqn:Hexp; cbn [negb] in H.
  - apply is_explored_true in Hexp.
    apply (IH rest ex); [| | |exact H].
    + intros x Hx. now apply Hfr, Hincl.
    + intros e He. destruct (Hex e He) as (Hr & Hid & Hg & Hcov).
      repeat split; try assumption.
      intros m Hm. now apply (covered_discard fr rest ex s), Hcov.
    + now apply (covered_discard fr rest ex s).
  - destruct (is_goal s) as [[|]|] eqn:Hg; [| |discriminate].
    + inversion H as [Hpath]. now apply get_path_nonempty in Hpath.
    + destruct (get_successors s) as [ns|] eqn:Hns; [|discriminate].
      destruct (push rest ns) as [fr'|] eqn:Hpush; [|discriminate].
      apply get_successors_moves in Hns.
      apply (IH fr' (ex ++ [s])); [| | |exact H].
      * intros x Hx. apply (push_all_items _ _ _ Hpush) in Hx.
        destruct Hx as [Hx|Hx]; [now apply Hfr, Hincl|].
        destruct (Forall2_In_r _ _ _ _ Hns Hx) as (m & Hm & h & _ & ->).
        split; [|reflexivity]. cbn. now apply reachable_move.
      * intros e He. apply in_app_or in He. destruct He as [He|[<-|[]]].
        -- destruct (Hex e He) as (Hr & Hid & Hge & Hcov).
           repeat split; try assumption.
           intros m Hm. now apply (covered_expand fr rest fr' ex s ns), Hcov.
        -- repeat split; try assumption.
           intros m Hm.
           destruct (Forall2_In_l _ _ _ _ Hns Hm) as (n & Hn & h & _ & ->).
           left. exists (successor construct_grid board_id s m h).
           split; [|reflexivity].
           apply (push_all_items _ _ _ Hpush). now right.
      * now apply (covered_expand fr rest fr' ex s ns).
Qed.

End Completeness.

Lemma a_star_loop_complete construct_grid board_id fuel root :
  distinct_ids construct_grid board_id (State.board root) ->
  State.id root = board_id (State.board root) ->
  a_star_loop construct_grid board_id fuel
    [((State.f root, State.id root, 0), root)] [] = Some (Ok ([], -1)) ->
  forall b, reachable construct_grid (State.board root) b ->
            exit_cells b = Ok false.
Proof.
  intros Hids Hid H. rewrite a_star_loop_search in H.
  eapply (search_loop_complete construct_grid board_id (State.board root) Hids
            heap_pop push_all (map snd) heap_pop_none heap_pop_all
            heap_pop_items); [| | | |exact H].
  - intros fr ns fr' Hpush x. rewrite (push_all_sound _ _ _ Hpush).
    apply in_app_iff.
  - intros s [<-|[]]. split; [constructor|exact Hid].
  - intros e [].
  - left. exists root. split; [now left|reflexivity].
Qed.

Lemma dfs_loop_complete construct_grid board_id fuel root :
  distinct_ids construct_grid board_id (State.board root) ->
  State.id root = board_id (State.board root) ->
  dfs_loop construct_grid board_id fuel [root] [] = Some (Ok ([], -1)) ->
  forall b, reachable construct_grid (State.board root) b ->
            exit_cells b = Ok false.
Proof.
  intros Hids Hid H. rewrite dfs_loop_search in H.
  eapply (search_loop_complete construct_grid board_id (State.board root) Hids
            list_pop stack_push (fun fr => fr) list_pop_none list_pop_all
            list_pop_items); [| | | |exact H].
  - intros fr ns fr' Hpush x. unfold stack_push in Hpush.
    inversion Hpush; subst. rewrite in_app_iff. split.
    + intros [Hx|Hx]; [now left|right].
      apply (Permutation_in _ (sort_desc_perm ns) Hx).
    + intros [Hx|Hx]; [now left|right].
      apply (Permutation_in _ (Permutation_sym (sort_desc_perm ns)) Hx).
  - intros s [<-|[]]. split; [constructor|exact Hid].
  - intros e [].
  - left. exists root. split; [now left|reflexivity].
Qed.

(** X14.  If no two boards reachable from the initial board share an
    identity, [a_star] returns the empty path with cost -1 only when no
    board reachable from the initial board passes the goal test: running
    out of frontier means that there is no solution. *)
Theorem a_star_exhaustion_complete construct_grid board_id (fuel : nat)
    (init_board : Board) (hfn : Heuristic) :
  distinct_ids construct_grid board_id init_board ->
  a_star construct_grid board_id fuel init_board hfn = Some (Ok ([], -1)) ->
  forall b, reachable construct_grid init_board b -> exit_cells b = Ok false.
Proof.
  unfold a_star, a_star_init. intros Hids H.
  destruct (hfn init_board) as [h|]; [|discriminate]. cbn [bind] in H.
  now apply (a_star_loop_complete construct_grid board_id fuel
               (new_State board_id init_board hfn h 0 None)).
Qed.

(** X15.  The same for [dfs]: with distinct identities on the reachable
    boards, the empty path with cost -1 is returned only when no reachable
    board passes the goal test. *)
Theorem dfs_exhaustion_complete construct_grid board_id (fuel : nat)
    (init_board : Board) :
  distinct_ids construct_grid board_id init_board ->
  dfs construct_grid board_id fuel init_board = Some (Ok ([], -1)) ->
  forall b, reachable construct_grid init_board b -> exit_cells b = Ok false.
Proof.
  unfold dfs, dfs_init. intros Hids H.
  now apply (dfs_loop_complete construct_grid board_id fuel
               (new_State board_id init_board zero_heuristic 0 0 None)).
Qed.

(** ** Every search ends *)

Section Returning.

Variable construct_grid : Z -> list Car -> Grid.
Variable board_id : Board -> Z.

Local Abbreviation get_successors := (get_successors construct_grid board_id).
Local Abbreviation search_iter := (search_iter construct_grid board_id).
Local Abbreviation search_loop := (search_loop construct_grid board_id).

Context {F : Type}.
Variable pop : F -> option (State * F).
Variable push : F -> list State -> result F.
Variable items : F -> list State.
Variable node : State -> Prop.
Variable U : list Z.

Hypothesis pop_items : forall fr s fr',
  pop fr = Some (s, fr') ->
  In s (items fr) /\
  (forall x, In x (items fr') -> In x (items fr)) /\
  (List.length (items fr') < List.length (items fr))%nat.

Hypothesis push_items : forall fr ns state,
  Forall (fun n => State.parent n = Some state) ns ->
  exists fr',
    push fr ns = Ok fr' /\
    forall x, In x (items fr') -> In x (items fr) \/ In x ns.

Hypothesis node_goal : forall s, node s -> exists g, is_goal s = Ok g.

Hypothesis node_successors : forall s,
  node s -> exists ns, get_successors s = Ok ns /\ Forall node ns.

Hypothesis node_id : forall s, node s -> In (State.id s) U.

Lemma search_returns : forall n ex,
  (List.length (filter (unexplored ex) U) < n)%nat ->
  forall k fr,
    (List.length (items fr) < k)%nat ->
    (forall s, In s (items fr) -> node s) ->
    exists fuel r, search_loop pop push fuel fr ex = Some (Ok r).
Proof.
  induction n as [|n IHn]; intros ex Hn; [lia|].
  induction k as [|k IHk]; intros fr Hk Hnode; [lia|].
  destruct (pop fr) as [[s fr']|] eqn:Hpop.
  - destruct (pop_items _ _ _ Hpop) as (Hs & Hincl & Hlen).
    destruct (is_explored ex s) eqn:Hex.
    + destruct (IHk fr') as (fuel & r & Hfuel); [lia|auto|].
      exists (S fuel), r. cbn. unfold search_iter. now rewrite Hpop, Hex.
    + pose proof (Hnode s Hs) as Hnd.
      destruct (node_goal s Hnd) as [[|] Hg].
      * exists 1%nat. eexists. cbn. unfold search_iter.
        now rewrite Hpop, Hex, Hg.
      * destruct (node_successors s Hnd) as (ns & Hns & Hall).
        destruct (push_items fr' ns s
                    (successors_parent construct_grid board_id _ _ Hns))
          as (fr'' & Hpush & Hin).
        destruct (IHn (ex ++ [s])) with (k := S (List.length (items fr'')))
                                        (fr := fr'') as (fuel & r & Hfuel).
        -- pose proof (unexplored_accept ex s U (node_id s Hnd) Hex). lia.
        -- lia.
        -- intros x Hx. destruct (Hin x Hx) as [Hx'|Hx']; [auto|].
           rewrite Forall_forall in Hall. auto.
        -- exists (S fuel), r. cbn. unfold search_iter.
           now rewrite Hpop, Hex, Hg, Hns, Hpush.
  - exists 1%nat. eexists. cbn. unfold search_iter. now rewrite Hpop.
Qed.

End Returning.

Lemma node_goal_total construct_grid board_id b0 hfn s :
  6 <= Board.size b0 ->
  Forall (in_bounds (Board.size b0)) (Board.cars b0) ->
  (forall b, reachable construct_grid b0 b -> square b) ->
  search_node construct_grid board_id b0 hfn s ->
  exists g, is_goal s = Ok g.
Proof.
  intros H6 Hin Hsq (Hreach & _ & _). unfold is_goal.
  destruct (reachable_fleet _ _ _ Hin Hreach) as (_ & Hsize & _).
  apply exit_cells_total; [now apply Hsq|lia].
Qed.

Lemma a_star_loop_returns construct_grid board_id b0 hfn h :
  6 <= Board.size b0 ->
  Forall (in_bounds (Board.size b0)) (Board.cars b0) ->
  (forall b, reachable construct_grid b0 b -> square b) ->
  (forall b, reachable construct_grid b0 b -> exists v, hfn b = Ok v) ->
  exists fuel r,
    a_star_loop construct_grid board_id fuel
      [((h, board_id b0, 0), new_State board_id b0 hfn h 0 None)] []
    = Some (Ok r).
Proof.
  intros H6 Hin Hsq Hh.
  destruct (search_returns construct_grid board_id
              heap_pop push_all (map snd)
              (search_node construct_grid board_id b0 hfn)
              (universe construct_grid board_id b0)
              heap_pop_items push_all_items
              (fun s => node_goal_total _ _ _ _ s H6 Hin Hsq)
              (node_successors _ _ _ _ Hin Hsq Hh)
              (node_id _ _ _ _ Hin)
              _ [] (Nat.lt_succ_diag_r _) _
              [((h, board_id b0, 0), new_State board_id b0 hfn h 0 None)]
              (Nat.lt_succ_diag_r _))
    as (fuel & r & Hrun).
  { intros s [<-|[]]. repeat split. constructor. }
  exists fuel, r. now rewrite a_star_loop_search.
Qed.

Lemma dfs_loop_returns construct_grid board_id b0 :
  6 <= Board.size b0 ->
  Forall (in_bounds (Board.size b0)) (Board.cars b0) ->
  (forall b, reachable construct_grid b0 b -> square b) ->
  exists fuel r,
    dfs_loop construct_grid board_id fuel
      [new_State board_id b0 zero_heuristic 0 0 None] []
    = Some (Ok r).
Proof.
  intros H6 Hin Hsq.
  destruct (search_returns construct_grid board_id
              list_pop stack_push (fun fr => fr)
              (search_node construct_grid board_id b0 zero_heuristic)
              (universe construct_grid board_id b0)
              list_pop_items stack_push_items
              (fun s => node_goal_total _ _ _ _ s H6 Hin Hsq)
              (node_successors _ _ _ _ Hin Hsq
                 (fun b _ => ex_intro _ 0 eq_refl))
              (node_id _ _ _ _ Hin)
              _ [] (Nat.lt_succ_diag_r _) _
              [new_State board_id b0 zero_heuristic 0 0 None]
              (Nat.lt_succ_diag_r _))
    as (fuel & r & Hrun).
  { intros s [<-|[]]. repeat split. constructor. }
  exists fuel, r. now rewrite dfs_loop_search.
Qed.

Lemma a_star_loop_mono construct_grid board_id fuel fuel' fr ex r :
  a_star_loop construct_grid board_id fuel fr ex = Some r ->
  (fuel <= fuel')%nat ->
  a_star_loop construct_grid board_id fuel' fr ex = Some r.
Proof.
  rewrite !a_star_loop_search. apply search_loop_mono.
Qed.

Lemma dfs_loop_mono construct_grid board_id fuel fuel' fr ex r :
  dfs_loop construct_grid board_id fuel fr ex = Some r ->
  (fuel <= fuel')%nat ->
  dfs_loop construct_grid board_id fuel' fr ex = Some r.
Proof.
  rewrite !dfs_loop_search. apply search_loop_mono.
Qed.

(** X16.  On an initial board of at least six rows with every vehicle
    inside the grid, whose reachable boards are square and get a value from
    the heuristic, [a_star] and [dfs] both come to an end without raising:
    there is a number of iterations from which on each returns one fixed
    value, solvable board or not. *)
Theorem search_terminates construct_grid board_id (init_board : Board)
    (hfn : Heuristic) :
  6 <= Board.size init_board ->
  Forall (in_bounds (Board.size init_board)) (Board.cars init_board) ->
  (forall b, reachable construct_grid init_board b -> square b) ->
  (forall b, reachable construct_grid init_board b ->
             exists h, hfn b = Ok h) ->
  exists fuel ra rd,
    forall fuel', (fuel <= fuel')%nat ->
      a_star construct_grid board_id fuel' init_board hfn = Some (Ok ra) /\
      dfs construct_grid board_id fuel' init_board = Some (Ok rd).
Proof.
  intros H6 Hin Hsq Hh.
  destruct (Hh init_board (reachable_init _ _)) as [h Hh0].
  destruct (a_star_loop_returns construct_grid board_id init_board hfn h
              H6 Hin Hsq Hh) as (fuel1 & ra & Hra).
  destruct (dfs_loop_returns construct_grid board_id init_board H6 Hin Hsq)
    as (fuel2 & rd & Hrd).
  exists (Nat.max fuel1 fuel2), ra, rd. intros fuel' Hfuel. split.
  - unfold a_star, a_star_init. rewrite Hh0. cbn [bind heappush app].
    eapply a_star_loop_mono; [exact Hra|lia].
  - unfold dfs, dfs_init. eapply dfs_loop_mono; [exact Hrd|lia].
Qed.

(** X17.  Under the conditions of X16 and with distinct identities on the
    reachable boards, both searches decide whether the board can be solved:
    the value each settles on has a non-empty path exactly when some board
    reachable from the initial board passes the goal test. *)
Theorem search_decides construct_grid board_id (init_board : Board)
    (hfn : Heuristic) :
  6 <= Board.size init_board ->
  Forall (in_bounds (Board.size init_board)) (Board.cars init_board) ->
  (forall b, reachable construct_grid init_board b -> square b) ->
  (forall b, reachable construct_grid init_board b ->
             exists h, hfn b = Ok h) ->
  distinct_ids construct_grid board_id init_board ->
  exists fuel ra rd,
    (forall fuel', (fuel <= fuel')%nat ->
       a_star construct_grid board_id fuel' init_board hfn = Some (Ok ra) /\
       dfs construct_grid board_id fuel' init_board = Some (Ok rd)) /\
    (fst ra <> [] <->
     exists b, reachable construct_grid init_board b /\
               exit_cells b = Ok true) /\
    (fst rd <> [] <->
     exists b, reachable construct_grid init_board b /\
               exit_cells b = Ok true).
Proof.
  intros H6 Hin Hsq Hh Hids.
  destruct (Hh init_board (reachable_init _ _)) as [h Hh0].
  destruct (a_star_loop_returns construct_grid board_id init_board hfn h
              H6 Hin Hsq Hh) as (fuel1 & ra & Hra).
  destruct (dfs_loop_returns construct_grid board_id init_board H6 Hin Hsq)
    as (fuel2 & rd & Hrd).
  assert (Hdecide : forall root r,
             State.board root = init_board ->
             sound_result construct_grid board_id root r ->
             (r = ([], -1) ->
              forall b, reachable construct_grid init_board b ->
                        exit_cells b = Ok false) ->
             (fst r <> [] <->
              exists b, reachable construct_grid init_board b /\
                        exit_cells b = Ok true)).
  { intros root [path cost] Hroot Hsound Hcomplete. cbn [fst]. split.
    - intros Hne. destruct Hsound as [[Hnil _]|Hgoal]; [contradiction|].
      destruct Hgoal as (goal & tail & Hpath & _ & Hlast & Hg & _ & _
                         & Hreach & _).
      exists (State.board goal). split; [|exact Hg].
      rewrite Forall_forall in Hreach. rewrite <- Hroot.
      apply Hreach. rewrite <- Hlast.
      destruct path as [|x path]; [contradiction|].
      apply (exists_last (l := x :: path)) in Hne.
      destruct Hne as (l & y & ->). rewrite last_last.
      apply in_or_app. right. now left.
    - intros (b & Hb & Hg) Hnil.
      destruct Hsound as [[_ Hcost]|Hgoal].
      + subst. rewrite (Hcomplete eq_refl b Hb) in Hg. discriminate.
      + destruct Hgoal as (goal & tail & _ & Hpath & _). congruence. }
  exists (Nat.max fuel1 fuel2), ra, rd. split; [|split].
  - intros fuel' Hfuel. split.
    + unfold a_star, a_star_init. rewrite Hh0. cbn [bind heappush app].
      eapply a_star_loop_mono; [exact Hra|lia].
    + unfold dfs, dfs_init. eapply dfs_loop_mono; [exact Hrd|lia].
  - apply (Hdecide (new_State board_id init_board hfn h 0 None));
      [reflexivity| |].
    + now apply (a_star_loop_sound construct_grid board_id fuel1).
    + intros ->.
      now apply (a_star_loop_complete construct_grid board_id fuel1
                   (new_State board_id init_board hfn h 0 None)).
  - apply (Hdecide (new_State board_id init_board zero_heuristic 0 0 None));
      [reflexivity| |].
    + now apply (dfs_loop_sound construct_grid board_id fuel2).
    + intros ->.
      now apply (dfs_loop_complete construct_grid board_id fuel2
                   (new_State board_id init_board zero_heuristic 0 0 None)).
Qed.

(** ** Costs along a returned path *)

Lemma linked_step_costs construct_grid board_id (hfn : Heuristic) :
  forall l x,
    linked (step_of construct_grid board_id) (x :: l) ->
    State.hfn x = hfn ->
    forall i s,
      nth_error (x :: l) i = Some s ->
      State.depth s = State.depth x + Z.of_nat i /\
      State.hfn s = hfn /\
      (i <> O ->
       exists h, hfn (State.board s) = Ok h /\ State.f s = State.depth s + h).
Proof.
  induction l as [|y l IH]; intros x Hl Hx i s Hi.
  - destruct i as [|i]; [|destruct i; discriminate].
    inversion Hi; subst. split; [lia|]. split; [reflexivity|]. congruence.
  - destruct Hl as [Hxy Hl]. destruct i as [|i].
    + inversion Hi; subst. split; [lia|]. split; [reflexivity|]. congruence.
    + cbn [nth_error] in Hi.
      destruct Hxy as (m & _ & h & Hh & Hy).
      assert (Hy_hfn : State.hfn y = hfn) by (subst y; exact Hx).
      assert (Hy_depth : State.depth y = State.depth x + 1) by now subst y.
      destruct (IH y Hl Hy_hfn i s Hi) as (Hd & Hs & Hf).
      split; [lia|]. split; [exact Hs|]. intros _.
      destruct i as [|i]; [|now apply Hf].
      inversion Hi; subst s. exists h. rewrite <- Hx. split.
      * subst y. exact Hh.
      * subst y. cbn. lia.
Qed.

(** X18.  On a path returned by [a_star] the node at position [i] has depth
    [i] and carries the heuristic the search was called with; its [f] is
    its depth plus the value of the heuristic on its own board. *)
Theorem a_star_path_costs construct_grid board_id (fuel : nat)
    (init_board : Board) (hfn : Heuristic) (path : list State) (cost : Z) :
  a_star construct_grid board_id fuel init_board hfn
  = Some (Ok (path, cost)) ->
  forall i s,
    nth_error path i = Some s ->
    State.depth s = Z.of_nat i /\
    State.hfn s = hfn /\
    exists h, hfn (State.board s) = Ok h /\ State.f s = State.depth s + h.
Proof.
  unfold a_star, a_star_init. intros H i s Hi.
  destruct (hfn init_board) as [h0|] eqn:Hh0; [|discriminate].
  cbn [bind] in H.
  apply (a_star_loop_sound construct_grid board_id fuel
           (new_State board_id init_board hfn h0 0 None) _ eq_refl) in H.
  destruct H as [[-> _]|(goal & tail & _ & -> & _ & _ & _ & Hlinked & _)].
  { destruct i; discriminate. }
  destruct (linked_step_costs construct_grid board_id hfn tail _ Hlinked
              eq_refl i s Hi) as (Hd & Hs & Hf).
  cbn in Hd. split; [lia|]. split; [exact Hs|].
  destruct i as [|i]; [|now apply Hf].
  inversion Hi; subst s. exists h0. cbn. split; [exact Hh0|lia].
Qed.

(** ** The further statements on the example boards *)

Lemma square_new_Board nm size cars :
  0 <= size -> square (new_Board draw_grid nm size cars).
Proof.
  intros Hsize. unfold square, new_Board, draw_grid.
  cbn [Board.grid Board.size].
  assert (Hlen : forall (A : Type) (f : Z -> A),
             Z.of_nat (List.length (map f (range 0 size))) = size).
  { intros A f. rewrite length_map, length_range. lia. }
  split; [apply Hlen|].
  apply Forall_forall. intros row Hrow. apply in_map_iff in Hrow.
  destruct Hrow as (r & <- & _). apply Hlen.
Qed.

Lemma jam_free_reachable b :
  reachable draw_grid jam_free b -> In b jam_free_boards.
Proof.
  induction 1 as [|b m _ IH Hm]; [now left|].
  unfold jam_free_boards in IH. cbn [map In] in IH.
  destruct IH as [<-|[<-|[<-|[<-|[<-|[]]]]]];
    vm_compute in Hm;
    repeat (destruct Hm as [<-|Hm];
            [vm_compute; repeat (first [left; reflexivity|right])|]);
    destruct Hm.
Qed.

Lemma jam_free_all (P : Board -> Prop) :
  Forall P jam_free_boards ->
  forall b, reachable draw_grid jam_free b -> P b.
Proof.
  intros H b Hb. rewrite Forall_forall in H.
  now apply H, jam_free_reachable.
Qed.

Lemma jam_free_distinct : distinct_ids draw_grid grid_code jam_free.
Proof.
  intros b1 b2 H1 H2.
  apply jam_free_reachable in H1, H2.
  unfold jam_free_boards in H1, H2. cbn [map In] in H1, H2.
  destruct H1 as [<-|[<-|[<-|[<-|[<-|[]]]]]];
    destruct H2 as [<-|[<-|[<-|[<-|[<-|[]]]]]];
    intros E; first [reflexivity|vm_compute in E; discriminate E].
Qed.

Lemma jam_stuck_distinct : distinct_ids draw_grid grid_code jam_stuck.
Proof.
  intros b1 b2 H1 H2 _.
  now rewrite (jam_stuck_reachable b1 H1), (jam_stuck_reachable b2 H2).
Qed.

Lemma blocking_heuristic_range_witness :
  0 <= 2 <= Z.max 1 (Board.size jam_pinned).
Proof. apply (blocking_heuristic_range jam_pinned 2). reflexivity. Defined.

Lemma blocking_heuristic_spec_witness :
  blocking_heuristic jam_solved = Ok 0 /\
  blocking_heuristic jam_pinned = Ok 2 /\
  blocking_heuristic jam_pinned
  = Ok (blocking_as_specified jam_pinned (Car.mk Horizontal 2 0 2)).
Proof.
  split.
  - apply (proj2 (proj1 (blocking_heuristic_spec
                           (state_of blocking_heuristic jam_solved)))).
    reflexivity.
  - assert (Hfirst : forall k, (k < 1)%nat ->
                nth_error ["<"; ">"; "|"; "."; "."; "."] k <> Some ">").
    { intros [|k] Hk; [discriminate|lia]. }
    destruct (proj2 (proj2 (blocking_heuristic_spec
                              (state_of blocking_heuristic jam_pinned)))
                ["<"; ">"; "|"; "."; "."; "."] 1%nat
                eq_refl eq_refl eq_refl eq_refl Hfirst) as [Hv Hcar].
    split; [exact Hv|]. apply Hcar. reflexivity.
Defined.

Lemma advanced_at_most_three_more_witness : 3 <= 2 + 3.
Proof.
  apply (advanced_at_most_three_more jam_pinned 2 3); reflexivity.
Defined.

Lemma advanced_one_iff_unblocked_witness : advanced_heuristic jam_free = Ok 1.
Proof.
  apply (proj2 (advanced_one_iff_unblocked jam_free eq_refl)). reflexivity.
Defined.

Lemma advanced_zero_goal_witness : advanced_heuristic jam_solved = Ok 0.
Proof.
  apply (proj2 (advanced_zero_goal jam_solved)
           ["."; "."; "."; "."; "<"; ">"]);
    [reflexivity|reflexivity|reflexivity|cbn; lia].
Defined.

Lemma is_goal_cases_witness : is_goal jam_five_state = Ok false.
Proof.
  exact (proj1 (proj2 (proj2 (is_goal_cases jam_five_state)
                         ["<"; ">"; "."; "v"; "."] eq_refl)) eq_refl).
Defined.

Lemma advanced_needs_six_rows_witness :
  blocking_heuristic jam_five = Ok 2 /\
  advanced_heuristic jam_five = Raise IndexError.
Proof.
  split; [reflexivity|].
  exact (advanced_needs_six_rows jam_five ["<"; ">"; "."; "v"; "."] 1%nat 2
           (square_new_Board _ 5 _ ltac:(lia)) eq_refl eq_refl eq_refl
           eq_refl).
Defined.

Lemma a_star_needs_exit_glyph_witness :
  a_star draw_grid grid_code 3 jam_empty blocking_heuristic
  = Some (Raise ValueError).
Proof.
  apply (a_star_needs_exit_glyph draw_grid grid_code jam_empty
           ["."; "."; "."; "."; "."; "."] 3); reflexivity.
Defined.

Lemma successors_distinct_witness :
  NoDup (map (fun s => Board.cars (State.board s)) jam_free_successors).
Proof.
  apply (successors_distinct draw_grid grid_code jam_free_state
           jam_free_successors). reflexivity.
Defined.


Lemma a_star_sound_witness :
  exists h,
    blocking_heuristic jam_free = Ok h /\
    sound_result draw_grid grid_code
      (new_State grid_code jam_free blocking_heuristic h 0 None)
      jam_free_solution.
Proof.
  apply (a_star_sound draw_grid grid_code 5). reflexivity.
Defined.

Lemma dfs_sound_witness :
  sound_result draw_grid grid_code
    (new_State grid_code jam_free zero_heuristic 0 0 None)
    jam_free_dfs_solution.
Proof.
  apply (dfs_sound draw_grid grid_code 5). reflexivity.
Defined.

Lemma solved_board_returns_witness :
  a_star draw_grid grid_code 1 jam_solved blocking_heuristic
  = Some (Ok ([new_State grid_code jam_solved blocking_heuristic 0 0 None], 0)).
Proof.
  apply (solved_board_returns draw_grid grid_code 0 jam_solved
           blocking_heuristic 0); reflexivity.
Defined.

Lemma a_star_exhaustion_complete_witness : exit_cells jam_stuck = Ok false.
Proof.
  apply (a_star_exhaustion_complete draw_grid grid_code 2 jam_stuck
           blocking_heuristic jam_stuck_distinct eq_refl).
  constructor.
Defined.

Lemma dfs_exhaustion_complete_witness : exit_cells jam_stuck = Ok false.
Proof.
  apply (dfs_exhaustion_complete draw_grid grid_code 2 jam_stuck
           jam_stuck_distinct eq_refl).
  constructor.
Defined.

Lemma jam_free_in_bounds :
  Forall (in_bounds (Board.size jam_free)) (Board.cars jam_free).
Proof. repeat constructor; cbn; lia. Qed.

Lemma jam_free_square b : reachable draw_grid jam_free b -> square b.
Proof.
  apply jam_free_all. repeat constructor; apply square_board_of.
Qed.

Lemma jam_free_blocking b :
  reachable draw_grid jam_free b -> exists h, blocking_heuristic b = Ok h.
Proof.
  apply (jam_free_all (fun b => exists h, blocking_heuristic b = Ok h)).
  repeat constructor; eexists; vm_compute; reflexivity.
Qed.

Lemma search_terminates_witness :
  exists fuel ra rd,
    forall fuel', (fuel <= fuel')%nat ->
      a_star draw_grid grid_code fuel' jam_free blocking_heuristic
      = Some (Ok ra) /\
      dfs draw_grid grid_code fuel' jam_free = Some (Ok rd).
Proof.
  apply (search_terminates draw_grid grid_code jam_free blocking_heuristic).
  - cbn. lia.
  - exact jam_free_in_bounds.
  - exact jam_free_square.
  - exact jam_free_blocking.
Defined.

Lemma search_decides_witness :
  exists fuel ra rd,
    (forall fuel', (fuel <= fuel')%nat ->
       a_star draw_grid grid_code fuel' jam_free blocking_heuristic
       = Some (Ok ra) /\
       dfs draw_grid grid_code fuel' jam_free = Some (Ok rd)) /\
    (fst ra <> [] <->
     exists b, reachable draw_grid jam_free b /\ exit_cells b = Ok true) /\
    (fst rd <> [] <->
     exists b, reachable draw_grid jam_free b /\ exit_cells b = Ok true).
Proof.
  apply (search_decides draw_grid grid_code jam_free blocking_heuristic).
  - cbn. lia.
  - exact jam_free_in_bounds.
  - exact jam_free_square.
  - exact jam_free_blocking.
  - exact jam_free_distinct.
Defined.

Lemma a_star_path_costs_witness :
  State.depth jam_free_goal = 1 /\
  State.hfn jam_free_goal = blocking_heuristic /\
  exists h,
    blocking_heuristic (State.board jam_free_goal) = Ok h /\
    State.f jam_free_goal = State.depth jam_free_goal + h.
Proof.
  apply (a_star_path_costs draw_grid grid_code 5 jam_free blocking_heuristic
           (fst jam_free_solution) (snd jam_free_solution) eq_refl 1%nat
           jam_free_goal).
  reflexivity.
Defined.
